(** * tetra3d navigation grids (grid.go): GridPoint, Grid and GridPath

    A shallow embedding of [grid.go].  Go pointers are locations of an explicit
    store, [nil] is [None]; a run-time panic (nil dereference, index out of
    range, invalid argument) is an explicit outcome.  Slices are modelled with
    their backing array, because [Disconnect] and [Combine] edit a slice while a
    [range] loop is still reading the same array. *)

From stdpp Require Import gmap list.

Set Default Proof Using "Type".

(** ** Pointers and panics *)

Abbreviation loc := positive.

(** A [*GridPoint] or a [*Grid]: [None] is Go's [nil]. *)
Abbreviation ptr := (option loc).

Inductive panic :=
  | NilDereference      (* invalid memory address or nil pointer dereference *)
  | IndexOutOfRange     (* index out of range *)
  | InvalidArgument.    (* rand.Intn: invalid argument to Intn *)

(** The outcome of a call: a value, a run-time panic, or (for the unbounded
    [for] loops of [PathTo] only) the loop budget of the model ran out. *)
Inductive outcome (A : Type) :=
  | Ok (a : A)
  | Panic (e : panic)
  | OutOfFuel.
Arguments Ok {A} a.
Arguments Panic {A} e.
Arguments OutOfFuel {A}.

#[global] Instance outcome_ret : MRet outcome := @Ok.
#[global] Instance outcome_bind : MBind outcome := λ A B k m,
  match m with
  | Ok a => k a
  | Panic e => Panic e
  | OutOfFuel => OutOfFuel
  end.

#[global] Instance outcome_fmap : FMap outcome := λ A B f m,
  match m with
  | Ok a => Ok (f a)
  | Panic e => Panic e
  | OutOfFuel => OutOfFuel
  end.

#[global] Instance panic_eq_dec : EqDecision panic.
Proof. solve_decision. Defined.

(** A [for ... range] loop whose body may panic. *)
Fixpoint foldlM {A B} (f : A → B → outcome A) (a : A) (l : list B) : outcome A :=
  match l with
  | [] => Ok a
  | b :: l => a' ← f a b; foldlM f a' l
  end.

(** ** Slices of [*GridPoint]

    [elems] is the slice as the program sees it (indices below [len]); [spare]
    is the rest of its backing array, up to the capacity.  The cells of [spare]
    keep whatever was last written there; they are read only by a [range] loop
    that took its length before the slice shrank.  No two GridPoints share a
    backing array: [NewGridPoint] and [Clone] start each [Connections] in an
    array of its own, and [append] only ever extends that one. *)
Record slice := Slice { elems : list ptr; spare : list ptr }.

Definition array (s : slice) : list ptr := elems s ++ spare s.
Definition cap (s : slice) : nat := length (array s).

(** [[]*GridPoint{}] *)
Definition empty_slice : slice := Slice [] [].

(** [s[i] = nil; s = append(s[:i], s[i+1:]...)]: the store panics when [i] is
    not below [len(s)]; the append moves the tail one cell down inside the same
    array, so the cell that held the last element keeps its content. *)
Definition remove_index (i : nat) (s : slice) : outcome slice :=
  if decide (i < length (elems s)) then
    let a := <[i := None]> (elems s) in
    Ok (Slice (take i a ++ drop (S i) a)
              (drop (length (elems s) - 1) a ++ spare s))
  else Panic IndexOutOfRange.

(** The Go run time: what the language leaves to the implementation. *)
Class GoRuntime := {
  (** capacity of the new array when [append] finds a slice of this capacity full *)
  growslice : nat → nat;
  growslice_gt : ∀ c, c < growslice c;
  (** [sort.Slice]: some rearrangement of the slice (it is not stable) *)
  sort_Slice : ∀ A : Type, (A → A → bool) → list A → list A;
  sort_Slice_perm : ∀ A less (l : list A), sort_Slice A less l ≡ₚ l;
}.

(** [append(s, x)]: in place when the capacity allows, otherwise into a new,
    larger array whose fresh cells are nil. *)
Definition append `{GoRuntime} (s : slice) (x : ptr) : slice :=
  match spare s with
  | _ :: sp => Slice (elems s ++ [x]) sp
  | [] => Slice (elems s ++ [x])
                (replicate (growslice (cap s) - S (length (elems s))) None)
  end.

(** [rand.Intn(n)], with [rnd] the number the generator draws. *)
Definition Intn (rnd n : nat) : outcome nat :=
  if decide (n = 0) then Panic InvalidArgument else Ok (rnd `mod` n).

(** ** Vectors and float64 arithmetic

    [grid.go] builds [Vector{0, 0, 0, 0}] and reads and writes the fields [X],
    [Y] and [Z].  The methods of [Vector] and the float64 operations they apply
    are defined outside [grid.go]: they are the operations of [MathLib]. *)
Module Vector.
Record t (F : Type) := mk { X : F; Y : F; Z : F; W : F }.
Arguments mk {F}.
Arguments X {F}.
Arguments Y {F}.
Arguments Z {F}.
Arguments W {F}.
End Vector.
Abbreviation Vector := Vector.t.

Class MathLib (float64 : Type) := {
  (** an integer literal, and the conversion [float64(n)] *)
  float_of_Z : BinNums.Z → float64;
  MaxFloat64 : float64;
  fadd : float64 → float64 → float64;
  fmul : float64 → float64 → float64;
  fdiv : float64 → float64 → float64;
  (** [a < b]; [a > b] is [flt b a] *)
  flt : float64 → float64 → bool;
  (** methods of [Vector] *)
  Add : Vector float64 → Vector float64 → Vector float64;
  Sub : Vector float64 → Vector float64 → Vector float64;
  Divide : Vector float64 → float64 → Vector float64;
  Dot : Vector float64 → Vector float64 → float64;
  Magnitude : Vector float64 → float64;
  MagnitudeSquared : Vector float64 → float64;
  DistanceSquared : Vector float64 → Vector float64 → float64;
  (** equality of two vectors up to the library's tolerance *)
  Equals : Vector float64 → Vector float64 → bool;
}.

(** ** A concrete run time and integer coordinates, for the examples *)

Fixpoint insert_sorted {A} (less : A → A → bool) (x : A) (l : list A) : list A :=
  match l with
  | [] => [x]
  | y :: l' => if less x y then x :: l else y :: insert_sorted less x l'
  end.

Definition insertion_sort {A} (less : A → A → bool) (l : list A) : list A :=
  foldr (insert_sorted less) [] l.

Lemma insert_sorted_perm {A} less (x : A) l : insert_sorted less x l ≡ₚ x :: l.
Proof.
  induction l as [|y l IH]; simpl; [done|].
  destruct (less x y); [done|]. rewrite IH. apply Permutation_swap.
Qed.

Lemma insertion_sort_perm {A} less (l : list A) : insertion_sort less l ≡ₚ l.
Proof.
  induction l as [|x l IH]; simpl; [done|].
  rewrite insert_sorted_perm. by rewrite IH.
Qed.

(** [append] doubles a full array (an empty one gets one cell), as Go does for
    small slices; [sort.Slice] is an insertion sort. *)
Definition small_runtime : GoRuntime.
Proof.
  refine {| growslice := λ c, if decide (c = 0) then 1 else 2 * c;
            sort_Slice := @insertion_sort |}.
  - intros c. case_decide; lia.
  - intros. apply insertion_sort_perm.
Defined.

Definition zip_coords (f : Z → Z → Z) (a b : Vector Z) : Vector Z :=
  Vector.mk (f (Vector.X a) (Vector.X b)) (f (Vector.Y a) (Vector.Y b))
            (f (Vector.Z a) (Vector.Z b)) (Vector.W a).

Definition dot_coords (a b : Vector Z) : Z :=
  (Vector.X a * Vector.X b + Vector.Y a * Vector.Y b + Vector.Z a * Vector.Z b)%Z.

(** Coordinates that are integers: float64 holds them exactly, and two such
    vectors are equal up to the tolerance exactly when they are equal. *)
Definition integer_coords : MathLib Z := {|
  float_of_Z := id;
  MaxFloat64 := (2 ^ 1024)%Z;
  fadd := Z.add;
  fmul := Z.mul;
  fdiv := Z.div;
  flt := Z.ltb;
  Add := zip_coords Z.add;
  Sub := zip_coords Z.sub;
  Divide := λ a s, zip_coords (λ x _, x / s)%Z a a;
  Dot := dot_coords;
  Magnitude := λ a, Z.sqrt (dot_coords a a);
  MagnitudeSquared := λ a, dot_coords a a;
  DistanceSquared := λ a b, dot_coords (zip_coords Z.sub a b) (zip_coords Z.sub a b);
  Equals := λ a b, bool_decide (Vector.X a = Vector.X b ∧ Vector.Y a = Vector.Y b
                                ∧ Vector.Z a = Vector.Z b);
|}.

(** ** The store *)

(** An [INode] value: the dynamic type and the address of a scene object.
    Grids and GridPoints are the scene objects of this development. *)
Inductive INode :=
  | INodeGrid (g : loc)
  | INodeGridPoint (p : loc).

#[global] Instance INode_eq_dec : EqDecision INode.
Proof. solve_decision. Defined.

Section grid.
Context {RT : GoRuntime} {float64 : Type} {M : MathLib float64}.

(** Modelled from the spec: the embedded [*Node] (node.go is not under src/),
    reduced to what [grid.go] uses of it: the parent, the children in
    attachment order, and the world position, which attaching and detaching
    preserve. *)
Record Node := mkNode {
  parent : option INode;
  children : list INode;
  position : Vector float64;
}.

Record GridPoint := mkGridPoint {
  gp_Node : Node;
  Connections : slice;
  prevLink : ptr;
}.

Record Grid := mkGrid { grid_Node : Node }.

Record World := mkWorld {
  points : gmap loc GridPoint;
  grids : gmap loc Grid;
}.

(** Reading through a [*GridPoint]. *)
Definition deref (w : World) (p : ptr) : outcome GridPoint :=
  match p with
  | None => Panic NilDereference
  | Some l =>
      match points w !! l with
      | Some gp => Ok gp
      | None => Panic NilDereference
      end
  end.

(** Writing through a [*GridPoint] that was read before. *)
Definition store (w : World) (p : ptr) (gp : GridPoint) : World :=
  match p with
  | None => w
  | Some l => mkWorld (<[l := gp]> (points w)) (grids w)
  end.

Definition set_Connections (gp : GridPoint) (s : slice) : GridPoint :=
  mkGridPoint (gp_Node gp) s (prevLink gp).

Definition set_prevLink (gp : GridPoint) (q : ptr) : GridPoint :=
  mkGridPoint (gp_Node gp) (Connections gp) q.

(** ** GridPoint *)

(** [NewGridPoint], on the node that [NewNode(name)] returns. *)
Definition NewGridPoint (nd : Node) : GridPoint := mkGridPoint nd empty_slice None.

(** The loop of [IsConnected]. *)
Fixpoint contains (cs : list ptr) (other : ptr) : bool :=
  match cs with
  | [] => false
  | c :: cs => if decide (c = other) then true else contains cs other
  end.

Definition IsConnected (w : World) (point other : ptr) : outcome bool :=
  gp ← deref w point;
  Ok (contains (elems (Connections gp)) other).

Definition IsOnSameGrid (w : World) (point other : ptr) : outcome bool :=
  gp ← deref w point;
  go ← deref w other;
  Ok (bool_decide (parent (gp_Node gp) = parent (gp_Node go))).

(** [point.Connections = append(point.Connections, other)] *)
Definition append_Connections (w : World) (point other : ptr) : outcome World :=
  gp ← deref w point;
  Ok (store w point (set_Connections gp (append (Connections gp) other))).

Definition Connect (w : World) (point other : ptr) : outcome World :=
  if decide (point = other) then Ok w
  else
    c ← IsConnected w point other;
    w ← (if c : bool then Ok w else append_Connections w point other);
    c ← IsConnected w other point;
    if c : bool then Ok w else append_Connections w other point.

(** One loop of [Disconnect], [for i, c := range point.Connections]: the
    range took the length once ([n] counts the iterations left), and reads cell
    [i] of the backing array as it is when iteration [i] starts. *)
Fixpoint Disconnect_loop (w : World) (point other : ptr) (i n : nat) : outcome World :=
  match n with
  | 0 => Ok w
  | S n =>
      gp ← deref w point;
      match array (Connections gp) !! i with
      | None => Panic IndexOutOfRange
      | Some c =>
          w ← (if decide (c = other)
               then s ← remove_index i (Connections gp);
                    Ok (store w point (set_Connections gp s))
               else Ok w);
          Disconnect_loop w point other (S i) n
      end
  end.

Definition Disconnect (w : World) (point other : ptr) : outcome World :=
  if decide (point = other) then Ok w
  else
    gp ← deref w point;
    w ← Disconnect_loop w point other 0 (length (elems (Connections gp)));
    go ← deref w other;
    Disconnect_loop w other point 0 (length (elems (Connections go))).

(** ** GridPath *)

Record GridPath := mkGridPath { GridPoints : list (Vector float64) }.

(** The loop of [Distance]: [dist += next.Sub(start).Magnitude(); start = next]. *)
Fixpoint Distance_loop (dist : float64) (start : Vector float64)
    (rest : list (Vector float64)) : float64 :=
  match rest with
  | [] => dist
  | next :: rest => Distance_loop (fadd dist (Magnitude (Sub next start))) next rest
  end.

Definition Distance (gp : GridPath) : float64 :=
  let dist := float_of_Z 0 in
  if decide (length (GridPoints gp) ≤ 1) then float_of_Z 0
  else
    match GridPoints gp with
    | [] => dist
    | start :: rest => Distance_loop dist start rest
    end.

Definition GridPath_Points (gp : GridPath) : list (Vector float64) :=
  [] ++ GridPoints gp.

(** Modelled from the spec: [WorldPosition] of the embedded [*Node]. *)
Definition WorldPosition (w : World) (p : ptr) : outcome (Vector float64) :=
  gp ← deref w p;
  Ok (position (gp_Node gp)).

(** ** PathTo *)

(** [for _, c := range next.Connections]: a neighbour that is not a key of
    [checked] gets [next] as its [prevLink] and joins the queue. *)
Fixpoint expand (w : World) (next : ptr) (cs : list ptr) (toCheck : list ptr)
    (checked : gmap ptr bool) : outcome (World * list ptr) :=
  match cs with
  | [] => Ok (w, toCheck)
  | c :: cs =>
      match checked !! c with
      | Some _ => expand w next cs toCheck checked
      | None =>
          gc ← deref w c;
          expand (store w c (set_prevLink gc next)) next cs (toCheck ++ [c]) checked
      end
  end.

(** The state of the search loop: the store, [next], [toCheck], [checked]. *)
Definition search_state : Type := World * ptr * list ptr * gmap ptr bool.

(** The body of the search loop after its exit test: dequeue, mark, expand. *)
Definition search_body (st : search_state) : outcome search_state :=
  let '(w, _, toCheck, checked) := st in
  match toCheck with
  | [] => Panic IndexOutOfRange
  | next :: toCheck =>
      let checked := <[next := true]> checked in
      gn ← deref w next;
      '(w, toCheck) ← expand w next (elems (Connections gn)) toCheck checked;
      Ok (w, next, toCheck, checked)
  end.

(** [for { if next == point { break }; ... }] *)
Fixpoint search (fuel : nat) (point : ptr) (st : search_state) : outcome search_state :=
  match fuel with
  | 0 => OutOfFuel
  | S fuel =>
      if decide (st.1.1.2 = point) then Ok st
      else st ← search_body st; search fuel point st
  end.

(** [for next.prevLink != nil { ...; next = next.prevLink }] *)
Fixpoint walk (fuel : nat) (w : World) (next : ptr) (path : list (Vector float64))
    : outcome (list (Vector float64)) :=
  match fuel with
  | 0 => OutOfFuel
  | S fuel =>
      gn ← deref w next;
      match prevLink gn with
      | None => Ok path
      | Some l => walk fuel w (Some l) (path ++ [position (gp_Node gn)])
      end
  end.

(** [PathTo] returns a [*GridPath] ([None] is the nil path) and leaves the
    [prevLink]s it wrote in the store. *)
Definition PathTo (fuel : nat) (w : World) (point other : ptr)
    : outcome (World * option GridPath) :=
  same ← IsOnSameGrid w point other;
  if negb same then Ok (w, None)
  else if decide (point = other) then
    pos ← WorldPosition w point;
    Ok (w, Some (mkGridPath [pos]))
  else
    go ← deref w other;
    let w := store w other (set_prevLink go None) in
    gp ← deref w point;
    let w := store w point (set_prevLink gp None) in
    '(w, next, _, _) ← search fuel point (w, None, [other], ∅);
    path ← walk fuel w next [];
    pos ← WorldPosition w other;
    Ok (w, Some (mkGridPath (path ++ [pos]))).

(** ** The scene graph under a Grid *)

Definition deref_Grid (w : World) (g : ptr) : outcome Grid :=
  match g with
  | None => Panic NilDereference
  | Some l =>
      match grids w !! l with
      | Some gr => Ok gr
      | None => Panic NilDereference
      end
  end.

(** The embedded [*Node] of a scene object. *)
Definition get_Node (w : World) (n : INode) : outcome Node :=
  match n with
  | INodeGrid g => gr ← deref_Grid w (Some g); Ok (grid_Node gr)
  | INodeGridPoint p => gp ← deref w (Some p); Ok (gp_Node gp)
  end.

Definition set_Node (w : World) (n : INode) (nd : Node) : World :=
  match n with
  | INodeGrid g => mkWorld (points w) (<[g := mkGrid nd]> (grids w))
  | INodeGridPoint p =>
      mkWorld (alter (λ gp, mkGridPoint nd (Connections gp) (prevLink gp)) p (points w))
              (grids w)
  end.

Fixpoint remove_first (child : INode) (cs : list INode) : list INode :=
  match cs with
  | [] => []
  | c :: cs => if decide (c = child) then cs else c :: remove_first child cs
  end.

(** Modelled from the spec: [RemoveChildren] of node.go, for one child: the
    child leaves the children of [par] and has no parent any more. *)
Definition RemoveChildren (w : World) (par child : INode) : outcome World :=
  pn ← get_Node w par;
  if decide (child ∈ children pn) then
    cn ← get_Node w child;
    let w := set_Node w child (mkNode None (children cn) (position cn)) in
    pn ← get_Node w par;
    Ok (set_Node w par (mkNode (parent pn) (remove_first child (children pn)) (position pn)))
  else Ok w.

(** [Unparent], the same body for a GridPoint and for a Grid. *)
Definition Unparent (w : World) (n : INode) : outcome World :=
  nd ← get_Node w n;
  match parent nd with
  | Some par => RemoveChildren w par n
  | None => Ok w
  end.

Definition GridPoint_Unparent (w : World) (point : ptr) : outcome World :=
  match point with
  | None => Panic NilDereference
  | Some p => Unparent w (INodeGridPoint p)
  end.

Definition Grid_Unparent (w : World) (grid : ptr) : outcome World :=
  match grid with
  | None => Panic NilDereference
  | Some g => Unparent w (INodeGrid g)
  end.

(** Modelled from the spec: [addChildren] of node.go, for one child: the child
    is detached from its parent and attached last under the grid. *)
Definition Grid_AddChildren (w : World) (grid : ptr) (child : INode) : outcome World :=
  match grid with
  | None => Panic NilDereference
  | Some g =>
      w ← Unparent w child;
      cn ← get_Node w child;
      let w := set_Node w child (mkNode (Some (INodeGrid g)) (children cn) (position cn)) in
      gn ← get_Node w (INodeGrid g);
      Ok (set_Node w (INodeGrid g) (mkNode (parent gn) (children gn ++ [child]) (position gn)))
  end.

(** Modelled from the spec: [Children] of node.go, a copy of the children. *)
Definition Grid_Children (w : World) (grid : ptr) : outcome (list INode) :=
  gr ← deref_Grid w grid;
  Ok (children (grid_Node gr)).

(** Modelled from the spec: [SetWorldPositionVec] of node.go. *)
Definition SetWorldPositionVec (w : World) (n : INode) (pos : Vector float64) : outcome World :=
  nd ← get_Node w n;
  Ok (set_Node w n (mkNode (parent nd) (children nd) pos)).

(** ** Grid *)

(** The loop of [Points]: the children that are GridPoints. *)
Fixpoint Points_loop (cs : list INode) : list ptr :=
  match cs with
  | [] => []
  | INodeGridPoint p :: cs => Some p :: Points_loop cs
  | INodeGrid _ :: cs => Points_loop cs
  end.

Definition Points (w : World) (grid : ptr) : outcome (list ptr) :=
  gr ← deref_Grid w grid;
  Ok (Points_loop (children (grid_Node gr))).

(** The points with the world positions the comparison of the sort reads. *)
Fixpoint positioned (w : World) (ps : list ptr) : outcome (list (ptr * Vector float64)) :=
  match ps with
  | [] => Ok []
  | p :: ps =>
      pos ← WorldPosition w p;
      pps ← positioned w ps;
      Ok ((p, pos) :: pps)
  end.

Definition nearer (position : Vector float64) (a b : ptr * Vector float64) : bool :=
  flt (MagnitudeSquared (Sub a.2 position)) (MagnitudeSquared (Sub b.2 position)).

Definition sorted_Points (w : World) (grid : ptr) (position : Vector float64)
    : outcome (list ptr) :=
  ps ← Points w grid;
  pps ← positioned w ps;
  Ok ((sort_Slice _ (nearer position) pps).*1).

Definition NearestGridPoint (w : World) (grid : ptr) (position : Vector float64)
    : outcome ptr :=
  ps ← sorted_Points w grid position;
  match ps !! 0 with
  | Some p => Ok p
  | None => Panic IndexOutOfRange
  end.

Definition FurthestGridPoint (w : World) (grid : ptr) (position : Vector float64)
    : outcome ptr :=
  ps ← sorted_Points w grid position;
  if decide (length ps = 0) then Panic IndexOutOfRange
  else
    match ps !! (length ps - 1) with
    | Some p => Ok p
    | None => Panic IndexOutOfRange
    end.

Definition RandomPoint (rnd : nat) (w : World) (grid : ptr) : outcome ptr :=
  gridPoints ← Points w grid;
  i ← Intn rnd (length gridPoints);
  match gridPoints !! i with
  | Some p => Ok p
  | None => Panic IndexOutOfRange
  end.

Definition LastPoint (w : World) (grid : ptr) : outcome ptr :=
  gridPoints ← Points w grid;
  if decide (length gridPoints = 0) then Ok None
  else
    match gridPoints !! (length gridPoints - 1) with
    | Some p => Ok p
    | None => Panic IndexOutOfRange
    end.

Definition FirstPoint (w : World) (grid : ptr) : outcome ptr :=
  gridPoints ← Points w grid;
  if decide (length gridPoints = 0) then Ok None
  else
    match gridPoints !! 0 with
    | Some p => Ok p
    | None => Panic IndexOutOfRange
    end.

(** One connection of the nearest point in [NearestPositionOnGrid]: the query
    position projected on the segment from [start] to [end_], kept when it is
    nearer than the best so far. *)
Definition project (position start : Vector float64) (best : float64 * Vector float64)
    (end_ : Vector float64) : float64 * Vector float64 :=
  let '(dist, endPos) := best in
  let segment := Sub end_ start in
  let newPos := Sub position start in
  let t := fdiv (Dot newPos segment) (Dot segment segment) in
  let t := if flt (float_of_Z 1) t then float_of_Z 1
           else if flt t (float_of_Z 0) then float_of_Z 0 else t in
  let newPos := Vector.mk (fadd (Vector.X start) (fmul (Vector.X segment) t))
                          (fadd (Vector.Y start) (fmul (Vector.Y segment) t))
                          (fadd (Vector.Z start) (fmul (Vector.Z segment) t))
                          (Vector.W newPos) in
  let nd := DistanceSquared newPos position in
  if flt nd dist then (nd, newPos) else (dist, endPos).

Definition NearestPositionOnGrid (w : World) (grid : ptr) (position : Vector float64)
    : outcome (Vector float64) :=
  nearestPoint ← NearestGridPoint w grid position;
  start ← WorldPosition w nearestPoint;
  gn ← deref w nearestPoint;
  best ← foldlM (λ best connection,
                   end_ ← WorldPosition w connection;
                   Ok (project position start best end_))
                (MaxFloat64, position) (elems (Connections gn));
  Ok best.2.

Definition Center (w : World) (grid : ptr) : outcome (Vector float64) :=
  let pos := Vector.mk (float_of_Z 0) (float_of_Z 0) (float_of_Z 0) (float_of_Z 0) in
  points ← Points w grid;
  pos ← foldlM (λ pos p, v ← WorldPosition w p; Ok (Add pos v)) pos points;
  Ok (Divide pos (float_of_Z (Z.of_nat (length points)))).

(** ** Combine *)

(** [for _, connect := range p2.Connections { p.Connect(connect);
    connect.Disconnect(p2) }].  The range took the backing array and the length
    of [p2.Connections] once; [view] is that array as it is when iteration [i]
    starts and [n] counts the iterations left.  [Disconnect] shifts
    [p2.Connections] inside that array, which the next iteration sees.  Once an
    [append] has moved [p2.Connections] to a larger array (the capacity tells),
    the array of the range no longer changes. *)
Fixpoint Combine_transfer (w : World) (p p2 : ptr) (view : list ptr) (i n : nat)
    : outcome World :=
  match n with
  | 0 => Ok w
  | S n =>
      match view !! i with
      | None => Panic IndexOutOfRange
      | Some connect =>
          w ← Connect w p connect;
          w ← Disconnect w connect p2;
          g2 ← deref w p2;
          let view := if decide (cap (Connections g2) = length view)
                      then array (Connections g2) else view in
          Combine_transfer w p p2 view (S i) n
      end
  end.

(** The body of the inner loop over [grid.Points()]. *)
Definition Combine_merge (w : World) (p p2 : ptr) : outcome World :=
  if decide (p = p2) then Ok w
  else
    pos ← WorldPosition w p;
    pos2 ← WorldPosition w p2;
    if Equals pos pos2 then
      g2 ← deref w p2;
      w ← Combine_transfer w p p2 (array (Connections g2)) 0
            (length (elems (Connections g2)));
      GridPoint_Unparent w p2
    else Ok w.

(** The body of the loop over [others]. *)
Definition Combine_other (w : World) (grid other : ptr) : outcome World :=
  if decide (grid = other) then Ok w
  else
    cs ← Grid_Children w other;
    w ← foldlM (λ w p,
                  nd ← get_Node w p;
                  w ← Grid_AddChildren w grid p;
                  SetWorldPositionVec w p (position nd)) w cs;
    ps ← Points w grid;
    w ← foldlM (λ w p,
                  ps2 ← Points w grid;
                  foldlM (λ w p2, Combine_merge w p p2) w ps2) w ps;
    Grid_Unparent w other.

Definition Combine (w : World) (grid : ptr) (others : list ptr) : outcome World :=
  foldlM (λ w other, Combine_other w grid other) w others.

(** * Properties *)

Implicit Types (w : World) (a b : loc) (p q : ptr) (gp : GridPoint).

Lemma contains_elem_of (cs : list ptr) (other : ptr) :
  contains cs other = true ↔ other ∈ cs.
Proof.
  induction cs as [|c cs IH]; simpl.
  - split; [done|]. by intros ?%elem_of_nil.
  - case_decide as Hc.
    + subst. split; [left | done].
    + rewrite IH, elem_of_cons. split; [by right|]. by intros [->|?].
Qed.

Lemma contains_false (cs : list ptr) (other : ptr) :
  contains cs other = false ↔ other ∉ cs.
Proof. rewrite <- contains_elem_of. by destruct (contains cs other). Qed.

Lemma deref_Some w p gp : deref w p = Ok gp → ∃ a, p = Some a ∧ points w !! a = Some gp.
Proof.
  destruct p as [a|]; simpl; [|done].
  destruct (points w !! a) eqn:E; [|done]. intros [= ->]. eauto.
Qed.

Lemma deref_lookup w a gp : points w !! a = Some gp → deref w (Some a) = Ok gp.
Proof. simpl. by intros ->. Qed.

(** ** PathTo: the two early returns *)

(** C8. For every GridPoint A of the store, [A.PathTo(A)] returns a path whose
    positions are exactly A's world position, once, and the [Distance] of that
    path is 0; the store is left as it was. *)
Theorem PathTo_self fuel w A gp :
  deref w A = Ok gp →
  ∃ path, PathTo fuel w A A = Ok (w, Some path)
          ∧ GridPoints path = [position (gp_Node gp)]
          ∧ Distance path = float_of_Z 0.
Proof.
  intros HA. exists (mkGridPath [position (gp_Node gp)]).
  split; [|done].
  unfold PathTo, IsOnSameGrid, WorldPosition. rewrite HA. simpl.
  rewrite bool_decide_eq_true_2 by done. simpl.
  by rewrite decide_True by done.
Qed.

(** C9. For two GridPoints of the store whose parents differ, [A.PathTo(B)]
    returns the nil path: it returns normally, runs no search (whatever the
    loop budget, even none) and leaves the store as it was.  The parents of
    two GridPoints that have no parent do not differ: both are nil. *)
Theorem PathTo_other_grid fuel w A B ga gb :
  deref w A = Ok ga →
  deref w B = Ok gb →
  parent (gp_Node ga) ≠ parent (gp_Node gb) →
  IsOnSameGrid w A B = Ok false ∧ PathTo fuel w A B = Ok (w, None).
Proof.
  intros HA HB Hne. unfold PathTo, IsOnSameGrid. rewrite HA, HB. simpl.
  by rewrite bool_decide_eq_false_2.
Qed.

(** ** NearestPositionOnGrid *)

Lemma positioned_Ok w (ps : list ptr) :
  Forall (λ p, ∃ gp, deref w p = Ok gp) ps →
  ∃ pps, positioned w ps = Ok pps ∧ pps.*1 = ps.
Proof.
  induction 1 as [|p ps [gp Hp] _ (pps & IH & Hfst)].
  - by exists [].
  - exists ((p, position (gp_Node gp)) :: pps).
    cbn [positioned]. unfold WorldPosition. rewrite Hp. cbn [mbind outcome_bind].
    rewrite IH. split; [done|]. rewrite fmap_cons. by rewrite Hfst.
Qed.

(** On a grid with at least one point, [NearestGridPoint] returns one of them. *)
Lemma NearestGridPoint_Ok w grid position ps :
  Points w grid = Ok ps →
  ps ≠ [] →
  Forall (λ p, ∃ gp, deref w p = Ok gp) ps →
  ∃ p, NearestGridPoint w grid position = Ok p ∧ p ∈ ps.
Proof.
  intros Hps Hne Hall.
  destruct (positioned_Ok w ps Hall) as (pps & Hpps & Hfst).
  unfold NearestGridPoint, sorted_Points. rewrite Hps. simpl. rewrite Hpps. simpl.
  pose proof (sort_Slice_perm _ (nearer position) pps) as Hperm.
  destruct (sort_Slice _ (nearer position) pps) as [|[p v] l] eqn:Hsort.
  - apply Permutation_nil_l in Hperm. subst pps. by destruct ps.
  - exists p. split; [done|].
    rewrite <- Hfst. apply (list_elem_of_fmap_2 fst _ (p, v)).
    rewrite <- Hperm. left.
Qed.

(** C10. On a grid with at least one point, [NearestGridPoint] picks one of
    the points, and when the point it picks has no connections,
    [NearestPositionOnGrid] returns the query position itself, not the position
    of that point. *)
Theorem NearestPositionOnGrid_isolated w grid position ps :
  Points w grid = Ok ps →
  ps ≠ [] →
  Forall (λ p, ∃ gp, deref w p = Ok gp) ps →
  ∃ nearest gn,
    NearestGridPoint w grid position = Ok nearest
    ∧ nearest ∈ ps
    ∧ deref w nearest = Ok gn
    ∧ (elems (Connections gn) = [] →
       NearestPositionOnGrid w grid position = Ok position).
Proof.
  intros Hps Hne Hall.
  destruct (NearestGridPoint_Ok w grid position ps Hps Hne Hall) as (p & Hp & Hin).
  rewrite Forall_forall in Hall. destruct (Hall p Hin) as [gn Hgn].
  exists p, gn. repeat split; [done..|].
  intros Hnil. unfold NearestPositionOnGrid, WorldPosition.
  rewrite Hp. simpl. rewrite Hgn. simpl. by rewrite Hnil.
Qed.

(** ** Connect and Disconnect on the store *)

Lemma World_eta w : mkWorld (points w) (grids w) = w.
Proof. by destruct w. Qed.

Lemma store_same w a gp : points w !! a = Some gp → store w (Some a) gp = w.
Proof. intros H. simpl. rewrite insert_id by done. apply World_eta. Qed.

Lemma set_Connections_same gp : set_Connections gp (Connections gp) = gp.
Proof. by destruct gp. Qed.

(** What [Connect] does to one end: [other] is appended unless it is there. *)
Definition add_link (gp : GridPoint) (other : ptr) : GridPoint :=
  if contains (elems (Connections gp)) other then gp
  else set_Connections gp (append (Connections gp) other).

Lemma elems_append (s : slice) (x : ptr) : elems (append s x) = elems s ++ [x].
Proof. unfold append. by destruct (spare s). Qed.

Lemma elems_add_link gp other :
  elems (Connections (add_link gp other)) =
  if contains (elems (Connections gp)) other then elems (Connections gp)
  else elems (Connections gp) ++ [other].
Proof.
  unfold add_link. destruct (contains _ _); [done|]. simpl. apply elems_append.
Qed.

Lemma contains_add_link gp other :
  contains (elems (Connections (add_link gp other))) other = true.
Proof.
  rewrite elems_add_link.
  destruct (contains (elems (Connections gp)) other) eqn:E; [done|].
  apply contains_elem_of, elem_of_app. right. left.
Qed.

Lemma gp_Node_add_link gp other : gp_Node (add_link gp other) = gp_Node gp.
Proof. unfold add_link. by destruct (contains _ _). Qed.

Lemma add_link_idemp gp other : add_link (add_link gp other) other = add_link gp other.
Proof.
  unfold add_link at 1. by rewrite contains_add_link.
Qed.

Lemma append_Connections_Ok w a gp other :
  points w !! a = Some gp →
  (if contains (elems (Connections gp)) other then Ok w
   else append_Connections w (Some a) other)
  = Ok (store w (Some a) (add_link gp other)).
Proof.
  intros Ha. unfold add_link, append_Connections.
  destruct (contains _ _).
  - by rewrite store_same.
  - simpl. by rewrite Ha.
Qed.

(** [Connect] between two distinct points of the store returns, and changes
    nothing but the two Connections. *)
Lemma Connect_Ok w a b ga gb :
  a ≠ b →
  points w !! a = Some ga →
  points w !! b = Some gb →
  Connect w (Some a) (Some b)
  = Ok (mkWorld (<[b := add_link gb (Some a)]> (<[a := add_link ga (Some b)]> (points w)))
                (grids w)).
Proof.
  intros Hab Ha Hb. unfold Connect, IsConnected.
  rewrite decide_False by congruence.
  cbn [deref]. rewrite Ha. cbn [mbind outcome_bind].
  rewrite (append_Connections_Ok w a ga (Some b) Ha). cbn [mbind outcome_bind store points].
  rewrite lookup_insert_ne by done. rewrite Hb. cbn [mbind outcome_bind].
  rewrite (append_Connections_Ok _ b gb (Some a)); [done|].
  cbn [points]. by rewrite lookup_insert_ne.
Qed.

(** *** The loops of Disconnect *)

(** Iterations that meet no cell equal to [other] change nothing. *)
Lemma Disconnect_loop_skip other a n : ∀ i w gp,
  points w !! a = Some gp →
  (∀ j, i ≤ j < i + n → ∃ c, array (Connections gp) !! j = Some c ∧ c ≠ other) →
  Disconnect_loop w (Some a) other i n = Ok w.
Proof.
  induction n as [|n IH]; intros i w gp Ha Hcells; [done|].
  cbn [Disconnect_loop deref]. rewrite Ha. cbn [mbind outcome_bind].
  destruct (Hcells i) as (c & -> & Hc); [lia|].
  rewrite decide_False by done. cbn [mbind outcome_bind].
  apply (IH (S i) w gp Ha). intros j Hj. apply Hcells. lia.
Qed.

Lemma Disconnect_loop_app p other n m : ∀ i w,
  Disconnect_loop w p other i (n + m)
  = (w' ← Disconnect_loop w p other i n; Disconnect_loop w' p other (i + n) m).
Proof.
  induction n as [|n IH]; intros i w.
  - cbn [Nat.add Disconnect_loop mbind outcome_bind]. by rewrite Nat.add_0_r.
  - cbn [Nat.add Disconnect_loop].
    destruct (deref w p) as [gp| |]; cbn [mbind outcome_bind]; [|done..].
    destruct (array (Connections gp) !! i) as [c|]; [|done].
    destruct (decide (c = other)); cbn [mbind outcome_bind].
    + destruct (remove_index i (Connections gp)); cbn [mbind outcome_bind]; [|done..].
      rewrite IH. by replace (S i + n) with (i + S n) by lia.
    + rewrite IH. by replace (S i + n) with (i + S n) by lia.
Qed.

Lemma remove_index_middle (l1 l2 sp : list ptr) (x : ptr) :
  remove_index (length l1) (Slice (l1 ++ x :: l2) sp)
  = Ok (Slice (l1 ++ l2) (drop (length l2) (None :: l2) ++ sp)).
Proof.
  unfold remove_index. cbn [elems spare].
  rewrite decide_True by (rewrite length_app; simpl; lia).
  replace (<[length l1 := None]> (l1 ++ x :: l2)) with (l1 ++ None :: l2)
    by (by rewrite insert_app_r_alt, Nat.sub_diag by lia).
  do 2 f_equal.
  - rewrite take_app_length. f_equal.
    rewrite (cons_middle None l1 l2), (assoc_L (++)).
    apply drop_app_length'. rewrite length_app. simpl. lia.
  - f_equal. rewrite length_app. simpl.
    replace (length l1 + S (length l2) - 1) with (length l1 + length l2) by lia.
    by apply drop_app_add'.
Qed.

(** After the removal, the cells the range still has to read hold elements of
    the old tail, or nil. *)
Lemma cells_after_removal (l1 l2 sp : list ptr) j :
  length l1 < j ≤ length l1 + length l2 →
  ∃ c, ((l1 ++ l2) ++ drop (length l2) (None :: l2) ++ sp) !! j = Some c
       ∧ c ∈ None :: l2.
Proof.
  intros Hj. rewrite <- (assoc_L (++)), lookup_app_r by lia.
  destruct (decide (j - length l1 < length l2)) as [Hlt|Hge].
  - rewrite lookup_app_l by done.
    destruct (lookup_lt_is_Some_2 l2 (j - length l1) Hlt) as [c Hc].
    exists c. split; [done|]. right. by eapply list_elem_of_lookup_2.
  - rewrite lookup_app_r by lia. replace (j - length l1 - length l2) with 0 by lia.
    destruct (lookup_lt_is_Some_2 (None :: l2) (length l2)) as [c Hc]; [simpl; lia|].
    exists c. split; [|by eapply list_elem_of_lookup_2].
    rewrite lookup_app_l by (rewrite length_drop; simpl; lia).
    by rewrite lookup_drop, Nat.add_0_r.
Qed.

Lemma filter_ne_absent (l : list ptr) (x : ptr) :
  x ∉ l → filter (λ c, c ≠ x) l = l.
Proof.
  induction l as [|y l IH]; [done|].
  rewrite not_elem_of_cons. intros [Hxy Hx].
  rewrite filter_cons_True by done. by rewrite IH.
Qed.

Lemma filter_ne_middle (l1 l2 : list ptr) (x : ptr) :
  x ∉ l1 → x ∉ l2 → filter (λ c, c ≠ x) (l1 ++ x :: l2) = l1 ++ l2.
Proof.
  intros H1 H2. rewrite filter_app, filter_cons_False by (by intros []).
  by rewrite !filter_ne_absent.
Qed.

(** One loop of [Disconnect] over Connections without duplicates: the
    occurrence of [b], if any, is gone and the other cells keep their order. *)
Lemma Disconnect_loop_NoDup w a gp b :
  points w !! a = Some gp →
  NoDup (elems (Connections gp)) →
  ∃ sp, Disconnect_loop w (Some a) (Some b) 0 (length (elems (Connections gp)))
        = Ok (store w (Some a)
                (set_Connections gp
                   (Slice (filter (λ c, c ≠ Some b) (elems (Connections gp))) sp))).
Proof.
  intros Ha Hnd. destruct gp as [nd [cs sp] pl]. cbn [Connections elems] in *.
  destruct (decide (Some b ∈ cs)) as [Hin|Hnin].
  - apply list_elem_of_split in Hin as (l1 & l2 & ->).
    apply NoDup_app in Hnd as (_ & Hl1 & [Hl2 _]%NoDup_cons).
    assert (Some b ∉ l1) as Hb1 by (intros ?; eapply Hl1; [done|left]).
    exists (drop (length l2) (None :: l2) ++ sp).
    rewrite filter_ne_middle by done.
    rewrite length_app. cbn [length]. rewrite Disconnect_loop_app.
    rewrite (Disconnect_loop_skip _ a _ 0 w _ Ha); cycle 1.
    { intros j Hj. unfold array. cbn [Connections elems spare].
      rewrite <- (assoc_L (++)), lookup_app_l by lia.
      destruct (lookup_lt_is_Some_2 l1 j) as [c Hc]; [lia|].
      exists c. split; [done|]. intros ->. apply Hb1. by eapply list_elem_of_lookup_2. }
    cbn [mbind outcome_bind Disconnect_loop deref]. rewrite Ha.
    unfold array at 1. cbn [mbind outcome_bind Connections elems spare Nat.add].
    rewrite <- (assoc_L (++)), lookup_app_r, Nat.sub_diag by lia. cbn [lookup list_lookup app].
    rewrite decide_True by done. rewrite remove_index_middle.
    cbn [mbind outcome_bind].
    eapply Disconnect_loop_skip.
    { cbn [store points]. apply lookup_insert_eq. }
    intros j Hj. unfold array. cbn [set_Connections Connections elems spare].
    destruct (cells_after_removal l1 l2 sp j) as (c & Hc & Hel); [lia|].
    exists c. split; [done|]. intros ->.
    apply elem_of_cons in Hel as [?|?]; [done|by apply Hl2].
  - exists sp. rewrite filter_ne_absent by done.
    rewrite (Disconnect_loop_skip _ a _ 0 w _ Ha).
    + cbn [set_Connections gp_Node prevLink]. by rewrite store_same.
    + intros j Hj. unfold array. cbn [Connections elems spare].
      rewrite lookup_app_l by lia.
      destruct (lookup_lt_is_Some_2 cs j) as [c Hc]; [lia|].
      exists c. split; [done|]. intros ->. apply Hnin. by eapply list_elem_of_lookup_2.
Qed.

(** What [Disconnect] leaves of one end. *)
Definition del_link (gp : GridPoint) (other : ptr) (sp : list ptr) : GridPoint :=
  set_Connections gp (Slice (filter (λ c, c ≠ other) (elems (Connections gp))) sp).

(** [Disconnect] between two distinct points of the store whose Connections
    have no duplicates returns, and changes nothing but the two Connections. *)
Lemma Disconnect_Ok w a b ga gb :
  a ≠ b →
  points w !! a = Some ga →
  points w !! b = Some gb →
  NoDup (elems (Connections ga)) →
  NoDup (elems (Connections gb)) →
  ∃ spa spb,
    Disconnect w (Some a) (Some b)
    = Ok (mkWorld (<[b := del_link gb (Some a) spb]>
                     (<[a := del_link ga (Some b) spa]> (points w)))
                  (grids w)).
Proof.
  intros Hab Ha Hb Hnda Hndb.
  destruct (Disconnect_loop_NoDup w a ga b Ha Hnda) as [spa Hloopa].
  set (w1 := store w (Some a) (del_link ga (Some b) spa)).
  assert (points w1 !! b = Some gb) as Hb1.
  { unfold w1. cbn [store points]. by rewrite lookup_insert_ne. }
  destruct (Disconnect_loop_NoDup w1 b gb a Hb1 Hndb) as [spb Hloopb].
  exists spa, spb. unfold Disconnect. rewrite decide_False by congruence.
  cbn [deref]. rewrite Ha. cbn [mbind outcome_bind].
  rewrite Hloopa. cbn [mbind outcome_bind]. fold (del_link ga (Some b) spa). fold w1.
  cbn [deref]. rewrite Hb1. cbn [mbind outcome_bind].
  by rewrite Hloopb.
Qed.

(** Without an edge between them, [Disconnect] changes nothing at all. *)
Lemma Disconnect_no_edge w a b ga gb :
  points w !! a = Some ga →
  points w !! b = Some gb →
  Some b ∉ elems (Connections ga) →
  Some a ∉ elems (Connections gb) →
  Disconnect w (Some a) (Some b) = Ok w.
Proof.
  intros Ha Hb Hna Hnb. unfold Disconnect. case_decide; [done|].
  cbn [deref]. rewrite Ha. cbn [mbind outcome_bind].
  rewrite (Disconnect_loop_skip _ a _ 0 w _ Ha); cycle 1.
  { intros j Hj. unfold array. rewrite lookup_app_l by lia.
    destruct (lookup_lt_is_Some_2 (elems (Connections ga)) j) as [c Hc]; [lia|].
    exists c. split; [done|]. intros ->. apply Hna. by eapply list_elem_of_lookup_2. }
  cbn [mbind outcome_bind deref]. rewrite Hb. cbn [mbind outcome_bind].
  apply (Disconnect_loop_skip _ b _ 0 w _ Hb).
  intros j Hj. unfold array. rewrite lookup_app_l by lia.
  destruct (lookup_lt_is_Some_2 (elems (Connections gb)) j) as [c Hc]; [lia|].
  exists c. split; [done|]. intros ->. apply Hnb. by eapply list_elem_of_lookup_2.
Qed.

(** ** The invariants of the connections *)

(** The Connections of the point at [a], as the program sees them. *)
Definition links w a : list ptr :=
  match points w !! a with
  | Some gp => elems (Connections gp)
  | None => []
  end.

(** No point lists a connection twice; every connection is a point of the
    store other than the point itself; and when [a] lists [b], [b] lists [a]. *)
Record consistent w : Prop := {
  links_NoDup : ∀ a, NoDup (links w a);
  links_closed : ∀ a c,
    c ∈ links w a → ∃ b, c = Some b ∧ b ≠ a ∧ is_Some (points w !! b);
  links_symmetric : ∀ a b, Some b ∈ links w a → Some a ∈ links w b;
}.

(** The stores that calls of [Connect] and [Disconnect] on their points make
    of a store whose points have no connections yet. *)
Inductive built : World → Prop :=
  | built_unconnected w :
      map_Forall (λ _ gp, elems (Connections gp) = []) (points w) → built w
  | built_Connect w a b w' :
      built w → is_Some (points w !! a) → is_Some (points w !! b) →
      Connect w (Some a) (Some b) = Ok w' → built w'
  | built_Disconnect w a b w' :
      built w → is_Some (points w !! a) → is_Some (points w !! b) →
      Disconnect w (Some a) (Some b) = Ok w' → built w'.

Lemma IsConnected_links w a b :
  is_Some (points w !! a) →
  IsConnected w (Some a) (Some b) = Ok (bool_decide (Some b ∈ links w a)).
Proof.
  intros [gp Ha]. unfold IsConnected, links. cbn [deref]. rewrite Ha.
  cbn [mbind outcome_bind]. f_equal.
  destruct (contains _ _) eqn:E.
  - by rewrite bool_decide_eq_true_2 by by apply contains_elem_of.
  - by rewrite bool_decide_eq_false_2 by by apply contains_false.
Qed.

Lemma elem_of_add_link gp other c :
  c ∈ elems (Connections (add_link gp other))
  ↔ c ∈ elems (Connections gp) ∨ c = other.
Proof.
  rewrite elems_add_link.
  destruct (contains (elems (Connections gp)) other) eqn:E.
  - apply contains_elem_of in E. split; [by left|]. by intros [?| ->].
  - rewrite elem_of_app, list_elem_of_singleton. done.
Qed.

Lemma NoDup_add_link gp other :
  NoDup (elems (Connections gp)) → NoDup (elems (Connections (add_link gp other))).
Proof.
  intros Hnd. rewrite elems_add_link.
  destruct (contains (elems (Connections gp)) other) eqn:E; [done|].
  apply contains_false in E. apply NoDup_app. split_and!; [done| |apply NoDup_singleton].
  intros x Hx ->%list_elem_of_singleton. done.
Qed.

Lemma elem_of_del_link gp other sp c :
  c ∈ elems (Connections (del_link gp other sp))
  ↔ c ∈ elems (Connections gp) ∧ c ≠ other.
Proof. cbn. rewrite list_elem_of_filter. tauto. Qed.

Lemma NoDup_del_link gp other sp :
  NoDup (elems (Connections gp)) → NoDup (elems (Connections (del_link gp other sp))).
Proof. cbn. apply NoDup_filter. Qed.

(** The store after a change of the Connections of [a] and of [b] only. *)
Lemma links_two_inserts w a b ga gb x :
  a ≠ b →
  links (mkWorld (<[b := gb]> (<[a := ga]> (points w))) (grids w)) x
  = if decide (x = b) then elems (Connections gb)
    else if decide (x = a) then elems (Connections ga)
    else links w x.
Proof.
  intros Hab. unfold links. cbn [points].
  destruct (decide (x = b)) as [->|Hxb].
  - by rewrite lookup_insert_eq.
  - rewrite lookup_insert_ne by done.
    destruct (decide (x = a)) as [->|Hxa].
    + by rewrite lookup_insert_eq.
    + by rewrite lookup_insert_ne.
Qed.

Lemma is_Some_two_inserts w a b ga gb ga' gb' x :
  points w !! a = Some ga →
  points w !! b = Some gb →
  is_Some (points (mkWorld (<[b := gb']> (<[a := ga']> (points w))) (grids w)) !! x)
  ↔ is_Some (points w !! x).
Proof.
  intros Ha Hb. cbn [points]. rewrite !lookup_insert_is_Some.
  split.
  - intros [->|[_ [->|[_ ?]]]]; eauto.
  - intros ?. destruct (decide (b = x)); [by left|right].
    split; [done|]. destruct (decide (a = x)); [by left|by right].
Qed.

(** [Connect] adds the two entries of the edge and nothing else. *)
Lemma Connect_links w a b :
  a ≠ b →
  is_Some (points w !! a) →
  is_Some (points w !! b) →
  ∃ w', Connect w (Some a) (Some b) = Ok w'
        ∧ (∀ x, is_Some (points w' !! x) ↔ is_Some (points w !! x))
        ∧ (∀ x, NoDup (links w x) → NoDup (links w' x))
        ∧ (∀ x c, c ∈ links w' x
                  ↔ c ∈ links w x ∨ (x = a ∧ c = Some b) ∨ (x = b ∧ c = Some a)).
Proof.
  intros Hab [ga Ha] [gb Hb]. eexists. split; [by apply Connect_Ok|].
  split_and!.
  - intros x. by eapply is_Some_two_inserts.
  - intros x. rewrite links_two_inserts by done. unfold links.
    repeat case_decide; subst; [rewrite Hb|rewrite Ha|done]; apply NoDup_add_link.
  - intros x c. rewrite links_two_inserts by done. unfold links.
    repeat case_decide; subst.
    + rewrite Hb, elem_of_add_link. intuition congruence.
    + rewrite Ha, elem_of_add_link. intuition congruence.
    + intuition congruence.
Qed.

(** [Disconnect] removes the two entries of the edge and nothing else. *)
Lemma Disconnect_links w a b :
  a ≠ b →
  is_Some (points w !! a) →
  is_Some (points w !! b) →
  NoDup (links w a) →
  NoDup (links w b) →
  ∃ w', Disconnect w (Some a) (Some b) = Ok w'
        ∧ (∀ x, is_Some (points w' !! x) ↔ is_Some (points w !! x))
        ∧ (∀ x, NoDup (links w x) → NoDup (links w' x))
        ∧ (∀ x c, c ∈ links w' x
                  ↔ c ∈ links w x ∧ ¬ (x = a ∧ c = Some b) ∧ ¬ (x = b ∧ c = Some a)).
Proof.
  intros Hab [ga Ha] [gb Hb]. unfold links at 1 2. rewrite Ha, Hb. intros Hnda Hndb.
  destruct (Disconnect_Ok w a b ga gb Hab Ha Hb Hnda Hndb) as (spa & spb & Hd).
  eexists. split; [exact Hd|]. split_and!.
  - intros x. by eapply is_Some_two_inserts.
  - intros x. rewrite links_two_inserts by done. unfold links.
    repeat case_decide; subst; [rewrite Hb|rewrite Ha|done]; apply NoDup_del_link.
  - intros x c. rewrite links_two_inserts by done. unfold links.
    repeat case_decide; subst.
    + rewrite Hb, elem_of_del_link. intuition congruence.
    + rewrite Ha, elem_of_del_link. intuition congruence.
    + intuition congruence.
Qed.

Lemma Connect_consistent w a b :
  a ≠ b →
  is_Some (points w !! a) →
  is_Some (points w !! b) →
  consistent w →
  ∃ w', Connect w (Some a) (Some b) = Ok w' ∧ consistent w'
        ∧ Some b ∈ links w' a ∧ Some a ∈ links w' b.
Proof.
  intros Hab Ha Hb [Hnd Hcl Hsym].
  destruct (Connect_links w a b Hab Ha Hb) as (w' & HC & Hdom & Hnd' & Hin).
  exists w'. split; [done|]. split_and!.
  - split.
    + intros x. apply Hnd', Hnd.
    + intros x c [Hold|[[-> ->]|[-> ->]]]%Hin.
      * destruct (Hcl x c Hold) as (y & -> & ? & ?). exists y. by rewrite Hdom.
      * exists b. by rewrite Hdom.
      * exists a. by rewrite Hdom.
    + intros x y [Hold|[[-> [= ->]]|[-> [= ->]]]]%Hin; apply Hin; auto.
  - apply Hin. auto.
  - apply Hin. auto.
Qed.

Lemma Disconnect_consistent w a b :
  a ≠ b →
  is_Some (points w !! a) →
  is_Some (points w !! b) →
  consistent w →
  ∃ w', Disconnect w (Some a) (Some b) = Ok w' ∧ consistent w'
        ∧ (Some b ∉ links w' a) ∧ (Some a ∉ links w' b).
Proof.
  intros Hab Ha Hb [Hnd Hcl Hsym].
  destruct (Disconnect_links w a b Hab Ha Hb (Hnd a) (Hnd b))
    as (w' & HD & Hdom & Hnd' & Hin).
  exists w'. split; [done|]. split_and!.
  - split.
    + intros x. apply Hnd', Hnd.
    + intros x c [Hold _]%Hin.
      destruct (Hcl x c Hold) as (y & -> & ? & ?). exists y. by rewrite Hdom.
    + intros x y (Hold & Hna & Hnb)%Hin. apply Hin. split_and!.
      * by apply Hsym.
      * intros [-> [= ->]]. by apply Hnb.
      * intros [-> [= ->]]. by apply Hna.
  - intros (_ & Hna & _)%Hin. by apply Hna.
  - intros (_ & _ & Hnb)%Hin. by apply Hnb.
Qed.

(** Points that were never connected form a consistent store. *)
Lemma consistent_no_links w :
  map_Forall (λ _ gp, elems (Connections gp) = []) (points w) → consistent w.
Proof.
  intros Hall.
  assert (∀ a, links w a = []) as Hnil.
  { intros a. unfold links. destruct (points w !! a) as [gp|] eqn:E; [|done].
    by apply (Hall a gp). }
  split.
  - intros a. rewrite Hnil. apply NoDup_nil_2.
  - intros a c. rewrite Hnil. by intros ?%elem_of_nil.
  - intros a b. rewrite Hnil. by intros ?%elem_of_nil.
Qed.

(** Whatever calls of [Connect] and [Disconnect] built the store, it is
    consistent: at no point does [a] list [b] without [b] listing [a]. *)
Lemma built_consistent w : built w → consistent w.
Proof.
  induction 1 as [w Hnil|w a b w' _ IH Ha Hb HC|w a b w' _ IH Ha Hb HD].
  - by apply consistent_no_links.
  - destruct (decide (a = b)) as [->|Hab].
    + unfold Connect in HC. rewrite decide_True in HC by done. by injection HC as <-.
    + destruct (Connect_consistent w a b Hab Ha Hb IH) as (w'' & HC' & Hcons & _).
      rewrite HC in HC'. by injection HC' as ->.
  - destruct (decide (a = b)) as [->|Hab].
    + unfold Disconnect in HD. rewrite decide_True in HD by done. by injection HD as <-.
    + destruct (Disconnect_consistent w a b Hab Ha Hb IH) as (w'' & HD' & Hcons & _).
      rewrite HD in HD'. by injection HD' as ->.
Qed.


(** C7. For all points [a] and [b] of the store, none of these calls panics:
    a second [a.Connect(b)] leaves the store exactly as the first left it, and
    the first adds no duplicate to any Connections; [a.Disconnect(b)] when
    neither lists the other leaves the store as it was; so do [a.Connect(a)]
    and [a.Disconnect(a)]. *)
Theorem Connect_Disconnect_idempotent w a b :
  is_Some (points w !! a) →
  is_Some (points w !! b) →
  (∃ w', Connect w (Some a) (Some b) = Ok w'
         ∧ Connect w' (Some a) (Some b) = Ok w'
         ∧ (∀ x, NoDup (links w x) → NoDup (links w' x)))
  ∧ (IsConnected w (Some a) (Some b) = Ok false →
     IsConnected w (Some b) (Some a) = Ok false →
     Disconnect w (Some a) (Some b) = Ok w)
  ∧ Connect w (Some a) (Some a) = Ok w
  ∧ Disconnect w (Some a) (Some a) = Ok w.
Proof.
  intros Ha Hb. split_and!.
  - destruct (decide (a = b)) as [->|Hab].
    + exists w. unfold Connect. by rewrite decide_True by done.
    + destruct Ha as [ga Hga], Hb as [gb Hgb].
      eexists. split; [by apply Connect_Ok|]. split.
      * unfold Connect, IsConnected. rewrite decide_False by congruence.
        cbn [deref points].
        rewrite lookup_insert_ne, lookup_insert_eq by done.
        cbn [mbind outcome_bind]. rewrite contains_add_link.
        cbn [mbind outcome_bind deref points]. rewrite lookup_insert_eq.
        cbn [mbind outcome_bind]. by rewrite contains_add_link.
      * intros x. rewrite links_two_inserts by done. unfold links.
        repeat case_decide; subst; [rewrite Hgb|rewrite Hga|done]; apply NoDup_add_link.
  - rewrite !IsConnected_links by done. intros [= Hab%bool_decide_eq_false] [= Hba%bool_decide_eq_false].
    destruct Ha as [ga Hga], Hb as [gb Hgb]. unfold links in Hab, Hba.
    rewrite Hga in Hab. rewrite Hgb in Hba. by eapply Disconnect_no_edge.
  - unfold Connect. by rewrite decide_True by done.
  - unfold Disconnect. by rewrite decide_True by done.
Qed.

(** ** The search loop of PathTo *)

(** The [prevLink] of a point, [Panic] where the pointer cannot be read. *)
Definition prevLink_of w p : outcome ptr := gp ← deref w p; Ok (prevLink gp).

Lemma deref_store_eq w p gp gp' : deref w p = Ok gp → deref (store w p gp') p = Ok gp'.
Proof. intros (a & -> & _)%deref_Some. cbn. by rewrite lookup_insert_eq. Qed.

Lemma deref_store_ne w p q gp : p ≠ q → deref (store w p gp) q = deref w q.
Proof.
  intros Hpq. destruct p as [a|], q as [b|]; cbn; try done.
  by rewrite lookup_insert_ne by congruence.
Qed.

Lemma prevLink_of_store w p q gp pl :
  deref w p = Ok gp →
  prevLink_of (store w p (set_prevLink gp pl)) q
  = if decide (q = p) then Ok pl else prevLink_of w q.
Proof.
  intros Hp. unfold prevLink_of. case_decide as Hq.
  - subst q. by rewrite (deref_store_eq w p gp).
  - by rewrite deref_store_ne.
Qed.

(** The loop over the connections of the dequeued node: the queue grows by the
    connections that are not marked, in order; each of them has the dequeued
    node as [prevLink] afterwards, and no other [prevLink] changes. *)
Lemma expand_spec next checked cs : ∀ w toCheck w' toCheck',
  expand w next cs toCheck checked = Ok (w', toCheck') →
  toCheck' = toCheck ++ filter (λ c, checked !! c = None) cs
  ∧ ∀ c, prevLink_of w' c
         = if decide (c ∈ cs ∧ checked !! c = None) then Ok next else prevLink_of w c.
Proof.
  induction cs as [|c cs IH]; intros w toCheck w' toCheck'; cbn [expand].
  - intros [= <- <-]. split; [by rewrite app_nil_r|].
    intros c. rewrite decide_False; [done|]. by intros [?%elem_of_nil _].
  - destruct (checked !! c) as [v|] eqn:Hc.
    + intros [-> Hprev]%IH. split.
      * by rewrite filter_cons_False by (by rewrite Hc).
      * intros c'. rewrite Hprev. apply decide_ext. rewrite elem_of_cons.
        split; [tauto|]. intros [[->|?] Hn]; [congruence|done].
    + destruct (deref w c) as [gc| |] eqn:Hgc; cbn [mbind outcome_bind]; [|done..].
      intros [-> Hprev]%IH. split.
      * rewrite filter_cons_True by done. by rewrite <- (assoc_L (++)).
      * intros c'. rewrite Hprev, (prevLink_of_store w c c' gc next Hgc).
        destruct (decide (c' = c)) as [->|Hne].
        -- rewrite (decide_True (P := c ∈ c :: cs ∧ _)) by (split; [left|done]).
           by case_decide.
        -- apply decide_ext. rewrite elem_of_cons. tauto.
Qed.

(** C5, as the loop is written. The exit test comes before the dequeue, so the
    search stops at the first test after the source was dequeued: when the
    source is at the head of the queue, the loop runs exactly one more body,
    which dequeues the source, marks it, gives every connection of the source
    that is not marked the source as [prevLink] and appends it to the queue;
    the next test then ends the loop and nothing else is dequeued. *)
Theorem search_stops_after_source fuel w point next toCheck checked gp w' toCheck' :
  next ≠ point →
  deref w point = Ok gp →
  expand w point (elems (Connections gp)) toCheck (<[point := true]> checked)
    = Ok (w', toCheck') →
  search (S (S fuel)) point (w, next, point :: toCheck, checked)
    = Ok (w', point, toCheck', <[point := true]> checked)
  ∧ toCheck' = toCheck ++ filter (λ c, <[point := true]> checked !! c = None)
                                 (elems (Connections gp))
  ∧ ∀ c, c ∈ elems (Connections gp) →
         <[point := true]> checked !! c = None →
         prevLink_of w' c = Ok point.
Proof.
  intros Hne Hgp Hexp. split.
  - cbn [search search_body fst snd]. rewrite decide_False by done.
    rewrite Hgp. cbn [mbind outcome_bind]. rewrite Hexp. cbn [mbind outcome_bind fst snd].
    by rewrite decide_True.
  - apply expand_spec in Hexp as [-> Hprev]. split; [done|].
    intros c Hc Hn. rewrite Hprev. by rewrite decide_True.
Qed.

(** ** The search when the source cannot be reached *)

(** [a] lists [b]. *)
Definition link w a b : Prop := Some b ∈ links w a.

(** The points of the store and their Connections: what the search reads and
    never writes. *)
Definition same_links w w' : Prop :=
  ∀ a, (λ gp, elems (Connections gp)) <$> points w' !! a
       = (λ gp, elems (Connections gp)) <$> points w !! a.

Lemma same_links_refl w : same_links w w.
Proof. done. Qed.

Lemma same_links_links w w' a : same_links w w' → links w' a = links w a.
Proof.
  intros H. specialize (H a). unfold links.
  destruct (points w' !! a), (points w !! a); simplify_eq/=; done.
Qed.

Lemma same_links_is_Some w w' a :
  same_links w w' → is_Some (points w !! a) → is_Some (points w' !! a).
Proof.
  intros H [gp Ha]. specialize (H a). rewrite Ha in H.
  destruct (points w' !! a); [done|discriminate].
Qed.

Lemma same_links_store w0 w p gp pl :
  same_links w0 w → deref w p = Ok gp → same_links w0 (store w p (set_prevLink gp pl)).
Proof.
  intros H (a & -> & Ha)%deref_Some b. rewrite <- (H b). cbn [store points].
  destruct (decide (a = b)) as [->|Hne].
  - by rewrite lookup_insert_eq, Ha.
  - by rewrite lookup_insert_ne.
Qed.

(** On connections that are points of the store the loop over them does not
    panic, and it leaves the Connections as they are. *)
Lemma expand_Ok w0 next checked cs : ∀ w (toCheck : list ptr),
  same_links w0 w →
  Forall (λ c, ∃ b, c = Some b ∧ is_Some (points w0 !! b)) cs →
  ∃ w', expand w next cs toCheck checked
        = Ok (w', toCheck ++ filter (λ c, checked !! c = None) cs)
        ∧ same_links w0 w'.
Proof.
  induction cs as [|c cs IH]; intros w q Hsame Hcs; cbn [expand].
  - exists w. by rewrite filter_nil, app_nil_r.
  - apply Forall_cons in Hcs as [(b & -> & Hb) Hcs].
    destruct (checked !! Some b) as [v|] eqn:Hc.
    + rewrite filter_cons_False by (by rewrite Hc). by apply IH.
    + rewrite filter_cons_True by done.
      destruct (same_links_is_Some w0 w b Hsame Hb) as [gc Hgc].
      cbn [deref]. rewrite Hgc. cbn [mbind outcome_bind].
      destruct (IH (store w (Some b) (set_prevLink gc next)) (q ++ [Some b]))
        as (w' & -> & Hsame'); [|done|].
      * apply same_links_store; [done|]. by apply deref_lookup.
      * exists w'. by rewrite <- (assoc_L (++)).
Qed.

(** *** A measure that every body of the loop decreases

    A node is marked when it is dequeued, so it may be in the queue several
    times, and a node dequeued again enqueues again its unmarked connections:
    the queue can grow while no new node is marked.  Every entry of the queue
    gets a weight that depends on the number of unmarked points, larger for an
    entry of a marked node than for one of an unmarked node, and such that an
    entry outweighs all the entries ([E] at most) its dequeue appends. *)
Fixpoint weight (E k : nat) : nat :=
  match k with
  | 0 => 1
  | S k => (E + 1) * weight E k + 1
  end.

Definition unmarked (U : list loc) (checked : gmap ptr bool) : nat :=
  length (filter (λ a, checked !! Some a = None) U).

Definition entry_weight (E : nat) (U : list loc) (checked : gmap ptr bool) (x : ptr) : nat :=
  match checked !! x with
  | Some _ => weight E (2 * unmarked U checked + 1)
  | None => weight E (2 * unmarked U checked)
  end.

Definition queue_weight (E : nat) (U : list loc) (checked : gmap ptr bool)
    (toCheck : list ptr) : nat :=
  sum_list_with (entry_weight E U checked) toCheck.

Lemma weight_S E k : E * weight E k < weight E (S k).
Proof. cbn [weight]. lia. Qed.

Lemma weight_mono E k k' : k ≤ k' → weight E k ≤ weight E k'.
Proof. induction 1 as [|k' _ IH]; [done|]. cbn [weight]. lia. Qed.

Lemma filter_length_le {A} (P Q : A → Prop) `{!∀ x, Decision (P x)} `{!∀ x, Decision (Q x)}
    (l : list A) :
  (∀ x, Q x → P x) → length (filter Q l) ≤ length (filter P l).
Proof.
  intros HQP. induction l as [|x l IH]; [done|].
  rewrite !filter_cons. destruct (decide (Q x)) as [HQ|HQ].
  - rewrite decide_True by auto. simpl. lia.
  - destruct (decide (P x)); simpl; lia.
Qed.

Lemma filter_length_lt {A} (P Q : A → Prop) `{!∀ x, Decision (P x)} `{!∀ x, Decision (Q x)}
    (l : list A) x0 :
  (∀ x, Q x → P x) → x0 ∈ l → P x0 → ¬ Q x0 →
  length (filter Q l) < length (filter P l).
Proof.
  intros HQP Hin HP HQ. induction l as [|x l IH]; [by apply elem_of_nil in Hin|].
  rewrite !filter_cons. apply elem_of_cons in Hin as [<-|Hin].
  - rewrite decide_False, decide_True by done. simpl.
    pose proof (filter_length_le P Q l HQP). lia.
  - specialize (IH Hin). destruct (decide (Q x)) as [HQx|HQx].
    + rewrite decide_True by auto. simpl. lia.
    + destruct (decide (P x)); simpl; lia.
Qed.

Lemma unmarked_insert_le U checked v :
  unmarked U (<[v := true]> checked) ≤ unmarked U checked.
Proof.
  apply filter_length_le. intros a. rewrite lookup_insert_None. tauto.
Qed.

Lemma unmarked_insert_lt U checked a :
  a ∈ U → checked !! Some a = None →
  unmarked U (<[Some a := true]> checked) < unmarked U checked.
Proof.
  intros Ha Hc. apply (filter_length_lt _ _ U a); [|done..|].
  - intros b. rewrite lookup_insert_None. tauto.
  - by rewrite lookup_insert_eq.
Qed.

Lemma entry_weight_insert_le E U checked a x :
  a ∈ U →
  entry_weight E U (<[Some a := true]> checked) x ≤ entry_weight E U checked x.
Proof.
  intros Ha. unfold entry_weight.
  pose proof (unmarked_insert_le U checked (Some a)) as Hle.
  destruct (decide (x = Some a)) as [->|Hne].
  - rewrite lookup_insert_eq. destruct (checked !! Some a) eqn:Hc.
    + apply weight_mono. lia.
    + pose proof (unmarked_insert_lt U checked a Ha Hc). apply weight_mono. lia.
  - rewrite lookup_insert_ne by done.
    destruct (checked !! x); apply weight_mono; lia.
Qed.

Lemma queue_weight_insert_le E U checked a (toCheck : list ptr) :
  a ∈ U →
  queue_weight E U (<[Some a := true]> checked) toCheck ≤ queue_weight E U checked toCheck.
Proof.
  intros Ha. unfold queue_weight. induction toCheck as [|x l IH]; [done|].
  cbn [sum_list_with]. pose proof (entry_weight_insert_le E U checked a x Ha). lia.
Qed.

Lemma queue_weight_unmarked E U checked (new : list ptr) :
  Forall (λ c, checked !! c = None) new →
  queue_weight E U checked new = length new * weight E (2 * unmarked U checked).
Proof.
  unfold queue_weight. induction 1 as [|c l Hc _ IH]; [done|].
  cbn [sum_list_with length]. rewrite IH. unfold entry_weight. rewrite Hc. lia.
Qed.

(** The body that dequeues [a] and appends at most [E] unmarked entries
    decreases the weight of the queue. *)
Lemma queue_weight_step E U checked a (toCheck new : list ptr) :
  a ∈ U →
  length new ≤ E →
  Forall (λ c, <[Some a := true]> checked !! c = None) new →
  queue_weight E U (<[Some a := true]> checked) (toCheck ++ new)
  < queue_weight E U checked (Some a :: toCheck).
Proof.
  intros Ha Hlen Hnew.
  unfold queue_weight at 1. rewrite sum_list_with_app.
  fold (queue_weight E U (<[Some a := true]> checked) toCheck).
  fold (queue_weight E U (<[Some a := true]> checked) new).
  rewrite (queue_weight_unmarked _ _ _ new Hnew).
  pose proof (queue_weight_insert_le E U checked a toCheck Ha) as Hq.
  unfold queue_weight at 2. cbn [sum_list_with]. fold (queue_weight E U checked toCheck).
  set (u' := unmarked U (<[Some a := true]> checked)) in *.
  set (u := unmarked U checked) in *.
  assert (length new * weight E (2 * u') ≤ E * weight E (2 * u')) as Hprod
    by (apply Nat.mul_le_mono_r; lia).
  pose proof (weight_S E (2 * u')) as HS.
  assert (weight E (S (2 * u')) ≤ entry_weight E U checked (Some a)) as Hv.
  { unfold entry_weight. fold u. destruct (checked !! Some a) eqn:Hc.
    - pose proof (unmarked_insert_le U checked (Some a)). apply weight_mono. lia.
    - pose proof (unmarked_insert_lt U checked a Ha Hc). apply weight_mono. lia. }
  lia.
Qed.

(** From a state whose queue holds only points reachable from the
    destination [d], with the source [s] not among them, the loop never meets
    its exit test and ends by reading the head of an empty queue. *)
Lemma search_unreachable E U w0 s d :
  (∀ a, is_Some (points w0 !! a) → a ∈ U) →
  (∀ a, length (links w0 a) ≤ E) →
  (∀ a c, c ∈ links w0 a → ∃ b, c = Some b ∧ is_Some (points w0 !! b)) →
  ¬ rtc (link w0) d s →
  ∀ n w next (toCheck : list ptr) checked,
    same_links w0 w →
    next ≠ Some s →
    Forall (λ x, ∃ a, x = Some a ∧ is_Some (points w0 !! a) ∧ rtc (link w0) d a) toCheck →
    queue_weight E U checked toCheck < n →
    search n (Some s) (w, next, toCheck, checked) = Panic IndexOutOfRange.
Proof.
  intros HU HE Hclosed Hunreach.
  induction n as [|n IH]; intros w next toCheck checked Hsame Hnext Hq Hweight; [lia|].
  cbn [search fst snd]. rewrite decide_False by done.
  destruct toCheck as [|v toCheck]; [done|].
  apply Forall_cons in Hq as [(a & -> & Ha & Hreach) Hq].
  cbn [search_body].
  destruct (same_links_is_Some w0 w a Hsame Ha) as [gn Hgn].
  cbn [deref]. rewrite Hgn. cbn [mbind outcome_bind].
  assert (elems (Connections gn) = links w0 a) as Hcs.
  { rewrite <- (same_links_links w0 w a Hsame). unfold links. by rewrite Hgn. }
  rewrite Hcs.
  destruct (expand_Ok w0 (Some a) (<[Some a := true]> checked) (links w0 a) w toCheck Hsame)
    as (w' & -> & Hsame').
  { apply Forall_forall. intros c Hc. by apply (Hclosed a). }
  cbn [mbind outcome_bind]. apply IH; [done| | |].
  - intros [= ->]. done.
  - apply Forall_app. split; [done|].
    apply Forall_forall. intros c [_ Hc]%list_elem_of_filter.
    destruct (Hclosed a c Hc) as (b & -> & Hb). exists b. split_and!; [done..|].
    by eapply rtc_r.
  - eapply Nat.lt_le_trans; [apply queue_weight_step|lia].
    + by apply HU.
    + etrans; [apply length_filter|apply HE].
    + apply Forall_forall. by intros c [? _]%list_elem_of_filter.
Qed.

(** A set of points that is closed under the connections holds everything
    that can be reached from one of its points. *)
Lemma closed_set_unreachable w (S : list loc) d s :
  d ∈ S →
  s ∉ S →
  Forall (λ a, Forall (λ c, c ∈ Some <$> S) (links w a)) S →
  ¬ rtc (link w) d s.
Proof.
  intros Hd Hs Hclosed Hrtc. apply Hs. clear Hs.
  induction Hrtc as [|a b c Hab _ IH]; [done|]. apply IH.
  rewrite Forall_forall in Hclosed. specialize (Hclosed a Hd).
  rewrite Forall_forall in Hclosed. specialize (Hclosed (Some b) Hab).
  by apply (list_elem_of_fmap_inj_2 Some) in Hclosed.
Qed.

(** C1, what the code does, in general. In a consistent store, when source
    and destination are distinct points with the same parent and no chain of
    connections leads from the destination to the source, [PathTo] panics with
    an index out of range: the search dequeues every point it can reach, never
    meets the source, and reads the head of the empty queue.  A loop budget
    [n] is enough for that, and so is any larger one. *)
Theorem PathTo_unreachable w s d :
  consistent w →
  IsOnSameGrid w (Some s) (Some d) = Ok true →
  ¬ rtc (link w) d s →
  ∃ n, ∀ fuel, n ≤ fuel → PathTo fuel w (Some s) (Some d) = Panic IndexOutOfRange.
Proof.
  intros Hcons Hsame Hunreach.
  assert (s ≠ d) as Hsd by (intros ->; by apply Hunreach).
  unfold IsOnSameGrid in Hsame.
  destruct (deref w (Some s)) as [gs| |] eqn:Hs; [|done..].
  destruct (deref w (Some d)) as [gd| |] eqn:Hd; [|done..].
  cbn [mbind outcome_bind] in Hsame.
  set (U := (map_to_list (points w)).*1).
  set (E := sum_list_with (λ x : loc * GridPoint, length (elems (Connections x.2)))
              (map_to_list (points w))).
  exists (S (queue_weight E U ∅ [Some d])). intros fuel Hfuel.
  unfold PathTo, IsOnSameGrid. rewrite Hs, Hd. cbn [mbind outcome_bind].
  injection Hsame as ->. cbn [negb]. rewrite decide_False by congruence.
  rewrite deref_store_ne, Hs by congruence. cbn [mbind outcome_bind].
  rewrite (search_unreachable E U w s d); [done|..].
  - intros a [gp Ha]. apply (list_elem_of_fmap_2 fst _ (a, gp)).
    by apply elem_of_map_to_list.
  - intros a. unfold links. destruct (points w !! a) as [gp|] eqn:Ha; [|simpl; lia].
    apply (sum_list_with_in (a, gp)
             (λ x : loc * GridPoint, length (elems (Connections x.2)))).
    by apply elem_of_map_to_list.
  - intros a c Hc. destruct (links_closed w Hcons a c Hc) as (b & -> & _ & Hb). eauto.
  - done.
  - apply same_links_store; [|by rewrite deref_store_ne by congruence].
    by apply same_links_store; [apply same_links_refl|].
  - done.
  - apply Forall_singleton. exists d. split_and!; [done| |done].
    apply deref_Some in Hd as (d' & [= <-] & Hd). by eexists.
  - lia.
Qed.

(** ** Checking consistency by computation *)

(** One entry [c] of the Connections of [a] is in order. *)
Definition link_ok (w : World) (a : loc) (c : ptr) : bool :=
  match c with
  | Some b => bool_decide (b ≠ a) && bool_decide (Some a ∈ links w b)
  | None => false
  end.

Definition point_ok (w : World) (a : loc) (gp : GridPoint) : bool :=
  bool_decide (NoDup (elems (Connections gp)))
  && forallb (link_ok w a) (elems (Connections gp)).

Definition consistentb (w : World) : bool :=
  forallb (λ '(a, gp), point_ok w a gp) (map_to_list (points w)).

Lemma consistentb_point w a gp :
  consistentb w = true → points w !! a = Some gp → point_ok w a gp = true.
Proof.
  unfold consistentb. rewrite forallb_forall. intros Hall Ha.
  apply (Hall (a, gp)). by apply list_elem_of_In, elem_of_map_to_list.
Qed.

Lemma consistentb_sound w : consistentb w = true → consistent w.
Proof.
  intros Hb.
  assert (∀ a c, c ∈ links w a →
            NoDup (links w a) ∧ ∃ b, c = Some b ∧ b ≠ a ∧ Some a ∈ links w b) as Hok.
  { intros a c. unfold links at 1 2. destruct (points w !! a) as [gp|] eqn:Ha.
    - pose proof (consistentb_point w a gp Hb Ha) as [Hnd Hall]%andb_prop.
      intros Hc. split; [by apply bool_decide_eq_true in Hnd|].
      rewrite forallb_forall in Hall. apply list_elem_of_In, Hall in Hc.
      destruct c as [b|]; [|done]. apply andb_prop in Hc as [?%bool_decide_eq_true ?%bool_decide_eq_true].
      by exists b.
    - by intros ?%elem_of_nil. }
  split.
  - intros a. destruct (links w a) as [|c l] eqn:E; [apply NoDup_nil_2|].
    rewrite <- E. apply (Hok a c). rewrite E. left.
  - intros a c (_ & b & -> & Hne & Hin)%Hok. exists b. split_and!; [done..|].
    unfold links in Hin. destruct (points w !! b); [done|]. by apply elem_of_nil in Hin.
  - intros a b (_ & b' & [= <-] & _ & Hin)%Hok. done.
Qed.

(** ** Queries on a grid without points *)

(** C4, what the code does. On every grid without GridPoints,
    [NearestGridPoint] and [FurthestGridPoint] panic with an index out of
    range, [RandomPoint] panics in [rand.Intn], and [Center] returns the zero
    vector divided by zero; none reports an empty grid.  [FirstPoint] and
    [LastPoint], next to them, test the length and return nil. *)
Theorem empty_grid_queries (w : World) (grid : ptr) (position : Vector float64) (rnd : nat) :
  Points w grid = Ok [] →
  NearestGridPoint w grid position = Panic IndexOutOfRange
  ∧ FurthestGridPoint w grid position = Panic IndexOutOfRange
  ∧ RandomPoint rnd w grid = Panic InvalidArgument
  ∧ Center w grid
    = Ok (Divide (Vector.mk (float_of_Z 0) (float_of_Z 0) (float_of_Z 0) (float_of_Z 0))
                 (float_of_Z 0))
  ∧ FirstPoint w grid = Ok None
  ∧ LastPoint w grid = Ok None.
Proof.
  intros Hps.
  assert (sorted_Points w grid position = Ok []) as Hsorted.
  { unfold sorted_Points. rewrite Hps. cbn [mbind outcome_bind positioned].
    pose proof (sort_Slice_perm _ (nearer position) []) as Hperm.
    apply Permutation_nil_r in Hperm. by rewrite Hperm. }
  unfold NearestGridPoint, FurthestGridPoint, RandomPoint, Center, FirstPoint, LastPoint.
  rewrite Hsorted, Hps. done.
Qed.

(** * More of grid.go *)

(** ** What PathTo leaves alone *)

(** Two stores that differ at most in the [prevLink]s of their points. *)
Definition same_but_prevLink w w' : Prop :=
  grids w' = grids w
  ∧ ∀ a, (λ gp, set_prevLink gp None) <$> points w' !! a
         = (λ gp, set_prevLink gp None) <$> points w !! a.

Lemma same_but_prevLink_refl w : same_but_prevLink w w.
Proof. done. Qed.

Lemma same_but_prevLink_trans w1 w2 w3 :
  same_but_prevLink w1 w2 → same_but_prevLink w2 w3 → same_but_prevLink w1 w3.
Proof.
  intros [Hg1 H1] [Hg2 H2]. split; [congruence|]. intros a. by rewrite H2, H1.
Qed.

Lemma same_but_prevLink_store w p gp pl :
  deref w p = Ok gp → same_but_prevLink w (store w p (set_prevLink gp pl)).
Proof.
  intros (a & -> & Ha)%deref_Some. split; [done|]. intros b. cbn [store points].
  destruct (decide (a = b)) as [->|Hne].
  - by rewrite lookup_insert_eq, Ha.
  - by rewrite lookup_insert_ne.
Qed.

Lemma same_but_prevLink_deref w w' p gp :
  same_but_prevLink w w' → deref w p = Ok gp →
  ∃ gp', deref w' p = Ok gp'
         ∧ gp_Node gp' = gp_Node gp ∧ Connections gp' = Connections gp.
Proof.
  intros [_ H] (a & -> & Ha)%deref_Some. specialize (H a). rewrite Ha in H.
  cbn [deref]. destruct (points w' !! a) as [gp'|]; [|discriminate].
  exists gp'. injection H as H1 H2. done.
Qed.

Lemma same_but_prevLink_sym w w' : same_but_prevLink w w' → same_but_prevLink w' w.
Proof. intros [Hg H]. split; [done|]. intros a. by rewrite H. Qed.

Lemma same_but_prevLink_links w w' :
  same_but_prevLink w w' → same_links w w'.
Proof.
  intros [_ H] a. specialize (H a).
  destruct (points w' !! a) as [gp'|], (points w !! a) as [gp|]; try done.
  injection H as H1 H2. cbn. by rewrite H2.
Qed.

Lemma expand_frame next checked cs : ∀ w (toCheck : list ptr) w' toCheck',
  expand w next cs toCheck checked = Ok (w', toCheck') → same_but_prevLink w w'.
Proof.
  induction cs as [|c cs IH]; intros w toCheck w' toCheck'; cbn [expand].
  - by intros [= <- <-].
  - destruct (checked !! c); [by apply IH|].
    destruct (deref w c) as [gc| |] eqn:Hgc; cbn [mbind outcome_bind]; [|done..].
    intros Hrest%IH. eapply same_but_prevLink_trans; [|done].
    by apply same_but_prevLink_store.
Qed.

Lemma search_body_frame w next (toCheck : list ptr) checked w' next' toCheck' checked' :
  search_body (w, next, toCheck, checked) = Ok (w', next', toCheck', checked') →
  same_but_prevLink w w'.
Proof.
  cbn [search_body]. destruct toCheck as [|v toCheck]; [done|].
  destruct (deref w v) as [gn| |]; cbn [mbind outcome_bind]; [|done..].
  destruct (expand _ _ _ _ _) as [[w1 q1]| |] eqn:Hexp; cbn [mbind outcome_bind]; [|done..].
  intros [= <- _ _ _]. by eapply expand_frame.
Qed.

Lemma search_frame point n : ∀ w next (toCheck : list ptr) checked w' next' toCheck' checked',
  search n point (w, next, toCheck, checked) = Ok (w', next', toCheck', checked') →
  same_but_prevLink w w'.
Proof.
  induction n as [|n IH]; intros w next toCheck checked w' next' toCheck' checked';
    cbn [search fst snd]; [done|].
  case_decide; [by intros [= <- _ _ _]|].
  destruct (search_body _) as [[[[w1 n1] q1] c1]| |] eqn:Hbody; cbn [mbind outcome_bind]; [|done..].
  intros Hrest%IH. eapply same_but_prevLink_trans; [|done].
  by eapply search_body_frame.
Qed.

(** X2. Whenever [PathTo] returns, the store differs from the one it started on
    in [prevLink]s only; so every query that does not read [prevLink] answers
    as before. *)
Theorem PathTo_frame fuel w point other w' path :
  PathTo fuel w point other = Ok (w', path) →
  same_but_prevLink w w'
  ∧ (∀ x y, IsConnected w' x y = IsConnected w x y)
  ∧ (∀ x y, IsOnSameGrid w' x y = IsOnSameGrid w x y)
  ∧ (∀ x, WorldPosition w' x = WorldPosition w x)
  ∧ (∀ g, Points w' g = Points w g).
Proof.
  intros HP.
  assert (same_but_prevLink w w') as Hsame.
  { unfold PathTo in HP.
    destruct (IsOnSameGrid w point other) as [[]| |]; cbn [mbind outcome_bind negb] in HP;
      [|by injection HP as <- _|done..].
    case_decide.
    - destruct (WorldPosition w point); cbn [mbind outcome_bind] in HP; [|done..].
      by injection HP as <- _.
    - destruct (deref w other) as [go| |] eqn:Hgo; cbn [mbind outcome_bind] in HP; [|done..].
      destruct (deref (store w other _) point) as [gp| |] eqn:Hgp;
        cbn [mbind outcome_bind] in HP; [|done..].
      destruct (search _ _ _) as [[[[w1 n1] q1] c1]| |] eqn:Hsearch;
        cbn [mbind outcome_bind] in HP; [|done..].
      destruct (walk _ _ _ _); cbn [mbind outcome_bind] in HP; [|done..].
      destruct (WorldPosition w1 other); cbn [mbind outcome_bind] in HP; [|done..].
      injection HP as <- _.
      eapply same_but_prevLink_trans; [by apply same_but_prevLink_store|].
      eapply same_but_prevLink_trans; [by apply same_but_prevLink_store|].
      by eapply search_frame. }
  split; [done|].
  assert (∀ x, match deref w' x, deref w x with
               | Ok g', Ok g => gp_Node g' = gp_Node g ∧ Connections g' = Connections g
               | Panic e', Panic e => e' = e
               | _, _ => False
               end) as Hderef.
  { intros x. destruct (deref w x) as [g|e|] eqn:Hx.
    - destruct (same_but_prevLink_deref w w' x g Hsame Hx) as (g' & -> & ? & ?). done.
    - destruct (deref w' x) as [g'|e'|] eqn:Hx'.
      + destruct (same_but_prevLink_deref w' w x g' (same_but_prevLink_sym _ _ Hsame) Hx')
          as (g & Hg & _). congruence.
      + destruct x as [a|]; cbn in Hx, Hx'.
        * destruct (points w !! a), (points w' !! a); congruence.
        * congruence.
      + destruct x as [a|]; cbn in Hx'; [destruct (points w' !! a)|]; done.
    - destruct x as [a|]; cbn in Hx; [destruct (points w !! a)|]; done. }
  split_and!.
  - intros x y. unfold IsConnected. specialize (Hderef x).
    destruct (deref w' x), (deref w x); try done; cbn [mbind outcome_bind].
    + destruct Hderef as [_ ->]. done.
    + by subst.
  - intros x y. unfold IsOnSameGrid. pose proof (Hderef x) as Hx. pose proof (Hderef y) as Hy.
    destruct (deref w' x), (deref w x); try done; cbn [mbind outcome_bind]; [|by subst].
    destruct Hx as [-> _].
    destruct (deref w' y), (deref w y); try done; cbn [mbind outcome_bind]; [|by subst].
    destruct Hy as [-> _]. done.
  - intros x. unfold WorldPosition. specialize (Hderef x).
    destruct (deref w' x), (deref w x); try done; cbn [mbind outcome_bind]; [|by subst].
    destruct Hderef as [-> _]. done.
  - intros g. unfold Points, deref_Grid. destruct Hsame as [-> _]. done.
Qed.

(** ** The search when the source can be reached *)

(** What holds of the search loop each time it reaches its exit test, in
    [PathTo] from [s] to [d] on the store [w0].  [order] lists the marked
    points, the latest first.  A point may be in the queue several times and
    its [prevLink] may be overwritten as long as it is not marked; once it is
    marked its [prevLink] stays, and it leads to a point marked before. *)
Record search_inv (w0 : World) (s d : loc) (order : list loc)
    (w : World) (next : ptr) (toCheck : list ptr) (checked : gmap ptr bool) : Prop := {
  inv_frame : same_but_prevLink w0 w;
  inv_marked : ∀ x, is_Some (checked !! x) ↔ ∃ a, x = Some a ∧ a ∈ order;
  inv_NoDup : NoDup order;
  inv_points : ∀ a, a ∈ order → is_Some (points w0 !! a);
  inv_next : next = None ∨ ∃ a, next = Some a ∧ a ∈ order;
  inv_source : s ∈ order → next = Some s;
  inv_queue : ∀ x, x ∈ toCheck →
    ∃ a, x = Some a ∧ is_Some (points w0 !! a)
         ∧ (a ∈ order
            ∨ (a = d ∧ order = [] ∧ prevLink_of w (Some a) = Ok None)
            ∨ ∃ b, prevLink_of w (Some a) = Ok (Some b) ∧ b ∈ order ∧ link w0 b a);
  inv_chain : ∀ l1 a l2, order = l1 ++ a :: l2 →
    (l2 = [] ∧ a = d ∧ prevLink_of w (Some a) = Ok None)
    ∨ ∃ b, prevLink_of w (Some a) = Ok (Some b) ∧ b ∈ l2 ∧ link w0 b a;
  inv_closed :
    (order = [] ∧ toCheck = [Some d])
    ∨ (d ∈ order ∧ ∀ a b, a ∈ order → link w0 a b → b ∈ order ∨ Some b ∈ toCheck);
}.

(** With the queue empty every point that can be reached is marked. *)
Lemma search_inv_queue_empty w0 s d order w next checked :
  search_inv w0 s d order w next [] checked →
  rtc (link w0) d s →
  next = Some s.
Proof.
  intros Hinv Hreach. apply (inv_source _ _ _ _ _ _ _ _ Hinv).
  destruct (inv_closed _ _ _ _ _ _ _ _ Hinv) as [[_ [=]]|[Hd Hclosed]].
  clear Hinv. induction Hreach as [|a b c Hab _ IH]; [done|]. apply IH.
  destruct (Hclosed a b Hd Hab) as [?|?%elem_of_nil]; done.
Qed.

Lemma prevLink_of_marked w w' next checked cs (toCheck toCheck' : list ptr) x :
  expand w next cs toCheck checked = Ok (w', toCheck') →
  is_Some (checked !! x) →
  prevLink_of w' x = prevLink_of w x.
Proof.
  intros [_ Hprev]%expand_spec [v Hx]. rewrite Hprev.
  apply decide_False. intros [_ ?]. congruence.
Qed.


(** One turn of the loop keeps the invariant: the dequeued point is marked,
    and it joins [order] unless it was marked before. *)
Lemma search_body_inv w0 s d order w next a (toCheck : list ptr) checked :
  consistent w0 →
  search_inv w0 s d order w next (Some a :: toCheck) checked →
  next ≠ Some s →
  ∃ w', search_body (w, next, Some a :: toCheck, checked)
        = Ok (w', Some a,
              toCheck ++ filter (λ c, <[Some a := true]> checked !! c = None) (links w0 a),
              <[Some a := true]> checked)
        ∧ search_inv w0 s d (if decide (a ∈ order) then order else a :: order)
            w' (Some a)
            (toCheck ++ filter (λ c, <[Some a := true]> checked !! c = None) (links w0 a))
            (<[Some a := true]> checked).
Proof.
  intros Hcons [Hframe Hmarked HNoDup Hpoints Hnxt Hsource Hqueue Hchain Hclosed] Hnext.
  pose proof (same_but_prevLink_links _ _ Hframe) as Hsame.
  destruct (Hqueue (Some a)) as (a' & [= <-] & Ha & Hhead); [left|].
  destruct (same_links_is_Some w0 w a Hsame Ha) as [gn Hgn].
  assert (elems (Connections gn) = links w0 a) as Hcs.
  { rewrite <- (same_links_links w0 w a Hsame). unfold links. by rewrite Hgn. }
  assert (∀ c, c ∈ links w0 a → ∃ b, c = Some b ∧ is_Some (points w0 !! b)) as Hlinks.
  { intros c Hc. destruct (links_closed w0 Hcons a c Hc) as (b & -> & _ & Hb). eauto. }
  destruct (expand_Ok w0 (Some a) (<[Some a := true]> checked) (links w0 a) w toCheck Hsame)
    as (w' & Hexp & Hsame'); [by apply Forall_forall|].
  exists w'. split.
  { cbn [search_body deref]. rewrite Hgn. cbn [mbind outcome_bind].
    by rewrite Hcs, Hexp. }
  pose proof (expand_frame _ _ _ _ _ _ _ Hexp) as Hframe'.
  apply expand_spec in Hexp as [_ Hprev].
  set (checked' := <[Some a := true]> checked) in *.
  set (order' := if decide (a ∈ order) then order else a :: order).
  assert (∀ b, b ∈ order' ↔ b = a ∨ b ∈ order) as Horder'.
  { intros b. unfold order'. case_decide; [|by rewrite elem_of_cons].
    split; [by right|]. by intros [->|?]. }
  assert (∀ x, is_Some (checked' !! x) ↔ ∃ b, x = Some b ∧ b ∈ order') as Hmarked'.
  { intros x. unfold checked'. rewrite lookup_insert_is_Some. split.
    - intros [<-|[_ (b & -> & Hb)%Hmarked]].
      + exists a. split; [done|]. apply Horder'. by left.
      + exists b. split; [done|]. apply Horder'. by right.
    - intros (b & -> & [->|Hb]%Horder'); [by left|].
      destruct (decide (Some a = Some b)); [by left|right].
      split; [done|]. apply Hmarked. eauto. }
  assert (∀ b, b ∈ order' → prevLink_of w' (Some b) = prevLink_of w (Some b)) as Hkeep.
  { intros b Hb. rewrite Hprev. apply decide_False. intros [_ Hn].
    assert (is_Some (checked' !! Some b)) as [v Hv] by (apply Hmarked'; eauto).
    congruence. }
  assert (s ∉ order) as Hs by (intros ?; by apply Hnext, Hsource).
  split.
  - by eapply same_but_prevLink_trans.
  - done.
  - unfold order'. case_decide; [done|]. by apply NoDup_cons.
  - intros b [->|Hb]%Horder'; [done|by apply Hpoints].
  - right. exists a. split; [done|]. apply Horder'. by left.
  - intros [->|?]%Horder'; done.
  - intros x [Hx|[Hn Hx]%list_elem_of_filter]%elem_of_app.
    + destruct (Hqueue x) as (b & -> & Hb & Hcase); [by right|].
      exists b. split_and!; [done..|].
      destruct (decide (Some b ∈ links w0 a ∧ checked' !! Some b = None)) as [Hyes|Hno].
      { right; right. exists a. rewrite Hprev, decide_True by done.
        split_and!; [done| |apply Hyes]. apply Horder'. by left. }
      rewrite Hprev, decide_False by done.
      destruct Hcase as [?|[(_ & -> & _)|(b' & ? & ? & ?)]].
      * left. apply Horder'. by right.
      * destruct Hclosed as [[_ [= _ ->]]|[?%elem_of_nil _]]; [|done].
        by apply elem_of_nil in Hx.
      * right; right. exists b'. split_and!; [done| |done]. apply Horder'. by right.
    + destruct (Hlinks x Hx) as (b & -> & Hb). exists b. split_and!; [done..|].
      right; right. exists a. rewrite Hprev, decide_True by (by split).
      split_and!; [done| |done]. apply Horder'. by left.
  - unfold order'. intros l1 b l2 Heq.
    assert (b ∈ order') as Hb.
    { unfold order'. rewrite Heq. apply elem_of_app. right. by left. }
    rewrite (Hkeep b Hb). case_decide as Hin; [by eapply Hchain|].
    destruct l1 as [|a0 l1]; injection Heq as -> Heq.
    + subst l2. destruct Hhead as [?|[(-> & -> & ?)|?]]; [done|by left|by right].
    + by eapply Hchain.
  - right. split.
    + apply Horder'. destruct Hclosed as [[_ [= -> _]]|[? _]]; [by left|by right].
    + intros x y Hx Hxy.
      assert (link w0 a y → y ∈ order' ∨ Some y ∈ toCheck
                ++ filter (λ c, checked' !! c = None) (links w0 a)) as Hnew.
      { intros Hay. destruct (checked' !! Some y) as [v|] eqn:Hy.
        - left. destruct (proj1 (Hmarked' (Some y))) as (b & [= <-] & ?); [by eexists|done].
        - right. apply elem_of_app. right. by apply list_elem_of_filter. }
      apply Horder' in Hx as [->|Hx]; [by apply Hnew|].
      destruct Hclosed as [[-> _]|[_ Hclosed]]; [by apply elem_of_nil in Hx|].
      destruct (Hclosed x y Hx Hxy) as [?|[[= ->]|?]%elem_of_cons].
      * left. apply Horder'. by right.
      * left. apply Horder'. by left.
      * right. apply elem_of_app. by left.
Qed.


(** The loop ends with the source as [next] once the fuel exceeds the weight
    of the queue. *)
Lemma search_reachable E U w0 s d :
  consistent w0 →
  (∀ a, is_Some (points w0 !! a) → a ∈ U) →
  (∀ a, length (links w0 a) ≤ E) →
  rtc (link w0) d s →
  ∀ n order w next (toCheck : list ptr) checked,
    search_inv w0 s d order w next toCheck checked →
    queue_weight E U checked toCheck < n →
    ∃ order' w' toCheck' checked',
      search n (Some s) (w, next, toCheck, checked) = Ok (w', Some s, toCheck', checked')
      ∧ search_inv w0 s d order' w' (Some s) toCheck' checked'.
Proof.
  intros Hcons HU HE Hreach.
  induction n as [|n IH]; intros order w next toCheck checked Hinv Hweight; [lia|].
  cbn [search fst snd]. case_decide as Hnext.
  { subst next. eauto 10. }
  destruct toCheck as [|x toCheck].
  { destruct Hnext. by eapply search_inv_queue_empty. }
  destruct (inv_queue _ _ _ _ _ _ _ _ Hinv x) as (a & -> & Ha & _); [by left|].
  destruct (search_body_inv _ _ _ _ _ _ _ _ _ Hcons Hinv Hnext) as (w' & -> & Hinv').
  cbn [mbind outcome_bind]. eapply IH; [done|].
  eapply Nat.lt_le_trans; [apply queue_weight_step|lia].
  - by apply HU.
  - etrans; [apply length_filter|apply HE].
  - apply Forall_forall. by intros c [? _]%list_elem_of_filter.
Qed.

(** From a marked point the [prevLink]s lead to the destination through
    points marked earlier, so the second loop ends and the points it visits
    are distinct and linked one to the next. *)
Lemma walk_marked w0 s d order w next (toCheck : list ptr) checked vd :
  consistent w0 →
  search_inv w0 s d order w next toCheck checked →
  WorldPosition w0 (Some d) = Ok vd →
  ∀ fuel l1 a l2 path,
    order = l1 ++ a :: l2 →
    length l2 < fuel →
    ∃ nodes vs,
      walk fuel w (Some a) path = Ok (path ++ vs)
      ∧ Forall2 (λ b v, WorldPosition w0 (Some b) = Ok v) nodes (vs ++ [vd])
      ∧ head nodes = Some a ∧ last nodes = Some d ∧ NoDup nodes
      ∧ (∀ b, b ∈ nodes → b ∈ a :: l2)
      ∧ (∀ i x y, nodes !! i = Some x → nodes !! S i = Some y → link w0 x y).
Proof.
  intros Hcons Hinv Hvd.
  induction fuel as [|fuel IH]; intros l1 a l2 path Horder Hlen; [lia|].
  assert (a ∈ order) as Ha by (rewrite Horder; apply elem_of_app; right; by left).
  destruct (inv_points _ _ _ _ _ _ _ _ Hinv a Ha) as [ga Hga].
  destruct (same_but_prevLink_deref w0 w (Some a) ga (inv_frame _ _ _ _ _ _ _ _ Hinv))
    as (gn & Hgn & Hnode & _); [by apply deref_lookup|].
  cbn [walk]. rewrite Hgn. cbn [mbind outcome_bind].
  destruct (inv_chain _ _ _ _ _ _ _ _ Hinv l1 a l2 Horder)
    as [(-> & -> & Hprev)|(b & Hprev & Hb & Hlink)];
    unfold prevLink_of in Hprev; rewrite Hgn in Hprev; cbn in Hprev;
    injection Hprev as ->.
  - exists [d], []. rewrite app_nil_r. split_and!; try done.
    + cbn. apply Forall2_cons. split; [done|constructor].
    + apply NoDup_singleton.
  - apply list_elem_of_split in Hb as (l3 & l4 & ->).
    destruct (IH (l1 ++ a :: l3) b l4 (path ++ [position (gp_Node gn)]))
      as (nodes & vs & Hwalk & Hpos & Hhead & Hlast & HND & Hsub & Hlinked).
    { rewrite Horder. by rewrite <- app_assoc. }
    { rewrite length_app in Hlen. cbn in Hlen. lia. }
    exists (a :: nodes), (position (gp_Node gn) :: vs). split_and!.
    + rewrite Hwalk. by rewrite <- app_assoc.
    + cbn. apply Forall2_cons. split; [|done].
      unfold WorldPosition. cbn [deref]. rewrite Hga. cbn. by rewrite Hnode.
    + done.
    + by rewrite last_cons, Hlast.
    + apply NoDup_cons. split; [|done]. intros Hin%Hsub.
      pose proof (inv_NoDup _ _ _ _ _ _ _ _ Hinv) as HN. rewrite Horder in HN.
      apply NoDup_app in HN as (_ & _ & HN). apply NoDup_cons in HN as [Hn _].
      apply Hn, elem_of_app. by right.
    + intros c [->|Hc%Hsub]%elem_of_cons; [by left|]. right. apply elem_of_app. by right.
    + intros [|i] x y; cbn.
      * intros [= <-] Hy. destruct nodes; simplify_eq/=.
        by apply (links_symmetric w0 Hcons).
      * apply Hlinked.
Qed.


(** Fuel that is enough for [PathTo] on the store [w]: for the search, the
    weight of the first queue; for the walk back, the number of points. *)
Definition PathTo_fuel w : nat :=
  let U := (map_to_list (points w)).*1 in
  let E := sum_list_with (λ x : loc * GridPoint, length (elems (Connections x.2)))
             (map_to_list (points w)) in
  S (queue_weight E U ∅ [None]) + length U.

Lemma PathTo_reachable_fuel w s d :
  consistent w →
  IsOnSameGrid w (Some s) (Some d) = Ok true →
  s ≠ d →
  rtc (link w) d s →
  ∀ fuel, PathTo_fuel w ≤ fuel →
    ∃ w' path nodes,
      PathTo fuel w (Some s) (Some d) = Ok (w', Some path)
      ∧ Forall2 (λ a v, WorldPosition w (Some a) = Ok v) nodes (GridPoints path)
      ∧ head nodes = Some s ∧ last nodes = Some d ∧ NoDup nodes
      ∧ ∀ i x y, nodes !! i = Some x → nodes !! S i = Some y → link w x y.
Proof.
  intros Hcons Hsame Hsd Hreach.
  unfold IsOnSameGrid in Hsame.
  destruct (deref w (Some s)) as [gs| |] eqn:Hs; [|done..].
  destruct (deref w (Some d)) as [gd| |] eqn:Hd; [|done..].
  cbn [mbind outcome_bind] in Hsame.
  set (U := (map_to_list (points w)).*1).
  set (E := sum_list_with (λ x : loc * GridPoint, length (elems (Connections x.2)))
              (map_to_list (points w))).
  assert (∀ a, is_Some (points w !! a) → a ∈ U) as HU.
  { intros a [gp Ha]. apply (list_elem_of_fmap_2 fst _ (a, gp)).
    by apply elem_of_map_to_list. }
  intros fuel Hfuel.
  assert (S (queue_weight E U ∅ [Some d]) + length U ≤ fuel) as Hfuel' by done.
  clear Hfuel.
  unfold PathTo, IsOnSameGrid. rewrite Hs, Hd. cbn [mbind outcome_bind].
  injection Hsame as ->. cbn [negb]. rewrite decide_False by congruence.
  rewrite deref_store_ne, Hs by congruence. cbn [mbind outcome_bind].
  set (w1 := store w (Some d) (set_prevLink gd None)).
  assert (deref w1 (Some s) = Ok gs) as Hs1.
  { unfold w1. by rewrite deref_store_ne by congruence. }
  set (w2 := store w1 (Some s) (set_prevLink gs None)).
  assert (search_inv w s d [] w2 None [Some d] ∅) as Hinit.
  { split.
    - eapply same_but_prevLink_trans; by apply same_but_prevLink_store.
    - intros x. rewrite lookup_empty. split; [by intros [? ?]|].
      by intros (a & _ & ?%elem_of_nil).
    - constructor.
    - by intros a ?%elem_of_nil.
    - by left.
    - by intros ?%elem_of_nil.
    - intros x ->%list_elem_of_singleton. exists d. split_and!; [done| |].
      + apply deref_Some in Hd as (d' & [= <-] & Hd). by eexists.
      + right; left. split_and!; [done..|]. unfold w2.
        rewrite (prevLink_of_store w1 (Some s) (Some d) gs None Hs1).
        rewrite decide_False by congruence. unfold w1.
        rewrite (prevLink_of_store w (Some d) (Some d) gd None Hd).
        by rewrite decide_True.
    - intros [|? ?] ? ? ?; discriminate.
    - by left. }
  destruct (search_reachable E U w s d Hcons HU) with (n := fuel) (order := @nil loc)
    (w := w2) (next := @None loc) (toCheck := [Some d]) (checked := (∅ : gmap ptr bool))
    as (order & w' & toCheck' & checked' & -> & Hinv); [|done..|lia|].
  { intros a. unfold links. destruct (points w !! a) as [gp|] eqn:Ha; [|simpl; lia].
    apply (sum_list_with_in (a, gp)
             (λ x : loc * GridPoint, length (elems (Connections x.2)))).
    by apply elem_of_map_to_list. }
  cbn [mbind outcome_bind].
  assert (s ∈ order) as Hin.
  { destruct (inv_next _ _ _ _ _ _ _ _ Hinv) as [?|(a & [= <-] & ?)]; done. }
  apply list_elem_of_split in Hin as (l1 & l2 & Horder).
  assert (length order ≤ length U) as Hlen.
  { apply submseteq_length, NoDup_submseteq; [by eapply inv_NoDup|].
    intros a Ha. by eapply HU, inv_points. }
  destruct (walk_marked w s d order w' (Some s) toCheck' checked'
              (position (gp_Node gd)) Hcons Hinv) with (fuel := fuel) (l1 := l1) (a := s)
    (l2 := l2) (path := @nil (Vector float64))
    as (nodes & vs & -> & Hpos & Hhead & Hlast & HND & _ & Hlinked); [|done| |].
  { unfold WorldPosition. by rewrite Hd. }
  { rewrite Horder, length_app in Hlen. cbn in Hlen. lia. }
  cbn [mbind outcome_bind].
  destruct (same_but_prevLink_deref w w' (Some d) gd (inv_frame _ _ _ _ _ _ _ _ Hinv) Hd)
    as (gd' & Hgd' & Hnode & _).
  unfold WorldPosition at 1. rewrite Hgd'. cbn [mbind outcome_bind].
  eexists w', _, nodes. split; [done|]. cbn. rewrite Hnode. done.
Qed.

(** X1. In a consistent store, when the source [s] and the destination [d] are
    different points of one grid joined by a chain of connections, [PathTo]
    returns with enough fuel, and what it returns is a path: the positions of
    a list of distinct points that starts at [s], ends at [d], and in which
    each point is connected to the next. *)
Theorem PathTo_reachable w s d :
  consistent w →
  IsOnSameGrid w (Some s) (Some d) = Ok true →
  s ≠ d →
  rtc (link w) d s →
  ∃ n, ∀ fuel, n ≤ fuel →
    ∃ w' path nodes,
      PathTo fuel w (Some s) (Some d) = Ok (w', Some path)
      ∧ Forall2 (λ a v, WorldPosition w (Some a) = Ok v) nodes (GridPoints path)
      ∧ head nodes = Some s ∧ last nodes = Some d ∧ NoDup nodes
      ∧ ∀ i x y, nodes !! i = Some x → nodes !! S i = Some y → link w x y.
Proof.
  intros Hcons Hsame Hsd Hreach. exists (PathTo_fuel w).
  by apply PathTo_reachable_fuel.
Qed.


(** ** Connect and Disconnect: when they return, and what they leave alone *)

(** X4. [Connect] returns only on two equal pointers, which it leaves alone, or
    on two GridPoints of the store: a nil or dangling pointer on one side
    makes it panic.  On two GridPoints each gets the other appended unless it
    lists it already, and nothing else changes: no other point, no Node, no
    [prevLink], no grid. *)
Theorem Connect_frame w p q w' :
  Connect w p q = Ok w' →
  (p = q ∧ w' = w)
  ∨ ∃ a b ga gb,
      p = Some a ∧ q = Some b ∧ a ≠ b
      ∧ points w !! a = Some ga ∧ points w !! b = Some gb
      ∧ w' = mkWorld (<[b := add_link gb p]> (<[a := add_link ga q]> (points w)))
                     (grids w).
Proof.
  unfold Connect, IsConnected. intros Hrun.
  case_decide as Hpq; [injection Hrun as <-; by left|]. right.
  destruct (deref w p) as [ga| |] eqn:Hp; cbn [mbind outcome_bind] in Hrun; [|done..].
  apply deref_Some in Hp as (a & -> & Ha).
  rewrite (append_Connections_Ok w a ga q Ha) in Hrun. cbn [mbind outcome_bind] in Hrun.
  destruct (deref _ q) as [gb| |] eqn:Hq; cbn [mbind outcome_bind] in Hrun; [|done..].
  apply deref_Some in Hq as (b & -> & Hb).
  assert (a ≠ b) as Hab by congruence.
  cbn [store points] in Hb. rewrite lookup_insert_ne in Hb by done.
  rewrite (append_Connections_Ok _ b gb (Some a)) in Hrun
    by (cbn [store points]; by rewrite lookup_insert_ne).
  injection Hrun as <-. by exists a, b, ga, gb.
Qed.

(** [gp'] is [gp] with some entries equal to [other] taken out of its
    Connections: the other entries keep their order, the backing array its
    size, and the Node and the [prevLink] are the same. *)
Definition pruned (other : ptr) (gp gp' : GridPoint) : Prop :=
  gp_Node gp' = gp_Node gp
  ∧ prevLink gp' = prevLink gp
  ∧ cap (Connections gp') = cap (Connections gp)
  ∧ elems (Connections gp') `sublist_of` elems (Connections gp)
  ∧ filter (λ c, c ≠ other) (elems (Connections gp'))
    = filter (λ c, c ≠ other) (elems (Connections gp)).

Lemma pruned_refl other gp : pruned other gp gp.
Proof. by unfold pruned. Qed.

Lemma pruned_trans other gp1 gp2 gp3 :
  pruned other gp1 gp2 → pruned other gp2 gp3 → pruned other gp1 gp3.
Proof.
  intros (H1 & H2 & H3 & H4 & H5) (H1' & H2' & H3' & H4' & H5').
  split_and!; [congruence..| |congruence]. by etrans.
Qed.

Lemma remove_index_pruned i gp s other :
  remove_index i (Connections gp) = Ok s →
  array (Connections gp) !! i = Some other →
  pruned other gp (set_Connections gp s).
Proof.
  unfold remove_index, pruned, cap, array. case_decide as Hi; [|done].
  intros [= <-]. rewrite lookup_app_l by done. intros Hother.
  cbn [set_Connections gp_Node prevLink Connections elems spare].
  rewrite take_insert_ge, drop_insert_lt by lia.
  rewrite <- delete_take_drop.
  split_and!; [done..| | |].
  - rewrite !length_app, length_drop, length_insert, length_delete by eauto. lia.
  - apply sublist_delete.
  - rewrite <- (take_drop_middle _ _ _ Hother) at 2. rewrite delete_take_drop.
    rewrite !filter_app. f_equal. by rewrite filter_cons_False by (by intros []).
Qed.

(** One loop of [Disconnect], whatever the Connections hold: when it returns
    it has only taken entries equal to [other] out of them. *)
Lemma Disconnect_loop_pruned other a : ∀ n i w w' gp,
  points w !! a = Some gp →
  Disconnect_loop w (Some a) other i n = Ok w' →
  ∃ gp', w' = store w (Some a) gp' ∧ pruned other gp gp'.
Proof.
  induction n as [|n IH]; intros i w w' gp Ha; cbn [Disconnect_loop deref].
  - intros [= <-]. exists gp. split; [by rewrite store_same|apply pruned_refl].
  - rewrite Ha. cbn [mbind outcome_bind].
    destruct (array (Connections gp) !! i) as [c|] eqn:Hc; [|done].
    case_decide as Hco; cbn [mbind outcome_bind].
    + subst c. destruct (remove_index i (Connections gp)) as [s| |] eqn:Hs;
        cbn [mbind outcome_bind]; [|done..].
      intros Hrest.
      destruct (IH _ _ _ (set_Connections gp s) (lookup_insert_eq _ _ _) Hrest)
        as (gp' & -> & Hpruned).
      exists gp'. split; [cbn; by rewrite insert_insert_eq|].
      eapply pruned_trans; [|done]. by eapply remove_index_pruned.
    + by apply IH.
Qed.


(** X5. [Disconnect] returns only on two equal pointers, which it leaves alone,
    or on two GridPoints of the store.  Whatever their Connections hold
    (duplicates, nil entries), all it has done when it returns is take entries
    equal to the other point out of the Connections of each; it never
    reallocates, and nothing else changes. *)
Theorem Disconnect_frame w p q w' :
  Disconnect w p q = Ok w' →
  (p = q ∧ w' = w)
  ∨ ∃ a b ga gb ga' gb',
      p = Some a ∧ q = Some b ∧ a ≠ b
      ∧ points w !! a = Some ga ∧ points w !! b = Some gb
      ∧ pruned q ga ga' ∧ pruned p gb gb'
      ∧ w' = mkWorld (<[b := gb']> (<[a := ga']> (points w))) (grids w).
Proof.
  unfold Disconnect. intros Hrun.
  case_decide as Hpq; [injection Hrun as <-; by left|]. right.
  destruct (deref w p) as [ga| |] eqn:Hp; cbn [mbind outcome_bind] in Hrun; [|done..].
  apply deref_Some in Hp as (a & -> & Ha).
  destruct (Disconnect_loop _ _ _ _ _) as [w1| |] eqn:Hloop1;
    cbn [mbind outcome_bind] in Hrun; [|done..].
  destruct (Disconnect_loop_pruned _ _ _ _ _ _ _ Ha Hloop1) as (ga' & -> & Hga').
  destruct (deref _ q) as [gb| |] eqn:Hq; cbn [mbind outcome_bind] in Hrun; [|done..].
  apply deref_Some in Hq as (b & -> & Hb).
  assert (a ≠ b) as Hab by congruence.
  destruct (Disconnect_loop_pruned _ _ _ _ _ _ _ Hb Hrun) as (gb' & -> & Hgb').
  cbn [store points] in Hb. rewrite lookup_insert_ne in Hb by done.
  by exists a, b, ga, gb, ga', gb'.
Qed.

Lemma deref_Some_or_Panic w p : deref w p ≠ OutOfFuel.
Proof. destruct p as [a|]; simpl; [|done]. by destruct (points w !! a). Qed.

Lemma Disconnect_loop_fuel p other : ∀ n i w, Disconnect_loop w p other i n ≠ OutOfFuel.
Proof.
  induction n as [|n IH]; intros i w; cbn [Disconnect_loop]; [done|].
  destruct (deref w p) as [gp| |] eqn:Hp; cbn [mbind outcome_bind];
    [|done|by apply deref_Some_or_Panic in Hp].
  destruct (array (Connections gp) !! i) as [c|]; [|done].
  case_decide; cbn [mbind outcome_bind]; [|apply IH].
  unfold remove_index. case_decide; cbn [mbind outcome_bind]; [apply IH|done].
Qed.

(** X6. Nil pointers.  Two nil pointers are equal, so [Connect] and [Disconnect]
    return at once; one nil pointer makes both panic, whichever side it is
    on. *)
Theorem Connect_Disconnect_nil w a :
  Connect w None None = Ok w
  ∧ Disconnect w None None = Ok w
  ∧ Connect w None (Some a) = Panic NilDereference
  ∧ Connect w (Some a) None = Panic NilDereference
  ∧ Disconnect w None (Some a) = Panic NilDereference
  ∧ ∃ e, Disconnect w (Some a) None = Panic e.
Proof.
  split_and!; try done.
  - unfold Connect, IsConnected. rewrite decide_False by done. cbn [deref].
    destruct (points w !! a) as [ga|] eqn:Ha; cbn [mbind outcome_bind]; [|done].
    by rewrite (append_Connections_Ok w a ga None Ha).
  - unfold Disconnect. rewrite decide_False by done.
    destruct (deref w (Some a)) as [ga| |] eqn:Ha; cbn [mbind outcome_bind].
    + destruct (Disconnect_loop _ _ _ _ _) as [w1| |] eqn:Hloop; cbn [mbind outcome_bind].
      * by eexists.
      * by eexists.
      * by apply Disconnect_loop_fuel in Hloop.
    + by eexists.
    + by apply deref_Some_or_Panic in Ha.
Qed.


(** ** Connect and Disconnect, one after the other *)

(** What a GridPoint holds, apart from the spare cells of its backing array. *)
Definition visible (gp : GridPoint) : Node * list ptr * ptr :=
  (gp_Node gp, elems (Connections gp), prevLink gp).

Lemma visible_add_link gp other :
  visible (add_link gp other)
  = (gp_Node gp,
     if contains (elems (Connections gp)) other then elems (Connections gp)
     else elems (Connections gp) ++ [other],
     prevLink gp).
Proof.
  unfold visible. rewrite elems_add_link. unfold add_link.
  by destruct (contains _ _).
Qed.

Lemma visible_del_add gp other sp :
  other ∉ elems (Connections gp) →
  visible (del_link (add_link gp other) other sp) = visible gp.
Proof.
  intros Hno. pose proof (visible_add_link gp other) as Hadd.
  rewrite (proj2 (contains_false _ _) Hno) in Hadd. injection Hadd as Hn He Hp.
  unfold visible, del_link. cbn [set_Connections gp_Node Connections elems prevLink].
  rewrite Hn, He, Hp. do 2 f_equal.
  rewrite filter_app, filter_ne_absent by done.
  rewrite filter_cons_False by (by intros []). apply app_nil_r.
Qed.

(** X7. Connecting two points that are not connected and disconnecting them again
    gives the store back, up to the spare cells of the two backing arrays. *)
Theorem Connect_then_Disconnect w a b ga gb :
  a ≠ b →
  points w !! a = Some ga →
  points w !! b = Some gb →
  NoDup (elems (Connections ga)) →
  NoDup (elems (Connections gb)) →
  Some b ∉ elems (Connections ga) →
  Some a ∉ elems (Connections gb) →
  ∃ w1 w2,
    Connect w (Some a) (Some b) = Ok w1
    ∧ Disconnect w1 (Some a) (Some b) = Ok w2
    ∧ grids w2 = grids w
    ∧ ∀ x, visible <$> points w2 !! x = visible <$> points w !! x.
Proof.
  intros Hab Ha Hb Hnda Hndb Hnb Hna.
  set (w1 := mkWorld (<[b := add_link gb (Some a)]> (<[a := add_link ga (Some b)]> (points w)))
                     (grids w)).
  destruct (Disconnect_Ok w1 a b (add_link ga (Some b)) (add_link gb (Some a)) Hab)
    as (spa & spb & HD).
  { cbn. by rewrite lookup_insert_ne, lookup_insert_eq. }
  { cbn. by rewrite lookup_insert_eq. }
  { by apply NoDup_add_link. }
  { by apply NoDup_add_link. }
  eexists w1, _. split_and!; [by apply Connect_Ok|exact HD|done|].
  intros x. cbn [points].
  destruct (decide (x = b)) as [->|Hxb].
  { rewrite lookup_insert_eq, Hb. cbn. f_equal. by apply visible_del_add. }
  rewrite lookup_insert_ne by done.
  destruct (decide (x = a)) as [->|Hxa].
  { rewrite lookup_insert_eq, Ha. cbn. f_equal. by apply visible_del_add. }
  unfold w1. cbn [points]. by rewrite !lookup_insert_ne by done.
Qed.

(** X8. Disconnecting two points and connecting them again leaves them connected,
    whether they were or not, each as the last entry of the other: the edge
    moves to the end of both Connections, and no other Connections change. *)
Theorem Disconnect_then_Connect w a b :
  a ≠ b →
  is_Some (points w !! a) →
  is_Some (points w !! b) →
  NoDup (links w a) →
  NoDup (links w b) →
  ∃ w1 w2,
    Disconnect w (Some a) (Some b) = Ok w1
    ∧ Connect w1 (Some a) (Some b) = Ok w2
    ∧ links w2 a = filter (λ c, c ≠ Some b) (links w a) ++ [Some b]
    ∧ links w2 b = filter (λ c, c ≠ Some a) (links w b) ++ [Some a]
    ∧ ∀ x, x ≠ a → x ≠ b → links w2 x = links w x.
Proof.
  intros Hab [ga Ha] [gb Hb]. unfold links at 1 2 4 6. rewrite Ha, Hb. intros Hnda Hndb.
  destruct (Disconnect_Ok w a b ga gb Hab Ha Hb Hnda Hndb) as (spa & spb & HD).
  set (w1 := mkWorld (<[b := del_link gb (Some a) spb]>
                        (<[a := del_link ga (Some b) spa]> (points w))) (grids w)) in *.
  assert (points w1 !! a = Some (del_link ga (Some b) spa)) as Ha1.
  { cbn. by rewrite lookup_insert_ne, lookup_insert_eq. }
  assert (points w1 !! b = Some (del_link gb (Some a) spb)) as Hb1.
  { cbn. by rewrite lookup_insert_eq. }
  assert (∀ gp other sp,
            elems (Connections (add_link (del_link gp other sp) other))
            = filter (λ c, c ≠ other) (elems (Connections gp)) ++ [other]) as Hre.
  { intros gp other sp. rewrite elems_add_link.
    rewrite (proj2 (contains_false _ other)); [done|].
    rewrite elem_of_del_link. by intros [_ ?]. }
  eexists w1, _. split_and!; [exact HD|by apply Connect_Ok|..].
  - rewrite links_two_inserts by done.
    rewrite decide_False, decide_True by done. apply Hre.
  - rewrite links_two_inserts by done. rewrite decide_True by done. apply Hre.
  - intros x Hxa Hxb. rewrite links_two_inserts by done.
    rewrite !decide_False by done. unfold w1. rewrite links_two_inserts by done.
    by rewrite !decide_False by done.
Qed.


(** ** The points of a Grid *)

Definition is_GridPoint (n : INode) : bool :=
  match n with INodeGridPoint _ => true | INodeGrid _ => false end.

Lemma Points_loop_filter cs :
  ∃ l, Points_loop cs = Some <$> l
       ∧ INodeGridPoint <$> l = filter (λ n, is_GridPoint n = true) cs.
Proof.
  induction cs as [|[g|a] cs (l & Hl & Hf)].
  - by exists [].
  - exists l. by rewrite filter_cons_False by done.
  - exists (a :: l). cbn [Points_loop]. rewrite filter_cons_True by done.
    by rewrite Hl, !fmap_cons, Hf.
Qed.

(** X12. [Points] returns only when the grid is a Grid of the store, and then it
    lists the children of the grid that are GridPoints, in the order of the
    children: no nil pointer, nothing twice that is not a child twice, and no
    child Grid. *)
Theorem Points_children w grid ps :
  Points w grid = Ok ps →
  ∃ g gr l,
    grid = Some g ∧ grids w !! g = Some gr
    ∧ ps = Some <$> l
    ∧ INodeGridPoint <$> l = filter (λ n, is_GridPoint n = true) (children (grid_Node gr)).
Proof.
  unfold Points, deref_Grid. destruct grid as [g|]; [|done].
  destruct (grids w !! g) as [gr|] eqn:Hg; [|done]. cbn [mbind outcome_bind].
  intros [= <-]. destruct (Points_loop_filter (children (grid_Node gr))) as (l & Hl & Hf).
  by exists g, gr, l.
Qed.

Lemma Points_children_inv w grid ps : Points w grid = Ok ps → ∃ l, ps = Some <$> l.
Proof.
  unfold Points. destruct (deref_Grid w grid) as [gr| |]; [|done..].
  cbn [mbind outcome_bind]. intros [= <-].
  destruct (Points_loop_filter (children (grid_Node gr))) as (l & Hl & _). eauto.
Qed.

(** X13. On a Grid of the store [FirstPoint] and [LastPoint] never panic: they
    return the first and the last of [Points], and nil exactly when the grid
    has no GridPoint. *)
Theorem FirstPoint_LastPoint w grid ps :
  Points w grid = Ok ps →
  FirstPoint w grid = Ok (default None (head ps))
  ∧ LastPoint w grid = Ok (default None (last ps))
  ∧ (FirstPoint w grid = Ok None ↔ ps = [])
  ∧ (LastPoint w grid = Ok None ↔ ps = []).
Proof.
  intros Hps. unfold FirstPoint, LastPoint. rewrite Hps. cbn [mbind outcome_bind].
  apply Points_children_inv in Hps as (l & ->).
  destruct l as [|a l _] using rev_ind; [by rewrite !decide_True by done|].
  rewrite fmap_app, !decide_False by (rewrite length_app; cbn; lia).
  change (Some <$> [a]) with [Some a].
  rewrite last_snoc. replace (length _ - 1) with (length (Some <$> l))
    by (rewrite length_app; cbn; lia).
  rewrite (list_lookup_middle (Some <$> l) [] (Some a) _ eq_refl). rewrite <- head_lookup.
  destruct l as [|a' l]; cbn; split_and!; try done; by split.
Qed.

Lemma RandomPoint_draw rnd w grid ps :
  Points w grid = Ok ps →
  ps ≠ [] →
  ∃ p, ps !! (rnd `mod` length ps) = Some p ∧ RandomPoint rnd w grid = Ok p.
Proof.
  intros Hps Hne. assert (length ps ≠ 0) as Hlen by (by destruct ps).
  destruct (lookup_lt_is_Some_2 ps (rnd `mod` length ps)) as [p Hp];
    [by apply Nat.mod_upper_bound|].
  exists p. split; [done|].
  unfold RandomPoint, Intn. rewrite Hps. cbn [mbind outcome_bind].
  rewrite decide_False by done. cbn [mbind outcome_bind]. by rewrite Hp.
Qed.

(** X14. On a grid with at least one GridPoint, [RandomPoint] returns one of
    them whatever the generator draws, and every one of them for some draw. *)
Theorem RandomPoint_member w grid ps :
  Points w grid = Ok ps →
  ps ≠ [] →
  (∀ rnd, ∃ p, RandomPoint rnd w grid = Ok p ∧ p ∈ ps)
  ∧ (∀ p, p ∈ ps → ∃ rnd, RandomPoint rnd w grid = Ok p).
Proof.
  intros Hps Hne. split.
  - intros rnd. destruct (RandomPoint_draw rnd w grid ps Hps Hne) as (p & Hp & Hrun).
    exists p. split; [done|]. by eapply list_elem_of_lookup_2.
  - intros p (i & Hi)%list_elem_of_lookup_1. exists i.
    destruct (RandomPoint_draw i w grid ps Hps Hne) as (p' & Hp' & Hrun).
    rewrite Nat.mod_small in Hp' by (by eapply lookup_lt_Some). congruence.
Qed.

(** ** The nearest and the furthest point *)

(** [sort.Slice] has done its work on [l]: no element is less than one that
    comes before it. *)
Definition sorted_by {A} (less : A → A → bool) (l : list A) : Prop :=
  ∀ i j x y, i < j → l !! i = Some x → l !! j = Some y → less y x = false.

Lemma positioned_fst w (ps : list ptr) : ∀ pps, positioned w ps = Ok pps → pps.*1 = ps.
Proof.
  induction ps as [|p ps IH]; intros pps; cbn [positioned]; [by intros [= <-]|].
  destruct (WorldPosition w p) as [v| |]; cbn [mbind outcome_bind]; [|done..].
  destruct (positioned w ps) as [pps'| |]; cbn [mbind outcome_bind]; [|done..].
  intros [= <-]. rewrite fmap_cons. f_equal. by apply IH.
Qed.

(** X15. When the sort leaves the points of a grid sorted by their distance to
    [position], [NearestGridPoint] returns a point of the grid than which no
    other is nearer, and [FurthestGridPoint] one than which no other is
    further. *)
Theorem Nearest_Furthest_sorted w grid position ps pps :
  Points w grid = Ok ps →
  positioned w ps = Ok pps →
  ps ≠ [] →
  sorted_by (nearer position) (sort_Slice _ (nearer position) pps) →
  ∃ n vn restn f vf restf,
    NearestGridPoint w grid position = Ok n
    ∧ FurthestGridPoint w grid position = Ok f
    ∧ pps ≡ₚ (n, vn) :: restn
    ∧ pps ≡ₚ restf ++ [(f, vf)]
    ∧ (∀ x, x ∈ restn → nearer position x (n, vn) = false)
    ∧ (∀ x, x ∈ restf → nearer position (f, vf) x = false).
Proof.
  intros Hps Hpps Hne Hsorted.
  pose proof (positioned_fst _ _ _ Hpps) as Hfst.
  pose proof (sort_Slice_perm _ (nearer position) pps) as Hperm.
  unfold NearestGridPoint, FurthestGridPoint, sorted_Points.
  rewrite Hps. cbn [mbind outcome_bind]. rewrite Hpps. cbn [mbind outcome_bind].
  set (sorted := sort_Slice _ (nearer position) pps) in *.
  assert (sorted ≠ []) as Hne'.
  { intros Hnil. rewrite Hnil in Hperm. apply Permutation_nil_l in Hperm.
    subst pps. by destruct ps. }
  assert (∃ n vn restn, sorted = (n, vn) :: restn) as (n & vn & restn & Hfront).
  { destruct sorted as [|[n vn] restn]; [done|]. eauto. }
  assert (∃ f vf restf, sorted = restf ++ [(f, vf)]) as (f & vf & restf & Hback).
  { destruct sorted as [|[f vf] restf _] using rev_ind; [done|]. eauto. }
  exists n, vn, restn, f, vf, restf. split_and!.
  - by rewrite Hfront.
  - rewrite decide_False by (rewrite length_fmap, Hback, length_app; cbn; lia).
    rewrite Hback, fmap_app. change ([(f, vf)].*1) with [f].
    replace (length _ - 1) with (length restf.*1) by (rewrite length_app; cbn; lia).
    by rewrite (list_lookup_middle (restf.*1) [] f _ eq_refl).
  - by rewrite <- Hperm, Hfront.
  - by rewrite <- Hperm, Hback.
  - intros x (j & Hj)%list_elem_of_lookup_1.
    apply (Hsorted 0 (S j)); [lia|by rewrite Hfront..].
  - intros x (i & Hi)%list_elem_of_lookup_1.
    apply (Hsorted i (length restf)); [by eapply lookup_lt_Some| |].
    + rewrite Hback. by apply lookup_app_l_Some.
    + rewrite Hback. by apply list_lookup_middle.
Qed.

(** ** The length of a path *)

Lemma Distance_loop_snoc x : ∀ rest dist start,
  Distance_loop dist start (rest ++ [x])
  = fadd (Distance_loop dist start rest) (Magnitude (Sub x (default start (last rest)))).
Proof.
  induction rest as [|y rest IH]; intros dist start; [done|].
  cbn [app Distance_loop]. rewrite IH. rewrite last_cons.
  by destruct (last rest).
Qed.

(** X17. A path that is extended by one position gets longer by its last segment,
    whatever float64 addition does: the loop adds the segments from the first
    to the last. *)
Theorem Distance_snoc (l : list (Vector float64)) (y x : Vector float64) :
  Distance (mkGridPath ((l ++ [y]) ++ [x]))
  = fadd (Distance (mkGridPath (l ++ [y]))) (Magnitude (Sub x y)).
Proof.
  unfold Distance. cbn [GridPoints].
  rewrite decide_False by (rewrite !length_app; cbn; lia).
  destruct l as [|start rest]; [done|].
  rewrite decide_False by (cbn; rewrite length_app; cbn; lia).
  cbn [app]. rewrite Distance_loop_snoc. by rewrite last_snoc.
Qed.


(** ** IsOnSameGrid *)

(** X11. [IsOnSameGrid] compares the parents, so on the points of the store it is
    reflexive, symmetric and transitive, and two points without parent are on
    the same grid. *)
Theorem IsOnSameGrid_equiv w p q gp gq :
  deref w p = Ok gp →
  deref w q = Ok gq →
  IsOnSameGrid w p p = Ok true
  ∧ IsOnSameGrid w q p = IsOnSameGrid w p q
  ∧ (parent (gp_Node gp) = None → parent (gp_Node gq) = None →
     IsOnSameGrid w p q = Ok true)
  ∧ ∀ r, IsOnSameGrid w p q = Ok true → IsOnSameGrid w q r = Ok true →
         IsOnSameGrid w p r = Ok true.
Proof.
  intros Hp Hq. unfold IsOnSameGrid. rewrite Hp, Hq. cbn [mbind outcome_bind].
  split_and!.
  - by rewrite bool_decide_eq_true_2.
  - f_equal. apply bool_decide_ext. split; congruence.
  - intros -> ->. by rewrite bool_decide_eq_true_2.
  - intros r [= Hpq%bool_decide_eq_true_1].
    destruct (deref w r) as [gr| |]; cbn [mbind outcome_bind]; [|done..].
    intros [= Hqr%bool_decide_eq_true_1]. f_equal. apply bool_decide_eq_true_2.
    congruence.
Qed.

(** ** Combine: the loop over the other grids *)

(** X18. The grid itself among [others] is skipped, wherever and however often it
    is listed: combining a grid with itself changes nothing. *)
Theorem Combine_skips_self grid (others : list ptr) : ∀ w,
  Combine w grid others = Combine w grid (filter (λ other, other ≠ grid) others).
Proof.
  unfold Combine. induction others as [|other others IH]; intros w; [done|].
  destruct (decide (other = grid)) as [->|Hne].
  - rewrite filter_cons_False by (by intros []). cbn [foldlM].
    replace (Combine_other w grid grid) with (Ok w)
      by (unfold Combine_other; by rewrite decide_True).
    apply IH.
  - rewrite filter_cons_True by done. cbn [foldlM].
    destruct (Combine_other w grid other) as [w'| |]; cbn [mbind outcome_bind]; [|done..].
    apply IH.
Qed.

(** ** NearestPositionOnGrid never panics on a well-formed grid *)

Lemma foldlM_Ok {A B} (f : A → B → outcome A) (l : list B) :
  (∀ acc x, x ∈ l → ∃ acc', f acc x = Ok acc') → ∀ acc, ∃ acc', foldlM f acc l = Ok acc'.
Proof.
  induction l as [|x l IH]; intros Hf acc; cbn [foldlM]; [by eexists|].
  destruct (Hf acc x) as [acc' ->]; [by left|]. cbn [mbind outcome_bind].
  apply IH. intros acc0 x0 Hx0. apply Hf. by right.
Qed.

(** X16. On a grid with at least one point, in a consistent store that holds the
    points of the grid, [NearestPositionOnGrid] returns a position. *)
Theorem NearestPositionOnGrid_returns w grid position ps :
  consistent w →
  Points w grid = Ok ps →
  ps ≠ [] →
  Forall (λ p, ∃ gp, deref w p = Ok gp) ps →
  ∃ v, NearestPositionOnGrid w grid position = Ok v.
Proof.
  intros Hcons Hps Hne Hall.
  destruct (NearestGridPoint_Ok w grid position ps Hps Hne Hall) as (p & Hp & Hin).
  rewrite Forall_forall in Hall. destruct (Hall p Hin) as [gn Hgn].
  unfold NearestPositionOnGrid, WorldPosition.
  rewrite Hp. cbn [mbind outcome_bind]. rewrite Hgn. cbn [mbind outcome_bind].
  apply deref_Some in Hgn as (a & -> & Ha).
  match goal with
  | |- context [foldlM ?f ?start ?l] => destruct (foldlM_Ok f l) with (acc := start) as [best ->]
  end; [|by eexists].
  intros best c Hc.
  destruct (links_closed w Hcons a c) as (b & -> & _ & [gb Hb]).
  { unfold links. by rewrite Ha. }
  cbn [deref]. rewrite Hb. by eexists.
Qed.


(** ** Index *)

(** [for i, c := range parent.Children() { if c == n { return i } }; return -1] *)
Fixpoint Index_loop (n : INode) (cs : list INode) (i : Z) : Z :=
  match cs with
  | [] => -1
  | c :: cs => if decide (c = n) then i else Index_loop n cs (i + 1)
  end.

(** [Index], the same body for a GridPoint and for a Grid; [Children] is a
    copy of the children of the parent. *)
Definition Index (w : World) (n : INode) : outcome Z :=
  nd ← get_Node w n;
  match parent nd with
  | Some par => pn ← get_Node w par; Ok (Index_loop n (children pn) 0)
  | None => Ok (-1)%Z
  end.

Definition GridPoint_Index (w : World) (point : ptr) : outcome Z :=
  match point with
  | None => Panic NilDereference
  | Some p => Index w (INodeGridPoint p)
  end.

Definition Grid_Index (w : World) (grid : ptr) : outcome Z :=
  match grid with
  | None => Panic NilDereference
  | Some g => Index w (INodeGrid g)
  end.

Lemma Index_loop_first n : ∀ cs i,
  if decide (n ∈ cs)
  then ∃ k, Index_loop n cs i = (i + Z.of_nat k)%Z
            ∧ cs !! k = Some n ∧ n ∉ take k cs
  else Index_loop n cs i = (-1)%Z.
Proof.
  induction cs as [|c cs IH]; intros i.
  - rewrite decide_False; [done|]. by intros ?%elem_of_nil.
  - cbn [Index_loop]. destruct (decide (c = n)) as [->|Hc].
    + rewrite decide_True by left. exists 0. rewrite Z.add_0_r.
      split_and!; [done..|]. by intros ?%elem_of_nil.
    + specialize (IH (i + 1)%Z). destruct (decide (n ∈ cs)) as [Hin|Hno].
      * rewrite decide_True by (by right). destruct IH as (k & -> & Hk & Hfirst).
        exists (S k). split_and!; [lia|done|]. cbn [take].
        by intros [?|?]%elem_of_cons.
      * rewrite decide_False; [done|]. by intros [?|?]%elem_of_cons.
Qed.

(** X19. [Index] is -1 for a scene object without parent and for one that its
    parent does not list; otherwise it is the first place at which the parent
    lists it. *)
Theorem Index_first w n r :
  Index w n = Ok r →
  ∃ nd, get_Node w n = Ok nd
        ∧ match parent nd with
          | None => r = (-1)%Z
          | Some par =>
              ∃ pn, get_Node w par = Ok pn
                    ∧ if decide (n ∈ children pn)
                      then (0 ≤ r)%Z ∧ children pn !! Z.to_nat r = Some n
                           ∧ n ∉ take (Z.to_nat r) (children pn)
                      else r = (-1)%Z
          end.
Proof.
  unfold Index. destruct (get_Node w n) as [nd| |]; cbn [mbind outcome_bind]; [|done..].
  intros Hr. exists nd. split; [done|].
  destruct (parent nd) as [par|]; [|by injection Hr].
  destruct (get_Node w par) as [pn| |]; cbn [mbind outcome_bind] in Hr; [|done..].
  injection Hr as <-. exists pn. split; [done|].
  pose proof (Index_loop_first n (children pn) 0) as Hloop.
  case_decide; [|done]. destruct Hloop as (k & -> & Hk & Hfirst).
  rewrite Z.add_0_l, Nat2Z.id. split_and!; [lia|done..].
Qed.


(** ** Unparent *)

Lemma get_set_Node_eq w n nd nd0 :
  get_Node w n = Ok nd0 → get_Node (set_Node w n nd) n = Ok nd.
Proof.
  destruct n as [g|p]; cbn [get_Node set_Node deref_Grid deref grids points].
  - intros _. by rewrite lookup_insert_eq.
  - rewrite lookup_alter_eq. by destruct (points w !! p).
Qed.

Lemma get_set_Node_ne w n m nd : n ≠ m → get_Node (set_Node w n nd) m = get_Node w m.
Proof.
  intros Hne.
  destruct n as [g|p], m as [g'|p']; cbn [get_Node set_Node deref_Grid deref grids points];
    try done.
  - by rewrite lookup_insert_ne by congruence.
  - by rewrite lookup_alter_ne by congruence.
Qed.

(** Writing a Node changes no Connections and no [prevLink]. *)
Lemma set_Node_Connections w n nd x :
  (λ gp, (Connections gp, prevLink gp)) <$> points (set_Node w n nd) !! x
  = (λ gp, (Connections gp, prevLink gp)) <$> points w !! x.
Proof.
  destruct n as [g|p]; cbn [set_Node points]; [done|].
  destruct (decide (p = x)) as [->|Hne].
  - rewrite lookup_alter_eq. by destruct (points w !! x).
  - by rewrite lookup_alter_ne.
Qed.

Lemma Unparent_Connections w n w' x :
  Unparent w n = Ok w' →
  (λ gp, (Connections gp, prevLink gp)) <$> points w' !! x
  = (λ gp, (Connections gp, prevLink gp)) <$> points w !! x.
Proof.
  unfold Unparent, RemoveChildren.
  destruct (get_Node w n) as [nd| |]; cbn [mbind outcome_bind]; [|done..].
  destruct (parent nd) as [par|]; [|by intros [= <-]].
  destruct (get_Node w par) as [pn| |]; cbn [mbind outcome_bind]; [|done..].
  case_decide; [|by intros [= <-]].
  destruct (get_Node _ par) as [pn'| |]; cbn [mbind outcome_bind]; [|done..].
  intros [= <-]. by rewrite !set_Node_Connections.
Qed.

(** What [Unparent] makes of a scene object that its parent lists: it has no
    parent afterwards. *)
Lemma Unparent_listed w n nd par pn :
  get_Node w n = Ok nd →
  parent nd = Some par →
  get_Node w par = Ok pn →
  n ∈ children pn →
  ∃ w' nd', Unparent w n = Ok w' ∧ get_Node w' n = Ok nd' ∧ parent nd' = None
            ∧ ∀ m md, m ≠ n → get_Node w m = Ok md →
                ∃ md', get_Node w' m = Ok md' ∧ parent md' = parent md.
Proof.
  intros Hn Hpar Hp Hin. unfold Unparent, RemoveChildren.
  rewrite Hn. cbn [mbind outcome_bind]. rewrite Hpar, Hp. cbn [mbind outcome_bind].
  rewrite decide_True by done. cbn [mbind outcome_bind].
  set (w1 := set_Node w n (mkNode None (children nd) (position nd))).
  assert (get_Node w1 n = Ok (mkNode None (children nd) (position nd))) as Hn1
    by (by eapply get_set_Node_eq).
  destruct (decide (par = n)) as [->|Hne].
  - rewrite Hn1. cbn [mbind outcome_bind]. eexists _, _. split; [done|].
    split_and!; [by eapply get_set_Node_eq|done|].
    intros m md Hm Hmd. exists md. split; [|done].
    rewrite get_set_Node_ne by done. unfold w1. by rewrite get_set_Node_ne.
  - assert (get_Node w1 par = Ok pn) as Hp1
      by (unfold w1; by rewrite get_set_Node_ne).
    rewrite Hp1. cbn [mbind outcome_bind].
    eexists _, _. split; [done|]. split_and!.
    + rewrite get_set_Node_ne by done. exact Hn1.
    + done.
    + intros m md Hm Hmd. destruct (decide (m = par)) as [->|Hmp].
      * eexists. split; [by eapply get_set_Node_eq|].
        cbn. congruence.
      * exists md. split; [|done]. rewrite get_set_Node_ne by done.
        unfold w1. by rewrite get_set_Node_ne.
Qed.


Lemma get_Node_point w a nd :
  get_Node w (INodeGridPoint a) = Ok nd ↔ ∃ gp, points w !! a = Some gp ∧ gp_Node gp = nd.
Proof.
  cbn [get_Node deref]. destruct (points w !! a) as [gp|]; cbn [mbind outcome_bind].
  - split; [intros [= <-]; eauto|]. by intros (? & [= <-] & <-).
  - split; [done|]. by intros (? & ? & _).
Qed.

(** X21. A GridPoint that is detached keeps its Connections and its neighbours
    keep theirs: [IsConnected] answers as before.  But it has no parent any
    more, so [PathTo] between it and a point that has a parent returns nil,
    in both directions, whatever the Connections say. *)
Theorem Unparent_dangling w a ga par pn :
  points w !! a = Some ga →
  parent (gp_Node ga) = Some par →
  get_Node w par = Ok pn →
  INodeGridPoint a ∈ children pn →
  ∃ w', GridPoint_Unparent w (Some a) = Ok w'
        ∧ (∀ x y, IsConnected w' x y = IsConnected w x y)
        ∧ ∀ b gb fuel, b ≠ a → points w !! b = Some gb → parent (gp_Node gb) ≠ None →
            PathTo fuel w' (Some a) (Some b) = Ok (w', None)
            ∧ PathTo fuel w' (Some b) (Some a) = Ok (w', None).
Proof.
  intros Ha Hpar Hp Hin.
  destruct (Unparent_listed w (INodeGridPoint a) (gp_Node ga) par pn)
    as (w' & nd' & HU & Hn' & Hnone & Hothers); [by apply get_Node_point; eauto|done..|].
  exists w'. split_and!; [done| |].
  - intros x y. unfold IsConnected. destruct x as [x|]; [|done]. cbn [deref].
    pose proof (Unparent_Connections w _ w' x HU) as Hx.
    destruct (points w' !! x), (points w !! x); simplify_eq/=; [|done].
    by rewrite H.
  - intros b gb fuel Hba Hb Hgb.
    apply get_Node_point in Hn' as (ga' & Ha' & <-).
    destruct (Hothers (INodeGridPoint b) (gp_Node gb)) as (md' & Hb' & Hparb);
      [congruence|by apply get_Node_point; eauto|].
    apply get_Node_point in Hb' as (gb' & Hb' & <-).
    unfold PathTo, IsOnSameGrid. cbn [deref]. rewrite Ha', Hb'.
    cbn [mbind outcome_bind]. rewrite Hnone, Hparb.
    rewrite !bool_decide_eq_false_2 by congruence. done.
Qed.

(** X20. After [Unparent] has returned, [Index] is -1: the scene object has no
    parent, or the parent it names does not list it. *)
Theorem Unparent_Index w n w' :
  Unparent w n = Ok w' → Index w' n = Ok (-1)%Z.
Proof.
  intros HU. pose proof HU as HU'. unfold Unparent in HU'.
  destruct (get_Node w n) as [nd| |] eqn:Hn; cbn [mbind outcome_bind] in HU'; [|done..].
  destruct (parent nd) as [par|] eqn:Hpar.
  - unfold RemoveChildren in HU'.
    destruct (get_Node w par) as [pn| |] eqn:Hp; cbn [mbind outcome_bind] in HU'; [|done..].
    destruct (decide (n ∈ children pn)) as [Hin|Hno].
    + destruct (Unparent_listed w n nd par pn Hn Hpar Hp Hin)
        as (w'' & nd' & HU'' & Hn' & Hnone & _).
      assert (w'' = w') as -> by congruence.
      unfold Index. rewrite Hn'. cbn [mbind outcome_bind]. by rewrite Hnone.
    + injection HU' as <-. unfold Index. rewrite Hn. cbn [mbind outcome_bind].
      rewrite Hpar, Hp. cbn [mbind outcome_bind]. f_equal.
      pose proof (Index_loop_first n (children pn) 0) as Hloop.
      by rewrite decide_False in Hloop.
  - injection HU' as <-. unfold Index. rewrite Hn. cbn [mbind outcome_bind].
    by rewrite Hpar.
Qed.


(** ** A caller: ChooseNewTarget of the grids example *)

(** [closest := grid.NearestGridPoint(position);
    closest.PathTo(grid.RandomPoint())]: the path that [ChooseNewTarget] hands
    to the navigator, for the position of the cube. *)
Definition ChooseNewTarget (fuel rnd : nat) (w : World) (grid : ptr)
    (position : Vector float64) : outcome (World * option GridPath) :=
  closest ← NearestGridPoint w grid position;
  target ← RandomPoint rnd w grid;
  PathTo fuel w closest target.

Lemma Forall2_head_last {A B} (P : A → B → Prop) (l : list A) (k : list B) x z :
  Forall2 P l k → head l = Some x → last l = Some z →
  ∃ y t, head k = Some y ∧ last k = Some t ∧ P x y ∧ P z t.
Proof.
  intros HF Hhead Hlast. rewrite head_lookup in Hhead. rewrite last_lookup in Hlast.
  destruct (Forall2_lookup_l _ _ _ _ _ HF Hhead) as (y & Hy & HPy).
  destruct (Forall2_lookup_l _ _ _ _ _ HF Hlast) as (t & Ht & HPt).
  exists y, t. rewrite head_lookup, last_lookup.
  by rewrite <- (Forall2_length _ _ _ HF).
Qed.

(** X3. On a grid that is in one piece, in a consistent store, the example always
    gets a path: it starts at the position of the point nearest to the cube
    and ends at the position of the point that was drawn, whichever it is. *)
Theorem ChooseNewTarget_path w g position ps :
  consistent w →
  Points w (Some g) = Ok ps →
  ps ≠ [] →
  (∀ p, p ∈ ps → ∃ a gp, p = Some a ∧ points w !! a = Some gp
                         ∧ parent (gp_Node gp) = Some (INodeGrid g)) →
  (∀ a b, Some a ∈ ps → Some b ∈ ps → rtc (link w) a b) →
  ∃ n, ∀ fuel rnd, n ≤ fuel →
    ∃ closest target w' path vc vt,
      NearestGridPoint w (Some g) position = Ok closest
      ∧ RandomPoint rnd w (Some g) = Ok target
      ∧ ChooseNewTarget fuel rnd w (Some g) position = Ok (w', Some path)
      ∧ WorldPosition w closest = Ok vc
      ∧ WorldPosition w target = Ok vt
      ∧ head (GridPoints path) = Some vc
      ∧ last (GridPoints path) = Some vt.
Proof.
  intros Hcons Hps Hne Hpoints Hjoined. exists (PathTo_fuel w). intros fuel rnd Hfuel.
  destruct (NearestGridPoint_Ok w (Some g) position ps Hps Hne) as (closest & Hnear & Hc).
  { apply Forall_forall. intros p (a & gp & -> & Ha & _)%Hpoints.
    exists gp. by apply deref_lookup. }
  destruct (RandomPoint_draw rnd w (Some g) ps Hps Hne) as (target & Ht%list_elem_of_lookup_2 & Hrnd).
  destruct (Hpoints closest Hc) as (s & gs & -> & Hs & Hpars).
  destruct (Hpoints target Ht) as (d & gd & -> & Hd & Hpard).
  assert (IsOnSameGrid w (Some s) (Some d) = Ok true) as Hsame.
  { unfold IsOnSameGrid. cbn [deref]. rewrite Hs, Hd. cbn [mbind outcome_bind].
    by rewrite bool_decide_eq_true_2 by congruence. }
  exists (Some s), (Some d). unfold ChooseNewTarget. rewrite Hnear, Hrnd.
  cbn [mbind outcome_bind]. unfold WorldPosition at 1 2. cbn [deref]. rewrite Hs, Hd.
  cbn [mbind outcome_bind].
  destruct (decide (s = d)) as [<-|Hsd].
  - assert (gd = gs) as -> by congruence.
    unfold PathTo. rewrite Hsame. cbn [mbind outcome_bind negb].
    rewrite decide_True by done. unfold WorldPosition. cbn [deref]. rewrite Hs.
    cbn [mbind outcome_bind]. by eexists w, _, _, _.
  - destruct (PathTo_reachable_fuel w s d Hcons Hsame Hsd (Hjoined d s Ht Hc) fuel Hfuel)
      as (w' & path & nodes & -> & Hpos & Hhead & Hlast & _).
    destruct (Forall2_head_last _ _ _ _ _ Hpos Hhead Hlast)
      as (vc & vt & Hvc & Hvt & Hpc & Hpt).
    unfold WorldPosition in Hpc, Hpt. cbn [deref] in Hpc, Hpt.
    rewrite Hs in Hpc. rewrite Hd in Hpt. cbn [mbind outcome_bind] in Hpc, Hpt.
    exists w', path, vc, vt. split_and!; done.
Qed.


(** ** Disconnect on Connections that list the other point twice *)

Lemma cells_skip (pre mid rest : list ptr) (other : ptr) :
  other ∉ mid →
  ∀ j, length pre ≤ j < length pre + length mid →
       ∃ c, (pre ++ mid ++ rest) !! j = Some c ∧ c ≠ other.
Proof.
  intros Hno j Hj. rewrite lookup_app_r, lookup_app_l by lia.
  destruct (lookup_lt_is_Some_2 mid (j - length pre)) as [c Hc]; [lia|].
  exists c. split; [done|]. intros ->. apply Hno. by eapply list_elem_of_lookup_2.
Qed.

(** The iteration that finds [other] in cell [length l1], inside the slice. *)
Lemma Disconnect_loop_remove w a nd (l1 l2 sp : list ptr) pl other n :
  points w !! a = Some (mkGridPoint nd (Slice (l1 ++ other :: l2) sp) pl) →
  Disconnect_loop w (Some a) other (length l1) (S n)
  = Disconnect_loop
      (store w (Some a)
         (mkGridPoint nd (Slice (l1 ++ l2) (drop (length l2) (None :: l2) ++ sp)) pl))
      (Some a) other (S (length l1)) n.
Proof.
  intros Ha. cbn [Disconnect_loop deref]. rewrite Ha. cbn [mbind outcome_bind].
  unfold array. cbn [Connections elems spare].
  rewrite <- (assoc_L (++)). cbn [app].
  rewrite (list_lookup_middle l1 (l2 ++ sp) other _ eq_refl).
  rewrite decide_True by done. rewrite remove_index_middle. done.
Qed.

(** The iteration that finds [other] in a cell beyond the slice. *)
Lemma Disconnect_loop_beyond w a gp other i n :
  points w !! a = Some gp →
  array (Connections gp) !! i = Some other →
  length (elems (Connections gp)) ≤ i →
  Disconnect_loop w (Some a) other i (S n) = Panic IndexOutOfRange.
Proof.
  intros Ha Hi Hlen. cbn [Disconnect_loop deref]. rewrite Ha. cbn [mbind outcome_bind].
  rewrite Hi, decide_True by done. unfold remove_index.
  by rewrite decide_False by lia.
Qed.


(** X9. When the Connections of [a] list [b] twice, the second time as their last
    entry, [a.Disconnect(b)] panics: the first removal shortens the slice, the
    range still runs over the old length, finds [b] again and, by the end, in
    a cell that is no longer inside the slice. *)
Theorem Disconnect_twice_listed w a b ga (l1 l2 : list ptr) :
  a ≠ b →
  points w !! a = Some ga →
  elems (Connections ga) = l1 ++ Some b :: l2 ++ [Some b] →
  Some b ∉ l1 →
  Some b ∉ l2 →
  Disconnect w (Some a) (Some b) = Panic IndexOutOfRange.
Proof.
  intros Hab Ha Helems Hl1 Hl2. destruct ga as [nd [cs sp] pl].
  cbn [Connections elems] in Helems. subst cs.
  unfold Disconnect. rewrite decide_False by congruence.
  cbn [deref]. rewrite Ha. cbn [mbind outcome_bind Connections elems].
  replace (length (l1 ++ Some b :: l2 ++ [Some b])) with (length l1 + S (length l2 + 1))
    by (rewrite !length_app; cbn; rewrite length_app; cbn; lia).
  rewrite Disconnect_loop_app.
  rewrite (Disconnect_loop_skip _ a _ 0 w _ Ha); cycle 1.
  { intros j Hj. unfold array. cbn [Connections elems spare].
    rewrite <- (assoc_L (++)). by apply (cells_skip [] l1). }
  cbn [mbind outcome_bind Nat.add].
  rewrite (Disconnect_loop_remove w a nd l1 (l2 ++ [Some b]) sp pl (Some b) _ Ha).
  replace (drop (length (l2 ++ [Some b])) (None :: l2 ++ [Some b])) with [Some b]
    by (rewrite (app_comm_cons l2), drop_app_length'; [done|];
        rewrite length_app; cbn; lia).
  set (gp1 := mkGridPoint nd (Slice (l1 ++ l2 ++ [Some b]) ([Some b] ++ sp)) pl).
  set (w1 := store w (Some a) gp1).
  assert (points w1 !! a = Some gp1) as Ha1 by (cbn; by rewrite lookup_insert_eq).
  destruct l2 as [|c l2].
  - cbn [length Nat.add].
    rewrite (Disconnect_loop_beyond w1 a gp1 (Some b) _ _ Ha1); [done| |].
    + unfold array, gp1. cbn [Connections elems spare app].
      by rewrite (list_lookup_middle (l1 ++ [Some b]) sp (Some b) _)
        by (rewrite length_app; cbn; lia).
    + unfold gp1. cbn [Connections elems app]. rewrite length_app. cbn. lia.
  - apply not_elem_of_cons in Hl2 as [Hc Hl2].
    replace (length (c :: l2) + 1) with (length l2 + 2) by (cbn; lia).
    rewrite Disconnect_loop_app.
    rewrite (Disconnect_loop_skip _ a _ _ w1 _ Ha1); cycle 1.
    { intros j Hj. unfold array, gp1. cbn [Connections elems spare].
      replace ((l1 ++ (c :: l2) ++ [Some b]) ++ [Some b] ++ sp)
        with ((l1 ++ [c]) ++ l2 ++ ([Some b] ++ [Some b] ++ sp))
        by (by rewrite <- !(assoc_L (++))).
      apply cells_skip; [done|]. rewrite length_app. cbn. lia. }
    cbn [mbind outcome_bind].
    replace (S (length l1) + length l2) with (length (l1 ++ c :: l2))
      by (rewrite length_app; cbn; lia).
    assert (points w1 !! a
            = Some (mkGridPoint nd (Slice ((l1 ++ c :: l2) ++ Some b :: []) ([Some b] ++ sp)) pl))
      as Ha1'.
    { rewrite Ha1. unfold gp1. by rewrite <- !(assoc_L (++)). }
    rewrite (Disconnect_loop_remove w1 a nd (l1 ++ c :: l2) [] _ pl (Some b) _ Ha1').
    cbn [length drop app].
    match goal with
    | |- context [Disconnect_loop (store w1 (Some a) ?gp) _ _ _ _] => set (gp2 := gp)
    end.
    rewrite (Disconnect_loop_beyond _ a gp2 (Some b)); [done|..].
    + cbn. by rewrite lookup_insert_eq.
    + unfold array, gp2. cbn [Connections elems spare]. rewrite app_nil_r.
      rewrite lookup_app_r by lia.
      by replace (S (length (l1 ++ c :: l2)) - length (l1 ++ c :: l2)) with 1 by lia.
    + unfold gp2. cbn [Connections elems]. rewrite app_nil_r. lia.
Qed.


(** X10. When the Connections of [a] list [b] twice in a row, and not as their
    last entries, [a.Disconnect(b)] returns and [a] still lists [b]: the
    removal moves the second entry into the cell that the range has just
    left.  [b] no longer lists [a], so the connection is one-way. *)
Theorem Disconnect_twice_in_a_row w a b ga gb (l1 l2 : list ptr) :
  a ≠ b →
  points w !! a = Some ga →
  points w !! b = Some gb →
  elems (Connections ga) = l1 ++ Some b :: Some b :: l2 →
  l2 ≠ [] →
  Some b ∉ l1 →
  Some b ∉ l2 →
  NoDup (elems (Connections gb)) →
  ∃ w', Disconnect w (Some a) (Some b) = Ok w'
        ∧ links w' a = l1 ++ Some b :: l2
        ∧ IsConnected w' (Some a) (Some b) = Ok true
        ∧ IsConnected w' (Some b) (Some a) = Ok false.
Proof.
  intros Hab Ha Hb Helems Hne Hl1 Hl2 Hnd. destruct ga as [nd [cs sp] pl].
  cbn [Connections elems] in Helems. subst cs.
  destruct l2 as [|x l2 _] using rev_ind; [done|]. clear Hne.
  unfold Disconnect. rewrite decide_False by congruence.
  cbn [deref]. rewrite Ha. cbn [mbind outcome_bind Connections elems].
  replace (length (l1 ++ Some b :: Some b :: l2 ++ [x]))
    with (length l1 + S (length (l2 ++ [x]) + 1))
    by (rewrite !length_app; cbn; rewrite length_app; cbn; lia).
  rewrite Disconnect_loop_app.
  rewrite (Disconnect_loop_skip _ a _ 0 w _ Ha); cycle 1.
  { intros j Hj. unfold array. cbn [Connections elems spare].
    rewrite <- (assoc_L (++)). by apply (cells_skip [] l1). }
  cbn [mbind outcome_bind Nat.add].
  rewrite (Disconnect_loop_remove w a nd l1 (Some b :: l2 ++ [x]) sp pl (Some b) _ Ha).
  replace (drop (length (Some b :: l2 ++ [x])) (None :: Some b :: l2 ++ [x])) with [x]
    by (rewrite (app_comm_cons l2), (app_comm_cons (Some b :: l2)), drop_app_length';
        [done|]; cbn; rewrite length_app; cbn; lia).
  set (gp1 := mkGridPoint nd (Slice (l1 ++ Some b :: l2 ++ [x]) ([x] ++ sp)) pl).
  set (w1 := store w (Some a) gp1).
  assert (points w1 !! a = Some gp1) as Ha1 by (cbn; by rewrite lookup_insert_eq).
  assert (points w1 !! b = Some gb) as Hb1 by (cbn; by rewrite lookup_insert_ne).
  rewrite (Disconnect_loop_skip _ a _ _ w1 _ Ha1); cycle 1.
  { intros j Hj. unfold array, gp1. cbn [Connections elems spare].
    replace ((l1 ++ Some b :: l2 ++ [x]) ++ [x] ++ sp)
      with ((l1 ++ [Some b]) ++ ((l2 ++ [x]) ++ [x]) ++ sp)
      by (rewrite <- !(assoc_L (++)); cbn [app]; by rewrite <- ?(assoc_L (++))).
    apply cells_skip.
    - rewrite elem_of_app, list_elem_of_singleton. intros [?|<-]; [done|].
      apply Hl2, elem_of_app. right. by left.
    - rewrite !length_app in *. cbn in *. lia. }
  cbn [mbind outcome_bind]. rewrite Hb1. cbn [mbind outcome_bind].
  destruct (Disconnect_loop_NoDup w1 b gb a Hb1 Hnd) as [spb ->].
  eexists. split; [done|].
  assert (links (store w1 (Some b)
                   (set_Connections gb
                      (Slice (filter (λ c, c ≠ Some a) (elems (Connections gb))) spb))) a
          = l1 ++ Some b :: l2 ++ [x]) as Hlinks.
  { unfold links. cbn [store points]. rewrite lookup_insert_ne by done.
    fold (points w1). by rewrite Ha1. }
  split_and!; [done| |].
  - rewrite IsConnected_links
      by (cbn [store points]; rewrite lookup_insert_ne by done; fold (points w1);
          by rewrite Ha1).
    rewrite Hlinks. f_equal. apply bool_decide_eq_true_2, elem_of_app. right. by left.
  - unfold IsConnected. cbn [deref store points]. rewrite lookup_insert_eq.
    cbn [mbind outcome_bind set_Connections Connections elems]. f_equal.
    apply contains_false. rewrite list_elem_of_filter. by intros [? _].
Qed.


(** ** Combine when no two points coincide *)

Lemma points_set_Node_point w a nd x :
  points (set_Node w (INodeGridPoint a) nd) !! x
  = if decide (x = a)
    then (λ gp, mkGridPoint nd (Connections gp) (prevLink gp)) <$> points w !! a
    else points w !! x.
Proof.
  cbn [set_Node points]. case_decide as Hx.
  - subst x. by rewrite lookup_alter_eq.
  - by rewrite lookup_alter_ne.
Qed.

(** A GridPoint that [AddChildren] has moved under the grid [g]. *)
Definition reparent (g : loc) (gp : GridPoint) : GridPoint :=
  mkGridPoint (mkNode (Some (INodeGrid g)) (children (gp_Node gp)) (position (gp_Node gp)))
              (Connections gp) (prevLink gp).

(** The scene during the first loop of [Combine], from the scene [w] it
    started on: the points [done] have moved from the other grid [o] to the
    grid [g], the points [rest] are still to move. *)
Record moving (w : World) (g o : loc) (gg go : Grid) (done rest : list loc)
    (wk : World) : Prop := {
  moving_grid :
    grids wk !! g
    = Some (mkGrid (mkNode (parent (grid_Node gg))
                           (children (grid_Node gg) ++ (INodeGridPoint <$> done))
                           (position (grid_Node gg))));
  moving_other :
    grids wk !! o
    = Some (mkGrid (mkNode (parent (grid_Node go)) (INodeGridPoint <$> rest)
                           (position (grid_Node go))));
  moving_points : ∀ x,
    points wk !! x
    = if decide (x ∈ done) then reparent g <$> points w !! x else points w !! x;
}.

(** One turn of the first loop: [pos := p.WorldPosition(); grid.AddChildren(p);
    p.SetWorldPositionVec(pos)]. *)
Lemma moving_step w g o gg go done a rest wk gp :
  g ≠ o →
  moving w g o gg go done (a :: rest) wk →
  a ∉ done →
  points w !! a = Some gp →
  parent (gp_Node gp) = Some (INodeGrid o) →
  ∃ wk',
    (nd ← get_Node wk (INodeGridPoint a);
     w1 ← Grid_AddChildren wk (Some g) (INodeGridPoint a);
     SetWorldPositionVec w1 (INodeGridPoint a) (position nd)) = Ok wk'
    ∧ moving w g o gg go (done ++ [a]) rest wk'.
Proof.
  intros Hgo [Hg Ho Hpts] Hnew Ha Hpar.
  assert (points wk !! a = Some gp) as Hak by (by rewrite Hpts, decide_False).
  set (child := INodeGridPoint a).
  assert (get_Node wk child = Ok (gp_Node gp)) as Hchild
    by (apply get_Node_point; eauto).
  assert (get_Node wk (INodeGrid o)
          = Ok (mkNode (parent (grid_Node go)) (INodeGridPoint <$> a :: rest)
                       (position (grid_Node go)))) as Hother
    by (cbn [get_Node deref_Grid]; by rewrite Ho).
  assert (get_Node wk (INodeGrid g)
          = Ok (mkNode (parent (grid_Node gg))
                       (children (grid_Node gg) ++ (INodeGridPoint <$> done))
                       (position (grid_Node gg)))) as Hgrid
    by (cbn [get_Node deref_Grid]; by rewrite Hg).
  rewrite Hchild. cbn [mbind outcome_bind].
  unfold Grid_AddChildren, Unparent. rewrite Hchild. cbn [mbind outcome_bind].
  rewrite Hpar. unfold RemoveChildren. rewrite Hother. cbn [mbind outcome_bind children].
  rewrite decide_True by (rewrite fmap_cons; left).
  rewrite Hchild. cbn [mbind outcome_bind].
  set (w1 := set_Node wk child _).
  assert (get_Node w1 child = Ok (mkNode None (children (gp_Node gp)) (position (gp_Node gp))))
    as Hchild1 by (by eapply get_set_Node_eq).
  assert (get_Node w1 (INodeGrid o) = get_Node wk (INodeGrid o)) as ->
    by (by apply get_set_Node_ne).
  rewrite Hother. cbn [mbind outcome_bind parent children position].
  rewrite fmap_cons. cbn [remove_first]. rewrite decide_True by done.
  set (w2 := set_Node w1 (INodeGrid o) _).
  assert (get_Node w2 child = get_Node w1 child) as Hchild2
    by (by apply get_set_Node_ne).
  rewrite Hchild2, Hchild1. cbn [mbind outcome_bind children position].
  set (w3 := set_Node w2 child _).
  assert (get_Node w3 (INodeGrid g) = get_Node wk (INodeGrid g)) as ->.
  { unfold w3, w2, w1. rewrite !get_set_Node_ne; [done|done|congruence|done]. }
  rewrite Hgrid. cbn [mbind outcome_bind parent children position].
  set (w4 := set_Node w3 (INodeGrid g) _).
  unfold SetWorldPositionVec.
  assert (get_Node w4 child
          = Ok (mkNode (Some (INodeGrid g)) (children (gp_Node gp)) (position (gp_Node gp))))
    as ->.
  { unfold w4. rewrite get_set_Node_ne by done. eapply get_set_Node_eq.
    by rewrite Hchild2. }
  cbn [mbind outcome_bind parent children position].
  eexists. split; [done|]. clear Hchild1 Hchild2. subst w4 w3 w2 w1 child. split.
  - cbn [set_Node grids]. rewrite lookup_insert_eq.
    by rewrite fmap_app, (assoc_L (++)).
  - cbn [set_Node grids]. rewrite lookup_insert_ne by done.
    by rewrite lookup_insert_eq.
  - intros x. rewrite points_set_Node_point. cbn [set_Node points].
    destruct (decide (x = a)) as [->|Hxa].
    + rewrite decide_True by (apply elem_of_app; right; by left).
      rewrite !lookup_alter_eq, Hak, Ha. done.
    + rewrite !lookup_alter_ne by done. rewrite Hpts.
      apply decide_ext. rewrite elem_of_app, list_elem_of_singleton. tauto.
Qed.


Lemma moving_loop w g o gg go :
  g ≠ o →
  ∀ rest done wk,
    moving w g o gg go done rest wk →
    NoDup (done ++ rest) →
    (∀ a, a ∈ rest →
          ∃ gp, points w !! a = Some gp ∧ parent (gp_Node gp) = Some (INodeGrid o)) →
    ∃ wk',
      foldlM (λ w child,
                nd ← get_Node w child;
                w ← Grid_AddChildren w (Some g) child;
                SetWorldPositionVec w child (position nd)) wk (INodeGridPoint <$> rest)
      = Ok wk'
      ∧ moving w g o gg go (done ++ rest) [] wk'.
Proof.
  intros Hgo. induction rest as [|a rest IH]; intros done wk Hmoving Hnd Hrest.
  - exists wk. by rewrite app_nil_r.
  - destruct (Hrest a) as (gp & Ha & Hpar); [by left|].
    destruct (moving_step w g o gg go done a rest wk gp) as (wk' & Hstep & Hmoving');
      [done..| |done|done|].
    { apply NoDup_app in Hnd as (_ & Hnd & _). intros Hin. apply (Hnd a Hin). by left. }
    rewrite fmap_cons. cbn [foldlM]. rewrite Hstep. cbn [mbind outcome_bind].
    rewrite (cons_middle a done rest), (assoc_L (++)).
    apply IH; [done|by rewrite <- (assoc_L (++))|].
    intros b Hb. apply Hrest. by right.
Qed.

Lemma foldlM_same {A B} (f : A → B → outcome A) (l : list B) acc :
  (∀ x, x ∈ l → f acc x = Ok acc) → foldlM f acc l = Ok acc.
Proof.
  induction l as [|x l IH]; intros Hf; cbn [foldlM]; [done|].
  rewrite Hf by left. cbn [mbind outcome_bind]. apply IH.
  intros y Hy. apply Hf. by right.
Qed.

Lemma Points_loop_app cs1 cs2 : Points_loop (cs1 ++ cs2) = Points_loop cs1 ++ Points_loop cs2.
Proof.
  induction cs1 as [|[g|a] cs1 IH]; cbn [app Points_loop]; [done..|]. by rewrite IH.
Qed.

Lemma Points_loop_points (l : list loc) : Points_loop (INodeGridPoint <$> l) = Some <$> l.
Proof. induction l as [|a l IH]; [done|]. rewrite !fmap_cons. cbn. by rewrite IH. Qed.

Lemma Points_loop_Some cs p : p ∈ Points_loop cs → ∃ a, p = Some a.
Proof.
  destruct (Points_loop_filter cs) as (l & -> & _).
  intros (a & -> & _)%list_elem_of_fmap. eauto.
Qed.


(** X22. [grid.Combine(other)] when nothing is to be merged.  [other] is another
    Grid, without parent, whose children are GridPoints that name it as their
    parent, and no two distinct points of the two grids are at positions that
    [Equals] takes for equal.  Then [Combine] returns; the points of [grid]
    are its old points followed by those of [other], in order; [other] has no
    points left; and every connection and every world position is as before. *)
Theorem Combine_apart w g o gg go (l : list loc) :
  g ≠ o →
  grids w !! g = Some gg →
  grids w !! o = Some go →
  parent (grid_Node go) = None →
  children (grid_Node go) = INodeGridPoint <$> l →
  NoDup l →
  (∀ a, a ∈ l → ∃ gp, points w !! a = Some gp ∧ parent (gp_Node gp) = Some (INodeGrid o)) →
  (∀ a, Some a ∈ Points_loop (children (grid_Node gg)) → is_Some (points w !! a)) →
  (∀ a b ga gb,
     a ≠ b →
     Some a ∈ Points_loop (children (grid_Node gg)) ++ (Some <$> l) →
     Some b ∈ Points_loop (children (grid_Node gg)) ++ (Some <$> l) →
     points w !! a = Some ga →
     points w !! b = Some gb →
     Equals (position (gp_Node ga)) (position (gp_Node gb)) = false) →
  ∃ w', Combine w (Some g) [Some o] = Ok w'
        ∧ Points w' (Some g) = Ok (Points_loop (children (grid_Node gg)) ++ (Some <$> l))
        ∧ Points w' (Some o) = Ok []
        ∧ (∀ x y, IsConnected w' x y = IsConnected w x y)
        ∧ (∀ x, WorldPosition w' x = WorldPosition w x).
Proof.
  intros Hgo Hg Ho Hroot Hchildren Hnd Hother Hgrid Hapart.
  set (all := Points_loop (children (grid_Node gg)) ++ (Some <$> l)) in *.
  destruct (moving_loop w g o gg go Hgo l [] w) as (wA & HloopA & [HgA HoA HptsA]);
    [|done..|].
  { split.
    - rewrite Hg, app_nil_r. by destruct gg as [[]].
    - rewrite Ho, <- Hchildren. by destruct go as [[]].
    - intros x. rewrite decide_False; [done|]. by intros ?%elem_of_nil. }
  cbn [app] in HgA, HptsA.
  assert (∀ x, ∃ f, points wA !! x = f <$> points w !! x
                    ∧ ∀ gp, Connections (f gp) = Connections gp
                            ∧ position (gp_Node (f gp)) = position (gp_Node gp)) as Hsame.
  { intros x. rewrite HptsA. case_decide; [by exists (reparent g)|].
    exists id. by rewrite option_fmap_id. }
  assert (∀ x, WorldPosition wA x = WorldPosition w x) as Hpos.
  { intros [x|]; [|done]. unfold WorldPosition. cbn [deref].
    destruct (Hsame x) as (f & -> & Hf).
    destruct (points w !! x) as [gp|]; [|done]. cbn.
    by rewrite (proj2 (Hf gp)). }
  assert (Points wA (Some g) = Ok all) as HPg.
  { unfold Points. cbn [deref_Grid]. rewrite HgA. cbn [mbind outcome_bind grid_Node children].
    by rewrite Points_loop_app, Points_loop_points. }
  assert (∀ p, p ∈ all → ∃ a gp, p = Some a ∧ points w !! a = Some gp) as Hall.
  { intros p [Hp|(a & -> & Ha)%list_elem_of_fmap]%elem_of_app.
    - destruct (Points_loop_Some _ _ Hp) as [a ->].
      destruct (Hgrid a Hp) as [gp Ha]. eauto.
    - destruct (Hother a Ha) as (gp & Hgp & _). eauto. }
  exists wA. split_and!; [|done| | |done].
  - unfold Combine. cbn [foldlM]. unfold Combine_other.
    rewrite decide_False by congruence.
    unfold Grid_Children. cbn [deref_Grid]. rewrite Ho. cbn [mbind outcome_bind].
    rewrite Hchildren, HloopA. cbn [mbind outcome_bind]. rewrite HPg.
    cbn [mbind outcome_bind]. rewrite foldlM_same.
    + cbn [mbind outcome_bind]. unfold Grid_Unparent, Unparent.
      cbn [get_Node deref_Grid]. rewrite HoA. cbn [mbind outcome_bind grid_Node parent].
      by rewrite Hroot.
    + intros p Hp. rewrite HPg. cbn [mbind outcome_bind]. apply foldlM_same.
      intros p2 Hp2. unfold Combine_merge. case_decide as Hpp; [done|].
      rewrite !Hpos.
      destruct (Hall p Hp) as (a & ga & -> & Ha), (Hall p2 Hp2) as (b & gb & -> & Hb).
      unfold WorldPosition. cbn [deref]. rewrite Ha, Hb. cbn [mbind outcome_bind].
      rewrite (Hapart a b ga gb); [done|congruence|done..].
  - unfold Points. cbn [deref_Grid]. by rewrite HoA.
  - intros [x|] y; [|done]. unfold IsConnected. cbn [deref].
    destruct (Hsame x) as (f & -> & Hf).
    destruct (points w !! x) as [gp|]; [|done]. cbn.
    by rewrite (proj1 (Hf gp)).
Qed.

End grid.

(** * Worked examples on concrete stores *)

Module Examples.
#[local] Existing Instance small_runtime.
#[local] Existing Instance integer_coords.

(** A GridPoint at (x, 0, 0) under [parent], with the given Connections, in a
    backing array that is full. *)
Definition point_at (parent : option INode) (x : Z) (connections : list loc) : @GridPoint Z :=
  mkGridPoint (mkNode parent [] (Vector.mk x 0 0 0)%Z) (Slice (Some <$> connections) []) None.

(** A Grid without parent whose children are the GridPoints [ps]. *)
Definition grid_of (ps : list loc) : @Grid Z :=
  mkGrid (mkNode None (INodeGridPoint <$> ps) (Vector.mk 0 0 0 0)%Z).

(** One grid, at address 10, over points given as (address, connections);
    the point at address [i] is at (i, 0, 0). *)
Definition one_grid (ps : list (loc * list loc)) : (@World Z) :=
  mkWorld (list_to_map ((λ '(i, cs), (i, point_at (Some (INodeGrid 10)) (Z.pos i) cs)) <$> ps))
          {[ 10%positive := grid_of ps.*1 ]}.

Definition connect (a b : loc) (w : (@World Z)) : outcome (@World Z) :=
  Connect w (Some a) (Some b).

(** The first coordinates of the positions of a path. *)
Definition xs (p : option (@GridPath Z)) : option (list Z) :=
  (λ g, Vector.X <$> GridPoints g) <$> p.

(** The Connections, the parent and the [prevLink] of the point at [a]. *)
Definition connections (w : (@World Z)) (a : loc) : option (list ptr) :=
  (λ gp, elems (Connections gp)) <$> points w !! a.

Definition parent_of (w : (@World Z)) (a : loc) : option (option INode) :=
  (λ gp, parent (gp_Node gp)) <$> points w !! a.

(** Three points on one grid, none connected. *)
Definition three_points : (@World Z) := one_grid [(1, []); (2, []); (3, [])]%positive.

(** The line 1 - 2 - 3 - 4. *)
Definition line : (@World Z) :=
  one_grid [(1, [2]); (2, [1; 3]); (3, [2; 4]); (4, [3])]%positive.

Lemma line_built :
  (w ← connect 1 2 (one_grid [(1, []); (2, []); (3, []); (4, [])]%positive);
   w ← connect 2 3 w; connect 3 4 w) = Ok line.
Proof. vm_compute. reflexivity. Qed.

Lemma line_path : ∀ fuel,
  (λ r, xs r.2) <$> PathTo (5 + fuel) line (Some 1%positive) (Some 4%positive)
  = Ok (Some [1; 2; 3; 4]%Z).
Proof. intros fuel. vm_compute. reflexivity. Qed.

(** *** Early returns of PathTo *)

Lemma PathTo_self_witness :
  deref line (Some 2%positive) = Ok (point_at (Some (INodeGrid 10)) 2 [1; 3]%positive)
  ∧ ∃ path, PathTo 0 line (Some 2%positive) (Some 2%positive) = Ok (line, Some path)
            ∧ GridPoints path = [Vector.mk 2 0 0 0]%Z
            ∧ Distance path = 0%Z.
Proof.
  split; [reflexivity|].
  apply (PathTo_self (M := integer_coords) 0 line (Some 2%positive)
           (point_at (Some (INodeGrid 10)) 2 [1; 3]%positive)).
  reflexivity.
Defined.

(** Grid 10 with the connected points 1 and 2, grid 20 with the connected
    points 3 and 4; the points 2 and 3 are both at (2, 0, 0). *)
Definition two_grids : (@World Z) :=
  mkWorld (list_to_map
             [(1, point_at (Some (INodeGrid 10)) 1 [2]); (2, point_at (Some (INodeGrid 10)) 2 [1]);
              (3, point_at (Some (INodeGrid 20)) 2 [4]); (4, point_at (Some (INodeGrid 20)) 3 [3])]%positive)
          (list_to_map [(10, grid_of [1; 2]); (20, grid_of [3; 4])]%positive).

Lemma PathTo_other_grid_witness :
  parent (gp_Node (point_at (Some (INodeGrid 10)) 1 [2]%positive))
    ≠ parent (gp_Node (point_at (Some (INodeGrid 20)) 3 [3]%positive))
  ∧ IsOnSameGrid two_grids (Some 1%positive) (Some 4%positive) = Ok false
  ∧ PathTo 0 two_grids (Some 1%positive) (Some 4%positive) = Ok (two_grids, None).
Proof.
  assert (parent (gp_Node (point_at (Some (INodeGrid 10)) 1 [2]%positive))
          ≠ parent (gp_Node (point_at (Some (INodeGrid 20)) 3 [3]%positive))) as Hne
    by (simpl; congruence).
  split; [exact Hne|].
  exact (PathTo_other_grid 0 two_grids (Some 1%positive) (Some 4%positive)
           _ _ eq_refl eq_refl Hne).
Defined.

(** Two connected GridPoints that are on no grid: neither has a parent. *)
Definition two_orphans : (@World Z) :=
  mkWorld (list_to_map [(1, point_at None 1 [2]); (2, point_at None 2 [1])]%positive) ∅.

(** C9 for two GridPoints without parent.  They are on no grid, so not on the
    same grid; but nil equals nil, [IsOnSameGrid] is true, and [PathTo]
    searches and returns a path, from 1 to 2. *)
Lemma PathTo_orphans :
  parent_of two_orphans 1 = Some None
  ∧ parent_of two_orphans 2 = Some None
  ∧ IsOnSameGrid two_orphans (Some 1%positive) (Some 2%positive) = Ok true
  ∧ (λ r, xs r.2) <$> PathTo 3 two_orphans (Some 1%positive) (Some 2%positive)
    = Ok (Some [1; 2]%Z).
Proof. split_and!; vm_compute; reflexivity. Qed.

(** *** Unreachable destination *)

(** The components 1 - 2 and 3 - 4 on one grid. *)
Definition two_components : (@World Z) :=
  one_grid [(1, [2]); (2, [1]); (3, [4]); (4, [3])]%positive.

Lemma two_components_built :
  (w ← connect 1 2 (one_grid [(1, []); (2, []); (3, []); (4, [])]%positive);
   connect 3 4 w) = Ok two_components.
Proof. vm_compute. reflexivity. Qed.

(** The points 1 and 3 are on the same grid and no chain of connections
    joins them; [PathTo] from 1 to 3 dequeues 3 and 4, then reads the head of
    the empty queue and panics with an index out of range, whatever the loop
    budget from 3 on. *)
Lemma PathTo_unreachable_panics :
  IsOnSameGrid two_components (Some 1%positive) (Some 3%positive) = Ok true
  ∧ ∀ fuel, PathTo (3 + fuel) two_components (Some 1%positive) (Some 3%positive)
            = Panic IndexOutOfRange.
Proof. split; [reflexivity|]. intros fuel. vm_compute. reflexivity. Qed.

Lemma two_components_consistent : consistent two_components.
Proof. apply consistentb_sound. vm_compute. reflexivity. Qed.

Lemma two_components_apart : ¬ rtc (link two_components) 3%positive 1%positive.
Proof.
  apply (closed_set_unreachable two_components [3; 4]%positive); compute_done.
Qed.

Lemma PathTo_unreachable_witness :
  consistent two_components
  ∧ IsOnSameGrid two_components (Some 1%positive) (Some 3%positive) = Ok true
  ∧ ¬ rtc (link two_components) 3%positive 1%positive
  ∧ ∃ n, ∀ fuel, n ≤ fuel →
         PathTo fuel two_components (Some 1%positive) (Some 3%positive)
         = Panic IndexOutOfRange.
Proof.
  split; [exact two_components_consistent|].
  split; [reflexivity|].
  split; [exact two_components_apart|].
  exact (PathTo_unreachable two_components 1 3 two_components_consistent eq_refl
           two_components_apart).
Defined.

(** *** A detour that wins over the line *)

(** The line 1 - 2 - 3 - 4 and the longer route 1 - 5 - 6 - 7 - 4, the route
    connected first: 4 lists 7 before 3. *)
Definition line_with_detour : (@World Z) :=
  one_grid [(1, [5; 2]); (2, [1; 3]); (3, [2; 4]); (4, [7; 3]);
            (5, [1; 6]); (6, [5; 7]); (7, [6; 4])]%positive.

Lemma line_with_detour_built :
  (w ← connect 1 5 (one_grid ((λ i, (i, [])) <$> [1; 2; 3; 4; 5; 6; 7]%positive));
   w ← connect 5 6 w; w ← connect 6 7 w; w ← connect 7 4 w;
   w ← connect 1 2 w; w ← connect 2 3 w; connect 3 4 w) = Ok line_with_detour.
Proof. vm_compute. reflexivity. Qed.

(** C3, what the code does. With the detour connected before the line,
    [PathTo] from 1 to 4 returns the five positions of the detour, not the four
    of the line: 5 is dequeued before 1 and, 1 being unmarked still, replaces
    2 as the [prevLink] of 1. *)
Theorem PathTo_takes_detour : ∀ fuel,
  (λ r, xs r.2) <$> PathTo (8 + fuel) line_with_detour (Some 1%positive) (Some 4%positive)
  = Ok (Some [1; 5; 6; 7; 4]%Z).
Proof. intros fuel. vm_compute. reflexivity. Qed.

(** The same edges with the line connected first give the line. *)
Lemma PathTo_line_first : ∀ fuel,
  (λ r, xs r.2) <$>
    PathTo (8 + fuel)
      (one_grid [(1, [2; 5]); (2, [1; 3]); (3, [2; 4]); (4, [3; 7]);
                 (5, [1; 6]); (6, [5; 7]); (7, [6; 4])]%positive)
      (Some 1%positive) (Some 4%positive)
  = Ok (Some [1; 2; 3; 4]%Z).
Proof. intros fuel. vm_compute. reflexivity. Qed.

(** Two neighbours, and a path of three positions between them. *)
Lemma PathTo_triangle : ∀ fuel,
  (λ r, xs r.2) <$>
    PathTo (4 + fuel) (one_grid [(1, [3; 2]); (2, [3; 1]); (3, [2; 1])]%positive)
      (Some 1%positive) (Some 3%positive)
  = Ok (Some [1; 2; 3]%Z).
Proof. intros fuel. vm_compute. reflexivity. Qed.

(** *** Connect and Disconnect *)

Lemma line_consistent : consistent line.
Proof. apply consistentb_sound. vm_compute. reflexivity. Qed.



Lemma Connect_Disconnect_idempotent_witness :
  is_Some (points line !! 1%positive)
  ∧ is_Some (points line !! 3%positive)
  ∧ (∃ w', Connect line (Some 1%positive) (Some 3%positive) = Ok w'
           ∧ Connect w' (Some 1%positive) (Some 3%positive) = Ok w'
           ∧ (∀ x, NoDup (links line x) → NoDup (links w' x)))
  ∧ (IsConnected line (Some 1%positive) (Some 3%positive) = Ok false →
     IsConnected line (Some 3%positive) (Some 1%positive) = Ok false →
     Disconnect line (Some 1%positive) (Some 3%positive) = Ok line)
  ∧ Connect line (Some 1%positive) (Some 1%positive) = Ok line
  ∧ Disconnect line (Some 1%positive) (Some 1%positive) = Ok line.
Proof.
  assert (is_Some (points line !! 1%positive)) as H1 by (by eexists).
  assert (is_Some (points line !! 3%positive)) as H3 by (by eexists).
  split; [exact H1|]. split; [exact H3|].
  exact (Connect_Disconnect_idempotent line 1 3 H1 H3).
Defined.

(** [Disconnect] of the edge 2 - 3 of the line, on the arrays: in the array
    of 3 the cell after the one connection left keeps the old last entry. *)
Lemma Disconnect_line_arrays :
  (λ w, ((λ gp, Connections gp) <$> points w !! 2%positive,
         (λ gp, Connections gp) <$> points w !! 3%positive))
    <$> Disconnect line (Some 2%positive) (Some 3%positive)
  = Ok (Some (Slice [Some 1%positive] [None]),
        Some (Slice [Some 4%positive] [Some 4%positive])).
Proof. vm_compute. reflexivity. Qed.

(** *** The search loop of PathTo *)

(** The point 1 connected to 2 and to 3. *)
Definition fork : (@World Z) := one_grid [(1, [2; 3]); (2, [1]); (3, [1])]%positive.

(** [fork] during [PathTo] from 1 to 2, after the body that dequeued 2. *)
Definition fork_source_queued : (@World Z) :=
  store fork (Some 1%positive)
    (set_prevLink (point_at (Some (INodeGrid 10)) 1 [2; 3]%positive) (Some 2%positive)).

(** ... and after the body that dequeued the source 1. *)
Definition fork_source_expanded : (@World Z) :=
  store fork_source_queued (Some 3%positive)
    (set_prevLink (point_at (Some (INodeGrid 10)) 3 [1]%positive) (Some 1%positive)).

(** The marks of the search after 2 was dequeued, and after 1 was. *)
Definition marked_2 : gmap ptr bool := {[ Some 2%positive := true ]}.
Definition marked_1_2 : gmap ptr bool := <[ Some 1%positive := true ]> marked_2.

(** C5 as stated fails. In [PathTo] from 1 to 2 on [fork], the first body
    dequeues 2 and leaves the source 1 alone in the queue; the second body
    dequeues the source, and it does expand it: 3, so far without [prevLink],
    gets [prevLink] 1 and is appended to the queue.  The call returns with
    that [prevLink] in the store. *)
Lemma search_expands_source :
  search_body (fork, None, [Some 2%positive], ∅)
    = Ok (fork_source_queued, Some 2%positive, [Some 1%positive], marked_2)
  ∧ prevLink_of fork_source_queued (Some 3%positive) = Ok None
  ∧ search_body (fork_source_queued, Some 2%positive, [Some 1%positive],
                 marked_2)
    = Ok (fork_source_expanded, Some 1%positive, [Some 3%positive],
          marked_1_2)
  ∧ prevLink_of fork_source_expanded (Some 3%positive) = Ok (Some 1%positive)
  ∧ (λ r, (prevLink_of r.1 (Some 3%positive), xs r.2))
      <$> PathTo 3 fork (Some 1%positive) (Some 2%positive)
    = Ok (Ok (Some 1%positive), Some [1; 2]%Z).
Proof. split_and!; vm_compute; reflexivity. Qed.

Lemma search_stops_after_source_witness :
  search 2 (Some 1%positive)
    (fork_source_queued, Some 2%positive, [Some 1%positive], marked_2)
  = Ok (fork_source_expanded, Some 1%positive, [Some 3%positive],
        marked_1_2)
  ∧ [Some 3%positive]
    = [] ++ filter (λ c, marked_1_2 !! c
                         = None)
                   (elems (Connections
                      (set_prevLink (point_at (Some (INodeGrid 10)) 1 [2; 3]%positive)
                                    (Some 2%positive))))
  ∧ ∀ c, c ∈ elems (Connections
                      (set_prevLink (point_at (Some (INodeGrid 10)) 1 [2; 3]%positive)
                                    (Some 2%positive))) →
         marked_1_2 !! c = None →
         prevLink_of fork_source_expanded c = Ok (Some 1%positive).
Proof.
  apply (search_stops_after_source 0 fork_source_queued (Some 1%positive) (Some 2%positive)
           [] marked_2
           (set_prevLink (point_at (Some (INodeGrid 10)) 1 [2; 3]%positive) (Some 2%positive))
           fork_source_expanded [Some 3%positive]).
  - congruence.
  - vm_compute. reflexivity.
  - vm_compute. reflexivity.
Defined.

(** *** Queries *)

Lemma NearestPositionOnGrid_isolated_witness :
  Points three_points (Some 10%positive)
    = Ok [Some 1%positive; Some 2%positive; Some 3%positive]
  ∧ ∃ nearest gn,
      NearestGridPoint three_points (Some 10%positive) (Vector.mk 5 7 0 0)%Z = Ok nearest
      ∧ nearest ∈ [Some 1%positive; Some 2%positive; Some 3%positive]
      ∧ deref three_points nearest = Ok gn
      ∧ (elems (Connections gn) = [] →
         NearestPositionOnGrid three_points (Some 10%positive) (Vector.mk 5 7 0 0)%Z
         = Ok (Vector.mk 5 7 0 0)%Z).
Proof.
  split; [reflexivity|].
  apply (NearestPositionOnGrid_isolated three_points (Some 10%positive) (Vector.mk 5 7 0 0)%Z
           [Some 1%positive; Some 2%positive; Some 3%positive]).
  - reflexivity.
  - discriminate.
  - repeat constructor; by eexists.
Defined.

(** The nearest point to (5, 7, 0) is 3, at (3, 0, 0), and has no
    connection: the answer is (5, 7, 0), which is not on the grid. *)
Lemma NearestPositionOnGrid_off_grid :
  NearestGridPoint three_points (Some 10%positive) (Vector.mk 5 7 0 0)%Z = Ok (Some 3%positive)
  ∧ WorldPosition three_points (Some 3%positive) = Ok (Vector.mk 3 0 0 0)%Z
  ∧ NearestPositionOnGrid three_points (Some 10%positive) (Vector.mk 5 7 0 0)%Z
    = Ok (Vector.mk 5 7 0 0)%Z.
Proof. split_and!; vm_compute; reflexivity. Qed.

(** With a connection the answer is on the segment: on the line, the nearest
    position to (5, 7, 0) is the end (4, 0, 0). *)
Lemma NearestPositionOnGrid_on_segment :
  NearestPositionOnGrid line (Some 10%positive) (Vector.mk 5 7 0 0)%Z
  = Ok (Vector.mk 4 0 0 0)%Z.
Proof. vm_compute. reflexivity. Qed.

(** A grid without children. *)
Definition empty_grid : (@World Z) := mkWorld ∅ {[ 10%positive := grid_of [] ]}.

Lemma empty_grid_queries_witness :
  Points empty_grid (Some 10%positive) = Ok []
  ∧ NearestGridPoint empty_grid (Some 10%positive) (Vector.mk 1 0 0 0)%Z = Panic IndexOutOfRange
  ∧ FurthestGridPoint empty_grid (Some 10%positive) (Vector.mk 1 0 0 0)%Z = Panic IndexOutOfRange
  ∧ RandomPoint 7 empty_grid (Some 10%positive) = Panic InvalidArgument
  ∧ Center empty_grid (Some 10%positive)
    = Ok (Divide (Vector.mk (float_of_Z 0) (float_of_Z 0) (float_of_Z 0) (float_of_Z 0))
                 (float_of_Z 0))
  ∧ FirstPoint empty_grid (Some 10%positive) = Ok None
  ∧ LastPoint empty_grid (Some 10%positive) = Ok None.
Proof.
  split; [reflexivity|].
  apply (empty_grid_queries empty_grid (Some 10%positive) (Vector.mk 1 0 0 0)%Z 7).
  reflexivity.
Defined.

(** *** Combine *)

(** C2, what the code does. Grid 10 has the points 1 and 2, grid 20 the points
    3 and 4, and 2 and 3 coincide.  After [Combine] of grid 20 into grid 10 the
    grid has two points, not three: the outer loop runs over the points as
    they were before any merge, so after 3 was merged into 2 and detached, 3
    has its turn as the surviving point and 2, which coincides with it, is
    merged into 3 and detached as well.  Both coincident points end without
    parent; the connections to 1 and to 4 are held by the detached 3. *)
Theorem Combine_detaches_both :
  Points two_grids (Some 10%positive) = Ok [Some 1%positive; Some 2%positive]
  ∧ Points two_grids (Some 20%positive) = Ok [Some 3%positive; Some 4%positive]
  ∧ WorldPosition two_grids (Some 2%positive) = WorldPosition two_grids (Some 3%positive)
  ∧ ∃ w', Combine two_grids (Some 10%positive) [Some 20%positive] = Ok w'
          ∧ Points w' (Some 10%positive) = Ok [Some 1%positive; Some 4%positive]
          ∧ Points w' (Some 20%positive) = Ok []
          ∧ parent_of w' 2 = Some None
          ∧ parent_of w' 3 = Some None
          ∧ connections w' 2 = Some []
          ∧ connections w' 3 = Some [Some 1%positive; Some 4%positive]
          ∧ connections w' 1 = Some [Some 3%positive]
          ∧ connections w' 4 = Some [Some 3%positive].
Proof.
  split_and!; [reflexivity..|].
  eexists. split; [vm_compute; reflexivity|].
  split_and!; vm_compute; reflexivity.
Qed.

(** One merge alone, with three connections to move: the points 1 and 2
    coincide and 2 is connected to 3, 4 and 5.  [Disconnect] shifts the Connections of 2 under the range that
    reads them, which then skips 4: 1 gets 3 and 5 only, and 4 stays
    connected to 2. *)
Lemma Combine_merge_skips :
  (λ w, (connections w 1, connections w 2, connections w 4))
    <$> Combine_merge
          (mkWorld (list_to_map
                      [(1, point_at (Some (INodeGrid 10)) 1 []);
                       (2, mkGridPoint (mkNode (Some (INodeGrid 10)) [] (Vector.mk 1 0 0 0)%Z)
                             (Slice [Some 3; Some 4; Some 5] [None]) None);
                       (3, point_at (Some (INodeGrid 10)) 3 [2]);
                       (4, point_at (Some (INodeGrid 10)) 4 [2]);
                       (5, point_at (Some (INodeGrid 10)) 5 [2])]%positive)
                   {[ 10%positive := grid_of [1; 2; 3; 4; 5]%positive ]})
          (Some 1%positive) (Some 2%positive)
  = Ok (Some [Some 3%positive; Some 5%positive], Some [Some 4%positive],
        Some [Some 2%positive]).
Proof. vm_compute. reflexivity. Qed.


(** *** PathTo on a destination that can be reached *)

Lemma line_with_detour_consistent : consistent line_with_detour.
Proof. apply consistentb_sound. vm_compute. reflexivity. Qed.

Lemma line_with_detour_joined : rtc (link line_with_detour) 4%positive 1%positive.
Proof.
  apply (rtc_l _ _ 3%positive); [unfold link; compute_done|].
  apply (rtc_l _ _ 2%positive); [unfold link; compute_done|].
  apply rtc_once. unfold link. compute_done.
Qed.

Lemma PathTo_reachable_witness :
  consistent line_with_detour
  ∧ IsOnSameGrid line_with_detour (Some 1%positive) (Some 4%positive) = Ok true
  ∧ 1%positive ≠ 4%positive
  ∧ rtc (link line_with_detour) 4%positive 1%positive
  ∧ ∃ n, ∀ fuel, n ≤ fuel →
      ∃ w' path nodes,
        PathTo fuel line_with_detour (Some 1%positive) (Some 4%positive) = Ok (w', Some path)
        ∧ Forall2 (λ a v, WorldPosition line_with_detour (Some a) = Ok v)
            nodes (GridPoints path)
        ∧ head nodes = Some 1%positive ∧ last nodes = Some 4%positive ∧ NoDup nodes
        ∧ ∀ i x y, nodes !! i = Some x → nodes !! S i = Some y →
                   link line_with_detour x y.
Proof.
  assert (1%positive ≠ 4%positive) as Hne by discriminate.
  split; [exact line_with_detour_consistent|].
  split; [reflexivity|].
  split; [exact Hne|].
  split; [exact line_with_detour_joined|].
  exact (PathTo_reachable line_with_detour 1 4 line_with_detour_consistent eq_refl Hne
           line_with_detour_joined).
Defined.

Lemma PathTo_frame_witness :
  ∃ w' path,
    PathTo 9 line_with_detour (Some 1%positive) (Some 4%positive) = Ok (w', path)
    ∧ same_but_prevLink line_with_detour w'
    ∧ (∀ x y, IsConnected w' x y = IsConnected line_with_detour x y)
    ∧ (∀ x y, IsOnSameGrid w' x y = IsOnSameGrid line_with_detour x y)
    ∧ (∀ x, WorldPosition w' x = WorldPosition line_with_detour x)
    ∧ (∀ g, Points w' g = Points line_with_detour g).
Proof.
  assert (∃ r, PathTo 9 line_with_detour (Some 1%positive) (Some 4%positive) = Ok r)
    as [[w' path] Hrun] by (eexists; vm_compute; reflexivity).
  exists w', path. split; [exact Hrun|].
  exact (PathTo_frame 9 line_with_detour (Some 1%positive) (Some 4%positive) w' path Hrun).
Defined.


(** *** Connect and Disconnect: frames and round trips *)

Lemma Connect_frame_witness :
  ∃ w', Connect three_points (Some 1%positive) (Some 2%positive) = Ok w'
        ∧ ((Some 1%positive = Some 2%positive ∧ w' = three_points)
           ∨ ∃ a b ga gb,
               Some 1%positive = Some a ∧ Some 2%positive = Some b ∧ a ≠ b
               ∧ points three_points !! a = Some ga ∧ points three_points !! b = Some gb
               ∧ w' = mkWorld (<[b := add_link gb (Some 1%positive)]>
                                 (<[a := add_link ga (Some 2%positive)]>
                                    (points three_points)))
                              (grids three_points)).
Proof.
  assert (∃ r, Connect three_points (Some 1%positive) (Some 2%positive) = Ok r)
    as [w' Hrun] by (eexists; vm_compute; reflexivity).
  exists w'. split; [exact Hrun|].
  exact (Connect_frame three_points (Some 1%positive) (Some 2%positive) w' Hrun).
Defined.

Lemma Disconnect_frame_witness :
  ∃ w', Disconnect line (Some 2%positive) (Some 3%positive) = Ok w'
        ∧ ((Some 2%positive = Some 3%positive ∧ w' = line)
           ∨ ∃ a b ga gb ga' gb',
               Some 2%positive = Some a ∧ Some 3%positive = Some b ∧ a ≠ b
               ∧ points line !! a = Some ga ∧ points line !! b = Some gb
               ∧ pruned (Some 3%positive) ga ga' ∧ pruned (Some 2%positive) gb gb'
               ∧ w' = mkWorld (<[b := gb']> (<[a := ga']> (points line))) (grids line)).
Proof.
  assert (∃ r, Disconnect line (Some 2%positive) (Some 3%positive) = Ok r)
    as [w' Hrun] by (eexists; vm_compute; reflexivity).
  exists w'. split; [exact Hrun|].
  exact (Disconnect_frame line (Some 2%positive) (Some 3%positive) w' Hrun).
Defined.

Lemma Connect_then_Disconnect_witness :
  1%positive ≠ 2%positive
  ∧ points three_points !! 1%positive = Some (point_at (Some (INodeGrid 10)) 1 [])
  ∧ points three_points !! 2%positive = Some (point_at (Some (INodeGrid 10)) 2 [])
  ∧ ∃ w1 w2,
      Connect three_points (Some 1%positive) (Some 2%positive) = Ok w1
      ∧ Disconnect w1 (Some 1%positive) (Some 2%positive) = Ok w2
      ∧ grids w2 = grids three_points
      ∧ ∀ x, visible <$> points w2 !! x = visible <$> points three_points !! x.
Proof.
  assert (1%positive ≠ 2%positive) as Hne by discriminate.
  split; [exact Hne|]. split; [reflexivity|]. split; [reflexivity|].
  apply (Connect_then_Disconnect three_points 1 2
           (point_at (Some (INodeGrid 10)) 1 []) (point_at (Some (INodeGrid 10)) 2 []) Hne);
    first [reflexivity | compute_done].
Defined.

Lemma Disconnect_then_Connect_witness :
  2%positive ≠ 3%positive
  ∧ is_Some (points line !! 2%positive)
  ∧ is_Some (points line !! 3%positive)
  ∧ NoDup (links line 2%positive)
  ∧ NoDup (links line 3%positive)
  ∧ ∃ w1 w2,
      Disconnect line (Some 2%positive) (Some 3%positive) = Ok w1
      ∧ Connect w1 (Some 2%positive) (Some 3%positive) = Ok w2
      ∧ links w2 2%positive
        = filter (λ c, c ≠ Some 3%positive) (links line 2%positive) ++ [Some 3%positive]
      ∧ links w2 3%positive
        = filter (λ c, c ≠ Some 2%positive) (links line 3%positive) ++ [Some 2%positive]
      ∧ ∀ x, x ≠ 2%positive → x ≠ 3%positive → links w2 x = links line x.
Proof.
  assert (2%positive ≠ 3%positive) as Hne by discriminate.
  assert (is_Some (points line !! 2%positive)) as H2 by (by eexists).
  assert (is_Some (points line !! 3%positive)) as H3 by (by eexists).
  assert (NoDup (links line 2%positive)) as Hnd2 by compute_done.
  assert (NoDup (links line 3%positive)) as Hnd3 by compute_done.
  split; [exact Hne|]. split; [exact H2|]. split; [exact H3|].
  split; [exact Hnd2|]. split; [exact Hnd3|].
  exact (Disconnect_then_Connect line 2 3 Hne H2 H3 Hnd2 Hnd3).
Defined.

(** *** Connections that list a point twice *)

(** The point 1 lists 2 twice, the second time last. *)
Definition listed_twice : (@World Z) :=
  one_grid [(1, [2; 3; 2]); (2, [1]); (3, [1])]%positive.

(** The point 1 lists 2 twice in a row, and then 3. *)
Definition listed_twice_in_a_row : (@World Z) :=
  one_grid [(1, [2; 2; 3]); (2, [1]); (3, [1])]%positive.

Lemma Disconnect_twice_listed_witness :
  1%positive ≠ 2%positive
  ∧ points listed_twice !! 1%positive
    = Some (point_at (Some (INodeGrid 10)) 1 [2; 3; 2]%positive)
  ∧ Disconnect listed_twice (Some 1%positive) (Some 2%positive) = Panic IndexOutOfRange.
Proof.
  assert (1%positive ≠ 2%positive) as Hne by discriminate.
  split; [exact Hne|]. split; [reflexivity|].
  apply (Disconnect_twice_listed listed_twice 1 2
           (point_at (Some (INodeGrid 10)) 1 [2; 3; 2]%positive) [] [Some 3%positive] Hne);
    first [reflexivity | compute_done].
Defined.

Lemma Disconnect_twice_in_a_row_witness :
  1%positive ≠ 2%positive
  ∧ points listed_twice_in_a_row !! 1%positive
    = Some (point_at (Some (INodeGrid 10)) 1 [2; 2; 3]%positive)
  ∧ points listed_twice_in_a_row !! 2%positive
    = Some (point_at (Some (INodeGrid 10)) 2 [1]%positive)
  ∧ ∃ w', Disconnect listed_twice_in_a_row (Some 1%positive) (Some 2%positive) = Ok w'
          ∧ links w' 1%positive = [] ++ Some 2%positive :: [Some 3%positive]
          ∧ IsConnected w' (Some 1%positive) (Some 2%positive) = Ok true
          ∧ IsConnected w' (Some 2%positive) (Some 1%positive) = Ok false.
Proof.
  assert (1%positive ≠ 2%positive) as Hne by discriminate.
  split; [exact Hne|]. split; [reflexivity|]. split; [reflexivity|].
  apply (Disconnect_twice_in_a_row listed_twice_in_a_row 1 2
           (point_at (Some (INodeGrid 10)) 1 [2; 2; 3]%positive)
           (point_at (Some (INodeGrid 10)) 2 [1]%positive) [] [Some 3%positive] Hne);
    first [reflexivity | discriminate | compute_done].
Defined.


(** *** The points of a grid *)

Lemma line_Points :
  Points line (Some 10%positive) = Ok [Some 1; Some 2; Some 3; Some 4]%positive.
Proof. vm_compute. reflexivity. Qed.

Lemma line_points_allocated :
  Forall (λ p, ∃ gp, deref line p = Ok gp) [Some 1; Some 2; Some 3; Some 4]%positive.
Proof. repeat constructor; by eexists. Qed.

Lemma Points_children_witness :
  Points line (Some 10%positive) = Ok [Some 1; Some 2; Some 3; Some 4]%positive
  ∧ ∃ g gr l,
      Some 10%positive = Some g ∧ grids line !! g = Some gr
      ∧ [Some 1; Some 2; Some 3; Some 4]%positive = Some <$> l
      ∧ INodeGridPoint <$> l
        = filter (λ n, is_GridPoint n = true) (children (grid_Node gr)).
Proof.
  split; [exact line_Points|].
  exact (Points_children line (Some 10%positive) _ line_Points).
Defined.

Lemma FirstPoint_LastPoint_witness :
  Points line (Some 10%positive) = Ok [Some 1; Some 2; Some 3; Some 4]%positive
  ∧ FirstPoint line (Some 10%positive) = Ok (Some 1%positive)
  ∧ LastPoint line (Some 10%positive) = Ok (Some 4%positive)
  ∧ (FirstPoint line (Some 10%positive) = Ok None
     ↔ [Some 1; Some 2; Some 3; Some 4]%positive = [])
  ∧ (LastPoint line (Some 10%positive) = Ok None
     ↔ [Some 1; Some 2; Some 3; Some 4]%positive = []).
Proof.
  split; [exact line_Points|].
  exact (FirstPoint_LastPoint line (Some 10%positive) _ line_Points).
Defined.

Lemma RandomPoint_member_witness :
  Points line (Some 10%positive) = Ok [Some 1; Some 2; Some 3; Some 4]%positive
  ∧ (∀ rnd, ∃ p, RandomPoint rnd line (Some 10%positive) = Ok p
                 ∧ p ∈ [Some 1; Some 2; Some 3; Some 4]%positive)
  ∧ (∀ p, p ∈ [Some 1; Some 2; Some 3; Some 4]%positive →
          ∃ rnd, RandomPoint rnd line (Some 10%positive) = Ok p).
Proof.
  split; [exact line_Points|].
  apply (RandomPoint_member line (Some 10%positive) _ line_Points). discriminate.
Defined.

(** The points of the line with their positions, and the same sorted by
    their distance to (3, 0, 0). *)
Definition line_positioned : list (ptr * Vector Z) :=
  [(Some 1%positive, Vector.mk 1 0 0 0); (Some 2%positive, Vector.mk 2 0 0 0);
   (Some 3%positive, Vector.mk 3 0 0 0); (Some 4%positive, Vector.mk 4 0 0 0)]%Z.

Lemma line_sorted :
  sorted_by (nearer (Vector.mk 3 0 0 0)%Z)
    (sort_Slice _ (nearer (Vector.mk 3 0 0 0)%Z) line_positioned).
Proof.
  assert (sort_Slice _ (nearer (Vector.mk 3 0 0 0)%Z) line_positioned
          = [(Some 3%positive, Vector.mk 3 0 0 0); (Some 4%positive, Vector.mk 4 0 0 0);
             (Some 2%positive, Vector.mk 2 0 0 0); (Some 1%positive, Vector.mk 1 0 0 0)]%Z) as ->
    by (vm_compute; reflexivity).
  intros [|[|[|[|i]]]] [|[|[|[|j]]]] x y Hij Hi Hj; try lia;
    cbn in Hi, Hj; simplify_eq; reflexivity.
Qed.

Lemma Nearest_Furthest_sorted_witness :
  Points line (Some 10%positive) = Ok [Some 1; Some 2; Some 3; Some 4]%positive
  ∧ positioned line [Some 1; Some 2; Some 3; Some 4]%positive = Ok line_positioned
  ∧ ∃ n vn restn f vf restf,
      NearestGridPoint line (Some 10%positive) (Vector.mk 3 0 0 0)%Z = Ok n
      ∧ FurthestGridPoint line (Some 10%positive) (Vector.mk 3 0 0 0)%Z = Ok f
      ∧ line_positioned ≡ₚ (n, vn) :: restn
      ∧ line_positioned ≡ₚ restf ++ [(f, vf)]
      ∧ (∀ x, x ∈ restn → nearer (Vector.mk 3 0 0 0)%Z x (n, vn) = false)
      ∧ (∀ x, x ∈ restf → nearer (Vector.mk 3 0 0 0)%Z (f, vf) x = false).
Proof.
  assert (positioned line [Some 1; Some 2; Some 3; Some 4]%positive = Ok line_positioned)
    as Hpos by reflexivity.
  split; [exact line_Points|]. split; [exact Hpos|].
  apply (Nearest_Furthest_sorted line (Some 10%positive) (Vector.mk 3 0 0 0)%Z
           _ line_positioned line_Points Hpos); [discriminate|exact line_sorted].
Defined.

Lemma NearestPositionOnGrid_returns_witness :
  consistent line
  ∧ Points line (Some 10%positive) = Ok [Some 1; Some 2; Some 3; Some 4]%positive
  ∧ ∃ v, NearestPositionOnGrid line (Some 10%positive) (Vector.mk 3 5 0 0)%Z = Ok v.
Proof.
  split; [exact line_consistent|]. split; [exact line_Points|].
  apply (NearestPositionOnGrid_returns line (Some 10%positive) (Vector.mk 3 5 0 0)%Z
           _ line_consistent line_Points); [discriminate|exact line_points_allocated].
Defined.

Lemma IsOnSameGrid_equiv_witness :
  deref line (Some 1%positive) = Ok (point_at (Some (INodeGrid 10)) 1 [2]%positive)
  ∧ deref line (Some 4%positive) = Ok (point_at (Some (INodeGrid 10)) 4 [3]%positive)
  ∧ IsOnSameGrid line (Some 1%positive) (Some 1%positive) = Ok true
  ∧ IsOnSameGrid line (Some 4%positive) (Some 1%positive)
    = IsOnSameGrid line (Some 1%positive) (Some 4%positive).
Proof.
  split; [reflexivity|]. split; [reflexivity|].
  destruct (IsOnSameGrid_equiv line (Some 1%positive) (Some 4%positive) _ _
              eq_refl eq_refl) as (Hrefl & Hsym & _).
  split; [exact Hrefl|exact Hsym].
Defined.


(** *** Index and Unparent *)

Lemma Index_first_witness :
  Index line (INodeGridPoint 3) = Ok 2%Z
  ∧ GridPoint_Index line (Some 3%positive) = Ok 2%Z
  ∧ ∃ nd, get_Node line (INodeGridPoint 3) = Ok nd
          ∧ match parent nd with
            | None => 2%Z = (-1)%Z
            | Some par =>
                ∃ pn, get_Node line par = Ok pn
                      ∧ if decide (INodeGridPoint 3 ∈ children pn)
                        then (0 ≤ 2)%Z ∧ children pn !! Z.to_nat 2 = Some (INodeGridPoint 3)
                             ∧ INodeGridPoint 3 ∉ take (Z.to_nat 2) (children pn)
                        else 2%Z = (-1)%Z
            end.
Proof.
  assert (Index line (INodeGridPoint 3) = Ok 2%Z) as Hrun by reflexivity.
  split; [exact Hrun|]. split; [reflexivity|].
  exact (Index_first line (INodeGridPoint 3) 2%Z Hrun).
Defined.

Lemma Unparent_Index_witness :
  ∃ w', Unparent line (INodeGridPoint 3) = Ok w'
        ∧ Index w' (INodeGridPoint 3) = Ok (-1)%Z.
Proof.
  assert (∃ r, Unparent line (INodeGridPoint 3) = Ok r) as [w' Hrun]
    by (eexists; vm_compute; reflexivity).
  exists w'. split; [exact Hrun|].
  exact (Unparent_Index line (INodeGridPoint 3) w' Hrun).
Defined.

Lemma Unparent_dangling_witness :
  points line !! 3%positive = Some (point_at (Some (INodeGrid 10)) 3 [2; 4]%positive)
  ∧ get_Node line (INodeGrid 10) = Ok (grid_Node (grid_of [1; 2; 3; 4]%positive))
  ∧ INodeGridPoint 3 ∈ children (grid_Node (grid_of [1; 2; 3; 4]%positive))
  ∧ ∃ w', GridPoint_Unparent line (Some 3%positive) = Ok w'
          ∧ (∀ x y, IsConnected w' x y = IsConnected line x y)
          ∧ ∀ b gb fuel, b ≠ 3%positive → points line !! b = Some gb →
              parent (gp_Node gb) ≠ None →
              PathTo fuel w' (Some 3%positive) (Some b) = Ok (w', None)
              ∧ PathTo fuel w' (Some b) (Some 3%positive) = Ok (w', None).
Proof.
  assert (INodeGridPoint 3 ∈ children (grid_Node (grid_of [1; 2; 3; 4]%positive)))
    as Hin by compute_done.
  split; [reflexivity|]. split; [reflexivity|]. split; [exact Hin|].
  exact (Unparent_dangling line 3 (point_at (Some (INodeGrid 10)) 3 [2; 4]%positive)
           (INodeGrid 10) (grid_Node (grid_of [1; 2; 3; 4]%positive))
           eq_refl eq_refl eq_refl Hin).
Defined.

(** *** ChooseNewTarget *)

Lemma fork_consistent : consistent fork.
Proof. apply consistentb_sound. vm_compute. reflexivity. Qed.

Lemma fork_Points : Points fork (Some 10%positive) = Ok [Some 1; Some 2; Some 3]%positive.
Proof. vm_compute. reflexivity. Qed.

Lemma fork_points p :
  p ∈ [Some 1; Some 2; Some 3]%positive →
  ∃ a gp, p = Some a ∧ points fork !! a = Some gp
          ∧ parent (gp_Node gp) = Some (INodeGrid 10).
Proof.
  intros Hp. repeat (apply elem_of_cons in Hp as [->|Hp]; [by eexists _, _|]).
  by apply elem_of_nil in Hp.
Qed.

Lemma fork_joined a b :
  Some a ∈ [Some 1; Some 2; Some 3]%positive →
  Some b ∈ [Some 1; Some 2; Some 3]%positive →
  rtc (link fork) a b.
Proof.
  assert (∀ c, Some c ∈ [Some 1; Some 2; Some 3]%positive →
               rtc (link fork) c 1%positive ∧ rtc (link fork) 1%positive c) as Hhub.
  { intros c Hc.
    repeat (apply elem_of_cons in Hc as [[= ->]|Hc];
            [split; first [apply rtc_refl | apply rtc_once; unfold link; compute_done]|]).
    by apply elem_of_nil in Hc. }
  intros [Ha _]%Hhub [_ Hb]%Hhub. by etrans.
Qed.

Lemma ChooseNewTarget_path_witness :
  consistent fork
  ∧ Points fork (Some 10%positive) = Ok [Some 1; Some 2; Some 3]%positive
  ∧ ∃ n, ∀ fuel rnd, n ≤ fuel →
      ∃ closest target w' path vc vt,
        NearestGridPoint fork (Some 10%positive) (Vector.mk 2 1 0 0)%Z = Ok closest
        ∧ RandomPoint rnd fork (Some 10%positive) = Ok target
        ∧ ChooseNewTarget fuel rnd fork (Some 10%positive) (Vector.mk 2 1 0 0)%Z
          = Ok (w', Some path)
        ∧ WorldPosition fork closest = Ok vc
        ∧ WorldPosition fork target = Ok vt
        ∧ head (GridPoints path) = Some vc
        ∧ last (GridPoints path) = Some vt.
Proof.
  assert ([Some 1; Some 2; Some 3]%positive ≠ @nil ptr) as Hne by discriminate.
  split; [exact fork_consistent|]. split; [exact fork_Points|].
  exact (ChooseNewTarget_path fork 10 (Vector.mk 2 1 0 0)%Z _
           fork_consistent fork_Points Hne fork_points fork_joined).
Defined.


(** *** Combine without coincident points *)

(** Grid 10 with the connected points 1 and 2, grid 20 with the connected
    points 3 and 4; the point [i] is at (i, 0, 0). *)
Definition two_grids_apart : (@World Z) :=
  mkWorld (list_to_map
             [(1, point_at (Some (INodeGrid 10)) 1 [2]); (2, point_at (Some (INodeGrid 10)) 2 [1]);
              (3, point_at (Some (INodeGrid 20)) 3 [4]); (4, point_at (Some (INodeGrid 20)) 4 [3])]%positive)
          (list_to_map [(10, grid_of [1; 2]); (20, grid_of [3; 4])]%positive).

Ltac pick H :=
  repeat (apply elem_of_cons in H as [H|H]; [injection H as ->|]);
  try (by apply elem_of_nil in H).

Lemma two_grids_apart_other a :
  a ∈ [3; 4]%positive →
  ∃ gp, points two_grids_apart !! a = Some gp
        ∧ parent (gp_Node gp) = Some (INodeGrid 20).
Proof.
  intros Ha. repeat (apply elem_of_cons in Ha as [->|Ha]; [by eexists|]).
  by apply elem_of_nil in Ha.
Qed.

Lemma two_grids_apart_grid a :
  Some a ∈ Points_loop (children (grid_Node (grid_of [1; 2]%positive))) →
  is_Some (points two_grids_apart !! a).
Proof. intros Ha. cbn in Ha. pick Ha; by eexists. Qed.

Lemma two_grids_apart_positions a b (ga gb : @GridPoint Z) :
  a ≠ b →
  Some a ∈ Points_loop (children (grid_Node (grid_of [1; 2]%positive)))
           ++ (Some <$> [3; 4]%positive) →
  Some b ∈ Points_loop (children (grid_Node (grid_of [1; 2]%positive)))
           ++ (Some <$> [3; 4]%positive) →
  points two_grids_apart !! a = Some ga →
  points two_grids_apart !! b = Some gb →
  Equals (position (gp_Node ga)) (position (gp_Node gb)) = false.
Proof.
  intros Hab Ha Hb Hga Hgb. cbn in Ha, Hb. pick Ha; pick Hb;
    first [congruence | vm_compute in Hga, Hgb; simplify_eq; vm_compute; reflexivity].
Qed.

Lemma Combine_apart_witness :
  10%positive ≠ 20%positive
  ∧ grids two_grids_apart !! 10%positive = Some (grid_of [1; 2]%positive)
  ∧ grids two_grids_apart !! 20%positive = Some (grid_of [3; 4]%positive)
  ∧ NoDup [3; 4]%positive
  ∧ ∃ w', Combine two_grids_apart (Some 10%positive) [Some 20%positive] = Ok w'
          ∧ Points w' (Some 10%positive)
            = Ok (Points_loop (children (grid_Node (grid_of [1; 2]%positive)))
                  ++ (Some <$> [3; 4]%positive))
          ∧ Points w' (Some 20%positive) = Ok []
          ∧ (∀ x y, IsConnected w' x y = IsConnected two_grids_apart x y)
          ∧ (∀ x, WorldPosition w' x = WorldPosition two_grids_apart x).
Proof.
  assert (10%positive ≠ 20%positive) as Hne by discriminate.
  assert (NoDup [3; 4]%positive) as Hnd by compute_done.
  split; [exact Hne|]. split; [reflexivity|]. split; [reflexivity|]. split; [exact Hnd|].
  exact (Combine_apart two_grids_apart 10 20 (grid_of [1; 2]%positive)
           (grid_of [3; 4]%positive) [3; 4]%positive Hne eq_refl eq_refl eq_refl eq_refl Hnd
           two_grids_apart_other two_grids_apart_grid two_grids_apart_positions).
Defined.

End Examples.
